(** * @quave/migrations: the migration engine, embedded and verified

    A shallow embedding of [src/migrations.ts] (class [Migrations]),
    [src/logger.ts] (class [Logger]) and [src/types.ts].

    Modelling conventions.
    - A JavaScript [number] is an integer ([Z]), [NaN] or an infinity;
      fractional numbers are outside the model.  [add] is embedded on what
      JavaScript can pass it, a [version] of any type, [NaN] included, and
      on a registry that holds what it stores.  The engine is embedded on
      instances whose registered versions are integers, as is the version
      of the control document; [add_integer] is [add] on such instances.
    - A string is a sequence of code units below 256.
    - [Array.prototype.sort] is fixed by ECMAScript only for a consistent
      comparator; [add] takes the sort of the host as a parameter, and the
      theorems assume of it what the standard says.
    - A thrown value is an [Error] whose message is a string, a value that
      [String()] renders, or a value on which [String()] itself throws.
    - The MongoDB collection is reduced to its one document of interest, the
      one with [_id: 'control'].  Every request to the driver may fail: the
      world carries a schedule of driver faults, one entry per request.
    - [async] methods become state transformers over the [World]; a rejected
      promise and a synchronous [throw] are both the outcome [Throw].
    - User migration actions act on a user state [U], disjoint from the
      control collection, and may throw.
    - Two pieces of ghost state make runs observable: [events] (the calls
      of [lock], [unlock], [updateVersion] and of the migration actions, in
      order) and [logs] (what the logger emitted).

    Layout: the embedding of the three source files; the vocabulary of the
    statements; sample registries; the lemmas on the registry, on arrays
    and on each method; the theorems on [add] and on the runs of
    [_migrateTo] and [migrateTo]; what holds of every run under any fault
    schedule, and of [getVersion], [lock], [unlock] and [reset]; concrete
    runs, among them the test suite of the package; the order of
    registration, instances as the public methods build them, and string
    commands. *)

From Stdlib Require Import ZArith List String Ascii Bool Lia.
From Stdlib Require Import Sorting.Sorted Sorting.Permutation.
Import ListNotations.

Set Implicit Arguments.
Local Open Scope Z_scope.

(* ------------------------------------------------------------------ *)
(** ** JavaScript values *)

(** [number]: an integer, the [NaN] that [parseInt] yields, or
    [Infinity] / [-Infinity]. *)
Inductive number : Type :=
| Num (z : Z)
| NaN
| Infinity (negative : bool).

(** [a === b] on numbers: [NaN] equals nothing. *)
Definition strict_eq (a b : number) : bool :=
  match a, b with
  | Num x, Num y => x =? y
  | Infinity x, Infinity y => Bool.eqb x y
  | _, _ => false
  end.

(** [a < b] on numbers: false as soon as one side is [NaN]. *)
Definition less_than (a b : number) : bool :=
  match a, b with
  | Num x, Num y => x <? y
  | Num _, Infinity negative => negb negative
  | Infinity negative, Num _ => negative
  | Infinity x, Infinity y => x && negb y
  | _, _ => false
  end.

(** [a <= b] on numbers. *)
Definition less_or_equal (a b : number) : bool :=
  match a, b with
  | Num x, Num y => x <=? y
  | Num _, Infinity negative => negb negative
  | Infinity negative, Num _ => negative
  | Infinity x, Infinity y => x || negb y
  | _, _ => false
  end.

(** [a - b] on numbers; on integers only its sign is used. *)
Definition minus (a b : number) : number :=
  match a, b with
  | Num x, Num y => Num (x - y)
  | Num _, Infinity negative => Infinity (negb negative)
  | Infinity negative, Num _ => Infinity negative
  | Infinity x, Infinity y => if Bool.eqb x y then NaN else Infinity x
  | _, _ => NaN
  end.

(** The double nearest to an integer, ties to even; only integers of
    magnitude [2^53] and more are moved. *)
Definition to_double (z : Z) : number :=
  let a := Z.abs z in
  if a <? 2 ^ 53 then Num z
  else
    let e := Z.log2 a - 52 in
    let q := a / 2 ^ e in
    let r := a mod 2 ^ e in
    let half := 2 ^ (e - 1) in
    let q' := if r <? half then q
              else if half <? r then q + 1
              else if Z.even q then q else q + 1 in
    let m := q' * 2 ^ e in
    if 2 ^ 1024 <=? m then Infinity (z <? 0) else Num (Z.sgn z * m).

(** What JavaScript can pass where a number is expected: a number, or a
    value of another type. *)
Inductive js_value : Type :=
| JsNumber (n : number)
| JsOther.

(** ['up' | 'down'] *)
Inductive direction : Type := Up | Down.

(** [string | number] (and [undefined], which the runtime check in [migrateTo] allows for). *)
Inductive command : Type :=
| CmdNumber (n : number)
| CmdString (s : string)
| CmdUndefined.

(** The messages of the [Error] objects the engine creates, one constructor
    per template; [Text] is any other message (user code, the driver). *)
Inductive message : Type :=
| MustSupplyUp                       (* 'Migration must supply an up function.' *)
| MustSupplyVersion                  (* 'Migration must supply a version number.' *)
| VersionMustBePositive              (* 'Migration version must be greater than 0' *)
| DatabaseNotSetCall                 (* 'Database connection not set. Call setDatabase() first.' *)
| DatabaseNotSet                     (* 'Database connection not set' *)
| InvalidCommand (c : command)       (* `Cannot migrate using invalid command: ${command}` *)
| ControlIsLocked                    (* 'Migration control is locked' *)
| IndexNotFound (idx : Z)            (* `Migration at index ${idx} not found` *)
| CannotMigrate (d : direction) (v : Z) (* `Cannot migrate ${direction} on version ${migration.version}` *)
| CantFindVersion (v : number)       (* `Can't find migration version ${version}` *)
| Text (s : string).

(** A thrown value: an [Error] instance; or anything else, by its
    [String()] rendering; or anything else on which [String()] throws
    [raised], as it throws a [TypeError] on [Object.create(null)]. *)
Inductive exn : Type :=
| JsError (m : message)
| JsValue (s : string)
| JsUnprintable (raised : exn).

(** How a call ends: it returns, it throws (or its promise rejects), or the
    process exits ([process.exit]). *)
Inductive outcome (A : Type) : Type :=
| Ok (a : A)
| Throw (e : exn)
| Exit (code : Z).
Arguments Throw {A} e.
Arguments Exit {A} code.

(** [error instanceof Error ? error.message : String(error)] *)
Definition error_text (e : exn) : outcome message :=
  match e with
  | JsError m => Ok m
  | JsValue s => Ok (Text s)
  | JsUnprintable raised => Throw raised
  end.

(** [error instanceof Error ? error : new Error(String(error))] *)
Definition as_Error (e : exn) : outcome exn :=
  match e with
  | JsError m => Ok (JsError m)
  | JsValue s => Ok (JsError (Text s))
  | JsUnprintable raised => Throw raised
  end.

(* ------------------------------------------------------------------ *)
(** ** types.ts *)

(** [ControlDocument]; [_id] is always ['control']. *)
Record ControlDocument : Type := {
  ctl_version : Z;
  locked : bool;
  lockedAt : option Z
}.

(** [MigrationCommand] *)
Record MigrationCommand : Type := {
  cmd_version : number + unit;       (* number | 'latest' *)
  subcommand : option string
}.

(** [MigrationResult] *)
Record MigrationResult : Type := {
  success : bool;
  fromVersion : Z;
  toVersion : number;
  migrationsRun : Z;
  error : option exn
}.

(** A key of an options object: absent, present with the value
    [undefined], or present with a value. *)
Inductive field (A : Type) : Type :=
| Absent
| Undefined
| Given (a : A).
Arguments Absent {A}.
Arguments Undefined {A}.

(** [MigrationOptions], all fields optional.  The [logger] callback is a
    sink like the console: both write to [logs]. *)
Record MigrationOptions : Type := {
  opt_log : field bool;
  opt_logIfLatest : field bool;
  opt_collectionName : field string
}.

(** [Required<MigrationOptions>] as it is at run time: a spread copies an
    explicit [undefined], so every key is there but may hold [undefined]
    ([None]). *)
Record RequiredOptions : Type := {
  stored_log : option bool;
  stored_logIfLatest : option bool;
  collectionName : option string
}.

(** [options.log] and [options.logIfLatest] as the code reads them, in a
    condition: [undefined] is falsy. *)
Definition truthy (b : option bool) : bool :=
  match b with
  | Some true => true
  | _ => false
  end.

Definition log (o : RequiredOptions) : bool := truthy (stored_log o).

Definition logIfLatest (o : RequiredOptions) : bool := truthy (stored_logIfLatest o).

(** [DatabaseConnection]: the handle of the collection named at
    [setDatabase] time. *)
Record DatabaseConnection : Type := {
  collection_of : option string
}.

(** What the logger is asked to print. *)
Inductive level : Type := info | warn | error_level | debug.

Inductive logline : Type :=
| AlreadyAtVersion (v : number)      (* `Not migrating, already at version ${version}` *)
| ControlLocked                      (* 'Not migrating, control is locked.' *)
| Rerunning (v : number)             (* `Rerunning version ${version}` *)
| MigratingFromTo (a b : Z)          (* `Migrating from version ${..} -> ${..}` *)
| Finished                           (* 'Finished migrating.' *)
| MigrationFailed (text : message)   (* `Migration failed: ${..}` *)
| Running (d : direction) (v : Z) (name : option string).
                                     (* `Running ${direction}() on version ${version}${name}` *)

(** Ghost trace of a run. *)
Inductive Event : Type :=
| EvLock                             (* [lock()] was called *)
| EvUnlock                           (* [unlock()] was called *)
| EvUpdateVersion (v : Z)            (* [updateVersion(v)] was called *)
| EvInvoke (d : direction) (v : Z).  (* [migration[d](migration)] was called, version v *)

Section Model.

(** The state user migrations act upon. *)
Variable U : Type.

(** A migration action: runs on the user state, returns or throws. *)
Definition action : Type := U -> outcome unit * U.

(** [Migration].  [up] is optional here because [add] and [runMigration]
    test [typeof migration.up] at run time. *)
Record Migration : Type := {
  version : Z;
  name : option string;
  up : option action;
  down : option action
}.

(** A migration object as JavaScript passes it to [add]: the [version] is
    whatever the caller put there. *)
Record MigrationInput : Type := {
  given_version : js_value;
  given_name : option string;
  given_up : option action;
  given_down : option action
}.

(** A migration object in [this.migrations]: [add] has checked that its
    [version] is of type number. *)
Record JsMigration : Type := {
  js_version : number;
  js_name : option string;
  js_up : option action;
  js_down : option action
}.

(** [migration[direction]] *)
Definition get_action (m : Migration) (d : direction) : option action :=
  match d with
  | Up => up m
  | Down => down m
  end.

(** The class state: [migrations], [options], [dbConnection]. *)
Record Migrations : Type := {
  migrations : list Migration;
  options : RequiredOptions;
  dbConnection : option DatabaseConnection
}.

(** Everything outside the instance. *)
Record World : Type := {
  collection : option ControlDocument; (* the 'control' document, if stored *)
  faults : list (option exn);          (* per driver request: Some e = it throws e *)
  now : Z;                             (* [new Date()] *)
  events : list Event;
  logs : list (level * logline);
  user : U
}.

Definition with_collection (c : option ControlDocument) (w : World) : World :=
  {| collection := c; faults := faults w; now := now w;
     events := events w; logs := logs w; user := user w |}.

Definition with_faults (f : list (option exn)) (w : World) : World :=
  {| collection := collection w; faults := f; now := now w;
     events := events w; logs := logs w; user := user w |}.

Definition with_events (e : list Event) (w : World) : World :=
  {| collection := collection w; faults := faults w; now := now w;
     events := e; logs := logs w; user := user w |}.

Definition with_logs (l : list (level * logline)) (w : World) : World :=
  {| collection := collection w; faults := faults w; now := now w;
     events := events w; logs := l; user := user w |}.

Definition with_user (u : U) (w : World) : World :=
  {| collection := collection w; faults := faults w; now := now w;
     events := events w; logs := logs w; user := u |}.

(* ------------------------------------------------------------------ *)
(** ** The monad of [async] methods *)

Definition M (A : Type) : Type := World -> outcome A * World.

Definition ret {A} (a : A) : M A := fun w => (Ok a, w).

Definition throw {A} (e : exn) : M A := fun w => (Throw e, w).

Definition bind {A B} (m : M A) (k : A -> M B) : M B :=
  fun w =>
    match m w with
    | (Ok a, w') => k a w'
    | (Throw e, w') => (Throw e, w')
    | (Exit c, w') => (Exit c, w')
    end.

(** A synchronous result used where an [async] method expects one. *)
Definition lift {A} (o : outcome A) : M A := fun w => (o, w).

Definition emit (e : Event) : M unit :=
  fun w => (Ok tt, with_events (events w ++ [e]) w).

End Model.

Arguments ret {U A} a.
Arguments throw {U A} e.
Arguments lift {U A} o.
Arguments emit {U} e.

Declare Scope engine_scope.
Delimit Scope engine_scope with engine.
Notation "x <- m ;; k" := (bind m (fun x => k))
  (at level 61, m at next level, right associativity) : engine_scope.
Notation "m ;;; k" := (bind m (fun _ => k))
  (at level 61, right associativity) : engine_scope.

(* ------------------------------------------------------------------ *)
(** ** Strings: [split], [trim], [parseInt] *)

Local Open Scope char_scope.

(** White space and line terminators of [trim] and [parseInt], among the
    code units below 256: U+0009 to U+000D, U+0020, U+00A0. *)
Definition is_space (c : ascii) : bool :=
  let n := nat_of_ascii c in
  (Nat.leb 9 n && Nat.leb n 13) || Nat.eqb n 32 || Nat.eqb n 160.

Definition is_digit (c : ascii) : bool :=
  let n := nat_of_ascii c in
  Nat.leb 48 n && Nat.leb n 57.

Definition digit_value (c : ascii) : Z := Z.of_nat (nat_of_ascii c) - 48.

Fixpoint trim_start (s : string) : string :=
  match s with
  | String c r => if is_space c then trim_start r else s
  | EmptyString => s
  end.

Fixpoint rev_string (s acc : string) : string :=
  match s with
  | String c r => rev_string r (String c acc)
  | EmptyString => acc
  end.

(** [s.trim()] *)
Definition trim (s : string) : string :=
  rev_string (trim_start (rev_string (trim_start s) EmptyString)) EmptyString.

(** [s.split(',')]: never empty. *)
Fixpoint split_comma (s : string) : list string :=
  match s with
  | EmptyString => [EmptyString]
  | String c r =>
      if Ascii.eqb c "," then EmptyString :: split_comma r
      else match split_comma r with
           | p :: ps => String c p :: ps
           | [] => [String c EmptyString]
           end
  end.

(** The longest prefix of decimal digits, as a number; [None] if empty. *)
Fixpoint leading_digits (s : string) (acc : option Z) : option Z :=
  match s with
  | String c r =>
      if is_digit c
      then leading_digits r
             (Some (10 * match acc with Some a => a | None => 0 end + digit_value c))
      else acc
  | EmptyString => acc
  end.

(** [parseInt(s, 10)]: the double nearest to the integer written. *)
Definition parseInt (s : string) : number :=
  let body (sign : Z) (r : string) :=
    match leading_digits r None with
    | Some n => to_double (sign * n)
    | None => NaN
    end in
  match trim_start s with
  | String "-" r => body (-1) r
  | String "+" r => body 1 r
  | r => body 1 r
  end.

Local Close Scope char_scope.

(* ------------------------------------------------------------------ *)
(** ** Arrays *)

Section Arrays.
Variable A : Type.

(** [arr[i]]: [undefined] out of range. *)
Definition at_index (arr : list A) (i : Z) : option A :=
  if i <? 0 then None else nth_error arr (Z.to_nat i).

(** [arr.findIndex(p)], counting from [i]. *)
Fixpoint findIndex_from (p : A -> bool) (arr : list A) (i : Z) : Z :=
  match arr with
  | [] => -1
  | x :: xs => if p x then i else findIndex_from p xs (i + 1)
  end.

Definition findIndex (p : A -> bool) (arr : list A) : Z := findIndex_from p arr 0.

End Arrays.

(* ------------------------------------------------------------------ *)
(** ** The MongoDB driver, on the control document *)

Section Engine.

Variable U : Type.

(** [Array.prototype.sort] of the host, on the registry. *)
Variable Array_sort :
  (JsMigration U -> JsMigration U -> number) -> list (JsMigration U) -> list (JsMigration U).

Local Open Scope engine_scope.

(** The filter [{ _id: 'control' }], optionally with [locked: b]. *)
Record Filter : Type := {
  where_locked : option bool
}.

(** The modifier [{ $set: { ... } }]. *)
Record SetModifier : Type := {
  set_version : option Z;
  set_locked : option bool;
  set_lockedAt : option Z
}.

Record UpdateResult : Type := {
  modifiedCount : Z
}.

Definition matches (f : Filter) (c : ControlDocument) : bool :=
  match where_locked f with
  | Some b => Bool.eqb (locked c) b
  | None => true
  end.

Definition apply_set (s : SetModifier) (c : ControlDocument) : ControlDocument :=
  {| ctl_version := match set_version s with Some v => v | None => ctl_version c end;
     locked := match set_locked s with Some b => b | None => locked c end;
     lockedAt := match set_lockedAt s with Some t => Some t | None => lockedAt c end |}.

Definition same_document (a b : ControlDocument) : bool :=
  (ctl_version a =? ctl_version b) && Bool.eqb (locked a) (locked b) &&
  match lockedAt a, lockedAt b with
  | Some x, Some y => x =? y
  | None, None => true
  | _, _ => false
  end.

(** One request to the driver: it consumes one entry of the fault schedule
    and throws what the entry says, if anything. *)
Definition request {A} (k : World U -> A * World U) : M U A :=
  fun w =>
    match faults w with
    | Some e :: fs => (Throw e, with_faults fs w)
    | None :: fs => let (a, w') := k (with_faults fs w) in (Ok a, w')
    | [] => let (a, w') := k w in (Ok a, w')
    end.

(** [collection.findOne({ _id: 'control' })] *)
Definition findOne : M U (option ControlDocument) :=
  request (fun w => (collection w, w)).

(** [collection.updateOne(filter, { $set }, { upsert })].  An upsert inserts
    the document made of the [$set] fields. *)
Definition updateOne (f : Filter) (s : SetModifier) (upsert : bool) : M U UpdateResult :=
  request (fun w =>
    match collection w with
    | Some c =>
        if matches f c
        then ({| modifiedCount := if same_document c (apply_set s c) then 0 else 1 |},
              with_collection (Some (apply_set s c)) w)
        else ({| modifiedCount := 0 |}, w)
    | None =>
        if upsert
        then ({| modifiedCount := 0 |},
              with_collection
                (Some (apply_set s {| ctl_version := 0; locked := false; lockedAt := None |})) w)
        else ({| modifiedCount := 0 |}, w)
    end).

(** [collection.deleteMany({})] *)
Definition deleteMany : M U unit :=
  request (fun w => (tt, with_collection None w)).

(* ------------------------------------------------------------------ *)
(** ** logger.ts *)

(** [Logger.log]: nothing unless [options.log]. *)
Definition Logger_log (o : RequiredOptions) (l : level) (msg : logline) : M U unit :=
  fun w => if log o then (Ok tt, with_logs (logs w ++ [(l, msg)]) w) else (Ok tt, w).

Definition Logger_info (o : RequiredOptions) := Logger_log o info.
Definition Logger_warn (o : RequiredOptions) := Logger_log o warn.
Definition Logger_error (o : RequiredOptions) := Logger_log o error_level.
Definition Logger_debug (o : RequiredOptions) := Logger_log o debug.
Definition shouldLogIfLatest (o : RequiredOptions) : bool := logIfLatest o.

(* ------------------------------------------------------------------ *)
(** ** migrations.ts *)

Local Abbreviation Migration := (Migration U).
Local Abbreviation Migrations := (Migrations U).

(** One key of [{ ...base, ...options }]: a key that is present wins,
    also with the value [undefined]. *)
Definition spread {A} (base : option A) (f : field A) : option A :=
  match f with
  | Absent => base
  | Undefined => None
  | Given a => Some a
  end.

(** [{ ...base, ...options }] *)
Definition merge_options (base : RequiredOptions) (o : MigrationOptions) : RequiredOptions :=
  {| stored_log := spread (stored_log base) (opt_log o);
     stored_logIfLatest := spread (stored_logIfLatest base) (opt_logIfLatest o);
     collectionName := spread (collectionName base) (opt_collectionName o) |}.

(** The defaults of the constructor. *)
Definition default_options : RequiredOptions :=
  {| stored_log := Some true; stored_logIfLatest := Some true;
     collectionName := Some "migrations"%string |}.

(** [new Migrations(options)] *)
Definition new_Migrations (o : MigrationOptions) : Migrations :=
  {| migrations := []; options := merge_options default_options o; dbConnection := None |}.

(** [config(options)] *)
Definition config (o : MigrationOptions) (self : Migrations) : Migrations :=
  {| migrations := migrations self;
     options := merge_options (options self) o;
     dbConnection := dbConnection self |}.

(** [setDatabase(db)] *)
Definition setDatabase (self : Migrations) : Migrations :=
  {| migrations := migrations self;
     options := options self;
     dbConnection := Some {| collection_of := collectionName (options self) |} |}.

(** [typeof f === 'function'] *)
Definition is_function (a : option (action U)) : bool :=
  match a with Some _ => true | None => false end.

(** [(a, b) => a.version - b.version] *)
Definition by_version (a b : JsMigration U) : number :=
  minus (js_version a) (js_version b).

(** The migration object once its [version] is known to be the number [n]. *)
Definition checked (migration : MigrationInput U) (n : number) : JsMigration U :=
  {| js_version := n; js_name := given_name migration;
     js_up := given_up migration; js_down := given_down migration |}.

(** [add(migration)], on [this.migrations]: the array after the call is
    returned next to the outcome.  [Object.freeze] has nothing to do on an
    immutable record. *)
Definition add (migration : MigrationInput U) (registry : list (JsMigration U))
  : outcome unit * list (JsMigration U) :=
  if negb (is_function (given_up migration)) then
    (Throw (JsError MustSupplyUp), registry)
  else
    match given_version migration with
    | JsOther => (Throw (JsError MustSupplyVersion), registry)
    | JsNumber n =>
        if less_or_equal n (Num 0) then
          (Throw (JsError VersionMustBePositive), registry)
        else
          (Ok tt, Array_sort by_version (registry ++ [checked migration n]))
    end.

(** The sort on a registry of integer versions: the comparator is
    consistent there, and the sort is stable, ascending by version
    (insertion from the right end keeps equal versions in their order). *)
Fixpoint insert_by_version (m : Migration) (l : list Migration) : list Migration :=
  match l with
  | [] => [m]
  | x :: xs => if version m <=? version x then m :: l else x :: insert_by_version m xs
  end.

Definition sort_by_version (l : list Migration) : list Migration :=
  fold_right insert_by_version [] l.

(** [add(migration)] on an instance of integer versions, for a migration
    whose version is an integer: the guard on [typeof migration.version]
    cannot fire.  The instance after the call is returned next to the
    outcome. *)
Definition add_integer (migration : Migration) (self : Migrations)
  : outcome unit * Migrations :=
  if negb (is_function (up migration)) then
    (Throw (JsError MustSupplyUp), self)
  else if version migration <=? 0 then
    (Throw (JsError VersionMustBePositive), self)
  else
    (Ok tt,
     {| migrations := sort_by_version (migrations self ++ [migration]);
        options := options self;
        dbConnection := dbConnection self |}).

(** [unlock()] *)
Definition unlock (self : Migrations) : M U unit :=
  match dbConnection self with
  | None => throw (JsError DatabaseNotSetCall)
  | Some _ =>
      emit EvUnlock ;;;
      _ <- updateOne {| where_locked := None |}
             {| set_version := None; set_locked := Some false; set_lockedAt := None |} false ;;
      ret tt
  end.

(** [lock()] *)
Definition lock (self : Migrations) : M U bool :=
  match dbConnection self with
  | None => throw (JsError DatabaseNotSet)
  | Some _ =>
      emit EvLock ;;;
      result <- (fun w =>
                   updateOne {| where_locked := Some false |}
                     {| set_version := None; set_locked := Some true;
                        set_lockedAt := Some (now w) |} false w) ;;
      ret (modifiedCount result =? 1)
  end.

(** [updateVersion(version)] *)
Definition updateVersion (self : Migrations) (v : Z) : M U unit :=
  match dbConnection self with
  | None => throw (JsError DatabaseNotSet)
  | Some _ =>
      emit (EvUpdateVersion v) ;;;
      _ <- updateOne {| where_locked := None |}
             {| set_version := Some v; set_locked := None; set_lockedAt := None |} false ;;
      ret tt
  end.

(** [_setControl(control)] *)
Definition _setControl (self : Migrations) (control : ControlDocument)
  : M U ControlDocument :=
  match dbConnection self with
  | None => throw (JsError DatabaseNotSet)
  | Some _ =>
      let controlDoc := control in
      _ <- updateOne {| where_locked := None |}
             {| set_version := Some (ctl_version controlDoc);
                set_locked := Some (locked controlDoc);
                set_lockedAt := lockedAt controlDoc |} true ;;
      ret controlDoc
  end.

(** [_getControl()] *)
Definition _getControl (self : Migrations) : M U ControlDocument :=
  match dbConnection self with
  | None => throw (JsError DatabaseNotSet)
  | Some _ =>
      control <- findOne ;;
      match control with
      | Some c => ret c
      | None => _setControl self {| ctl_version := 0; locked := false; lockedAt := None |}
      end
  end.

(** [getVersion()] *)
Definition getVersion (self : Migrations) : M U Z :=
  match dbConnection self with
  | None => throw (JsError DatabaseNotSetCall)
  | Some _ =>
      control <- _getControl self ;;
      ret (ctl_version control)
  end.

(** [reset()] *)
Definition reset (self : Migrations) : M U unit :=
  match dbConnection self with
  | None => throw (JsError DatabaseNotSetCall)
  | Some _ =>
      getVersion self ;;;
      deleteMany
  end.

(** [findIndexByVersion(version)] *)
Definition findIndexByVersion (self : Migrations) (v : number) : outcome Z :=
  if strict_eq v (Num 0) then Ok (-1)
  else
    let index := findIndex (fun m => strict_eq (Num (version m)) v) (migrations self) in
    if index =? -1 then Throw (JsError (CantFindVersion v))
    else Ok index.

(** [await migration[direction](migration)] *)
Definition invoke (f : action U) : M U unit :=
  fun w => let (o, u) := f (user w) in (o, with_user u w).

(** [migration.name ? ` (${migration.name})` : ''] *)
Definition shown_name (m : Migration) : option string :=
  match name m with
  | Some EmptyString => None
  | n => n
  end.

(** [runMigration(direction, idx)] *)
Definition runMigration (self : Migrations) (d : direction) (idx : Z) : M U unit :=
  match at_index (migrations self) idx with
  | None => throw (JsError (IndexNotFound idx))
  | Some migration =>
      match get_action migration d with
      | None => throw (JsError (CannotMigrate d (version migration)))
      | Some f =>
          Logger_info (options self) (Running d (version migration) (shown_name migration)) ;;;
          emit (EvInvoke d (version migration)) ;;;
          invoke f
      end
  end.

(** [parseCommand(command)]; on [undefined], [command.split] is a
    [TypeError]. *)
Definition parseCommand (c : command) : outcome MigrationCommand :=
  match c with
  | CmdNumber n => Ok {| cmd_version := inl n; subcommand := None |}
  | CmdString s =>
      let parts := split_comma s in
      let v := match nth_error parts 0 with Some p => trim p | None => EmptyString end in
      let sub := match nth_error parts 1 with Some p => Some (trim p) | None => None end in
      Ok {| cmd_version := if String.eqb v "latest" then inr tt else inl (parseInt v);
            subcommand := sub |}
  | CmdUndefined => Throw (JsError (Text "command.split is not a function"))
  end.

(** A [for] loop of the apply phase.  Both loops move [i] by one towards a
    bound that is fixed before the loop, so the number [n] of iterations is
    known on entry: [body] runs on the indices [i], [next i], ..., each
    completed iteration is counted in [migrationsRun], and a throwing
    iteration ends the loop with the count so far. *)
Fixpoint for_loop (n : nat) (i : Z) (next : Z -> Z) (body : Z -> M U unit)
    (migrationsRun : Z) (w : World U) : Z * (outcome unit * World U) :=
  match n with
  | O => (migrationsRun, (Ok tt, w))
  | S n' =>
      match body i w with
      | (Ok _, w') => for_loop n' (next i) next body (migrationsRun + 1) w'
      | (Throw e, w') => (migrationsRun, (Throw e, w'))
      | (Exit c, w') => (migrationsRun, (Exit c, w'))
      end
  end.

(** Body of [for (let i = startIdx + 1; i <= endIdx; i++)], before
    [migrationsRun++]. *)
Definition up_body (self : Migrations) (i : Z) : M U unit :=
  runMigration self Up i ;;;
  match at_index (migrations self) i with
  | Some migration => updateVersion self (version migration)
  | None => ret tt
  end.

(** Body of [for (let i = startIdx; i > targetIdx; i--)], before
    [migrationsRun++]. *)
Definition down_body (self : Migrations) (i : Z) : M U unit :=
  runMigration self Down i ;;;
  updateVersion self
    match at_index (migrations self) (i - 1) with
    | Some prevMigration => version prevMigration
    | None => 0
    end.

Definition version_at (self : Migrations) (i : Z) : Z :=
  match at_index (migrations self) i with
  | Some m => version m
  | None => 0
  end.

(** The [try] block of [_migrateTo] up to its [await this.unlock()]: the
    value of [migrationsRun] when it ends, and how it ends.  The loop
    [for (i = startIdx + 1; i <= endIdx; i++)] makes [endIdx - startIdx]
    iterations, the loop [for (i = startIdx; i > targetIdx; i--)] makes
    [startIdx - targetIdx], none when the difference is negative.  The
    local [currentVersion] is only read by the [updateVersion] call that
    follows its assignment. *)
Definition apply_phase (self : Migrations) (currentVersion : Z) (v : number)
    (rerun : bool) (w : World U) : Z * (outcome unit * World U) :=
  if rerun then
    match (Logger_info (options self) (Rerunning v) ;;;
           idx <- lift (findIndexByVersion self v) ;;
           runMigration self Up idx) w with
    | (Ok _, w') => (1, (Ok tt, w'))
    | (o, w') => (0, (o, w'))
    end
  else
    match findIndexByVersion self (Num currentVersion) with
    | Throw e => (0, (Throw e, w))
    | Exit c => (0, (Exit c, w))
    | Ok startIdx =>
        match findIndexByVersion self v with
        | Throw e => (0, (Throw e, w))
        | Exit c => (0, (Exit c, w))
        | Ok endIdx =>
            match Logger_info (options self)
                    (MigratingFromTo (version_at self startIdx) (version_at self endIdx)) w with
            | (Ok _, w1) =>
                if less_than (Num currentVersion) v then
                  for_loop (Z.to_nat (endIdx - startIdx)) (startIdx + 1) Z.succ
                    (up_body self) 0 w1
                else
                  let targetIdx := if endIdx =? -1 then -1 else endIdx in
                  for_loop (Z.to_nat (startIdx - targetIdx)) startIdx Z.pred
                    (down_body self) 0 w1
            | (o, w1) => (0, (o, w1))
            end
        end
    end.

(** The [catch] block of [_migrateTo]; [run] is [migrationsRun] when the
    error was thrown. *)
Definition catch_block (self : Migrations) (control : ControlDocument) (v : number)
    (run : Z) (e : exn) : M U MigrationResult :=
  unlock self ;;;
  text <- lift (error_text e) ;;
  Logger_error (options self) (MigrationFailed text) ;;;
  reported <- lift (as_Error e) ;;
  ret {| success := false; fromVersion := ctl_version control; toVersion := v;
         migrationsRun := run; error := Some reported |}.

(** The end of the [try] block, after the apply phase. *)
Definition try_end (self : Migrations) (control : ControlDocument) (v : number)
    (run : Z) : M U MigrationResult :=
  unlock self ;;;
  Logger_info (options self) Finished ;;;
  ret {| success := true; fromVersion := ctl_version control; toVersion := v;
         migrationsRun := run; error := None |}.

(** [try { ... } catch (error) { ... }] of [_migrateTo]. *)
Definition try_catch (self : Migrations) (control : ControlDocument) (v : number)
    (rerun : bool) : M U MigrationResult :=
  fun w =>
    match apply_phase self (ctl_version control) v rerun w with
    | (run, (Ok _, w')) =>
        match try_end self control v run w' with
        | (Throw e, w'') => catch_block self control v run e w''
        | r => r
        end
    | (run, (Throw e, w')) => catch_block self control v run e w'
    | (_, (Exit c, w')) => (Exit c, w')
    end.

(** [_migrateTo(version, rerun)] *)
Definition _migrateTo (self : Migrations) (v : number) (rerun : bool)
  : M U MigrationResult :=
  match dbConnection self with
  | None => throw (JsError DatabaseNotSet)
  | Some _ =>
      control <- _getControl self ;;
      let currentVersion := ctl_version control in
      if negb rerun && strict_eq (Num currentVersion) v then
        (if shouldLogIfLatest (options self)
         then Logger_info (options self) (AlreadyAtVersion v)
         else ret tt) ;;;
        ret {| success := true; fromVersion := currentVersion; toVersion := v;
               migrationsRun := 0; error := None |}
      else
        acquired <- lock self ;;
        if negb acquired then
          Logger_info (options self) ControlLocked ;;;
          ret {| success := false; fromVersion := currentVersion; toVersion := v;
                 migrationsRun := 0; error := Some (JsError ControlIsLocked) |}
        else
          try_catch self control v rerun
  end.

(** [this.migrations[this.migrations.length - 1]?.version ?? 0] *)
Definition latest_version (self : Migrations) : Z :=
  match at_index (migrations self) (Z.of_nat (List.length (migrations self)) - 1) with
  | Some m => version m
  | None => 0
  end.

Definition is_empty_command (c : command) : bool :=
  match c with
  | CmdUndefined => true
  | CmdString EmptyString => true
  | _ => false
  end.

Definition subcommand_is (p : MigrationCommand) (s : string) : bool :=
  match subcommand p with
  | Some x => String.eqb x s
  | None => false
  end.

(** [migrateTo(command)] *)
Definition migrateTo (self : Migrations) (c : command) : M U MigrationResult :=
  match dbConnection self with
  | None => throw (JsError DatabaseNotSetCall)
  | Some _ =>
      if is_empty_command c || (Z.of_nat (List.length (migrations self)) =? 0) then
        throw (JsError (InvalidCommand c))
      else
        parsedCommand <- lift (parseCommand c) ;;
        let targetVersion :=
          match cmd_version parsedCommand with
          | inr _ => Num (latest_version self)
          | inl n => n
          end in
        result <- _migrateTo self targetVersion (subcommand_is parsedCommand "rerun") ;;
        if subcommand_is parsedCommand "exit" then (fun w => (Exit 0, w))
        else ret result
  end.

End Engine.

(* ------------------------------------------------------------------ *)
(** ** Vocabulary of the statements *)

Section Vocabulary.

Variable U : Type.

Local Abbreviation Migration := (Migration U).

(** The control record as [_getControl] will see it: the stored one, or the
    one it creates. *)
Definition stored_control (w : World U) : ControlDocument :=
  match collection w with
  | Some c => c
  | None => {| ctl_version := 0; locked := false; lockedAt := None |}
  end.

(** The requests of [_getControl]: it creates the control record when there
    is none. *)
Definition getControl_requests (w : World U) : nat :=
  match collection w with Some _ => 1%nat | None => 2%nat end.

(** The driver answers the next [n] requests; what is left of the schedule. *)
Fixpoint after_calm (n : nat) (fs : list (option exn)) : option (list (option exn)) :=
  match n with
  | O => Some fs
  | S k =>
      match fs with
      | [] => after_calm k []
      | None :: r => after_calm k r
      | Some _ :: _ => None
      end
  end.

(** The actions of [ms] in direction [d] all exist and all return, run one
    after the other from [u]; the user state they leave. *)
Fixpoint run_actions (d : direction) (ms : list Migration) (u : U) : option U :=
  match ms with
  | [] => Some u
  | m :: rest =>
      match get_action m d with
      | Some f =>
          match f u with
          | (Ok _, u') => run_actions d rest u'
          | _ => None
          end
      | None => None
      end
  end.

(** Each migration of the registry with the version of the one before it,
    [prev] for the first. *)
Fixpoint with_preceding (prev : Z) (ms : list Migration) : list (Migration * Z) :=
  match ms with
  | [] => []
  | m :: rest => (m, prev) :: with_preceding (version m) rest
  end.

(** The [n] elements of [l] from index [lo] on. *)
Definition slice {A} (l : list A) (lo : Z) (n : nat) : list A :=
  firstn n (skipn (Z.to_nat lo) l).

(** A step: the migration whose action is invoked, the version persisted
    after it. *)
Definition step : Type := (Migration * Z)%type.

(** The steps of a forward run between the indices [startIdx] (excluded)
    and [endIdx] (included), in the order of the run. *)
Definition forward_steps (ms : list Migration) (startIdx endIdx : Z) : list step :=
  map (fun m => (m, version m)) (slice ms (startIdx + 1) (Z.to_nat (endIdx - startIdx))).

(** The steps of a backward run from the index [startIdx] (included) down
    to [endIdx] (excluded), in the order of the run. *)
Definition backward_steps (ms : list Migration) (startIdx endIdx : Z) : list step :=
  rev (slice (with_preceding 0 ms) (endIdx + 1) (Z.to_nat (startIdx - endIdx))).

(** The direction and the steps of a run that is not a rerun, from the
    version [cur], found at index [startIdx], to the version [t], found at
    index [endIdx]. *)
Definition planned_steps (ms : list Migration) (cur t startIdx endIdx : Z)
  : direction * list step :=
  if cur <? t then (Up, forward_steps ms startIdx endIdx)
  else (Down, backward_steps ms startIdx endIdx).


(** The trace of a completed step, and of a list of steps. *)
Definition step_events (d : direction) (s : step) : list Event :=
  [EvInvoke d (version (fst s)); EvUpdateVersion (snd s)].

Definition steps_events (d : direction) (l : list step) : list Event :=
  flat_map (step_events d) l.

(** The versions whose [d] action a trace invokes, in order. *)
Fixpoint invoked (d : direction) (evs : list Event) : list Z :=
  match evs with
  | [] => []
  | EvInvoke Up v :: r => match d with Up => v :: invoked d r | Down => invoked d r end
  | EvInvoke Down v :: r => match d with Down => v :: invoked d r | Up => invoked d r end
  | _ :: r => invoked d r
  end.

(** One iteration of either loop, on the migration and the version it
    found at its index. *)
Definition perform (self : Migrations U) (d : direction) (s : step) : M U unit :=
  (match get_action (fst s) d with
   | None => throw (JsError (CannotMigrate d (version (fst s))))
   | Some f =>
       Logger_info (options self) (Running d (version (fst s)) (shown_name (fst s))) ;;;
       emit (EvInvoke d (version (fst s))) ;;;
       invoke f
   end ;;;
   updateVersion self (snd s))%engine.

(** The iterations over a list of steps, counted as the loops count. *)
Fixpoint perform_all (self : Migrations U) (d : direction) (l : list step)
    (migrationsRun : Z) (w : World U) : Z * (outcome unit * World U) :=
  match l with
  | [] => (migrationsRun, (Ok tt, w))
  | s :: rest =>
      match perform self d s w with
      | (Ok _, w') => perform_all self d rest (migrationsRun + 1) w'
      | (Throw e, w') => (migrationsRun, (Throw e, w'))
      | (Exit c, w') => (migrationsRun, (Exit c, w'))
      end
  end.

(** The control record after [updateVersion(v)], after a successful
    [lock()], after [unlock()]. *)
Definition versioned (v : Z) (c : ControlDocument) : ControlDocument :=
  {| ctl_version := v; locked := locked c; lockedAt := lockedAt c |}.

Definition locked_at (t : Z) (c : ControlDocument) : ControlDocument :=
  {| ctl_version := ctl_version c; locked := true; lockedAt := Some t |}.

Definition unlocked (c : ControlDocument) : ControlDocument :=
  {| ctl_version := ctl_version c; locked := false; lockedAt := lockedAt c |}.

(** What a call changed: the schedule left, the control record, the events
    added, the user state; the clock is untouched. *)
Definition frame (w w' : World U) (fs : list (option exn))
    (col : option ControlDocument) (evs : list Event) (u : U) : Prop :=
  faults w' = fs /\ collection w' = col /\ events w' = events w ++ evs /\
  user w' = u /\ now w' = now w.

(** [add] accepts the migration: it has an [up] and a positive version. *)
Definition accepted (m : Migration) : bool :=
  is_function (up m) && (0 <? version m).

(** [add(m1); add(m2); ...] on an instance, whatever each call answers. *)
Definition add_each (l : list Migration) (self : Migrations U) : Migrations U :=
  fold_left (fun s m => snd (add_integer m s)) l self.

(** A migration of integer version as JavaScript passes it to [add], and
    as [this.migrations] holds it. *)
Definition as_input (m : Migration) : MigrationInput U :=
  {| given_version := JsNumber (Num (version m)); given_name := name m;
     given_up := up m; given_down := down m |}.

Definition as_stored (m : Migration) : JsMigration U :=
  {| js_version := Num (version m); js_name := name m;
     js_up := up m; js_down := down m |}.

(** The migration object [m] read with the integer version [z]. *)
Definition as_integer (m : MigrationInput U) (z : Z) : Migration :=
  {| version := z; name := given_name m; up := given_up m; down := given_down m |}.

(** A sort as the standard wants it on a consistent comparator, stable and
    ascending: insertion from the right end.  An answer [NaN] of the
    comparator counts as [+0]. *)
Definition not_after (n : number) : bool :=
  match n with
  | Num z => z <=? 0
  | NaN => true
  | Infinity negative => negative
  end.

Fixpoint insert_with {A} (cmp : A -> A -> number) (m : A) (l : list A) : list A :=
  match l with
  | [] => [m]
  | x :: xs => if not_after (cmp m x) then m :: l else x :: insert_with cmp m xs
  end.

Definition insertion_sort {A} (cmp : A -> A -> number) (l : list A) : list A :=
  fold_right (insert_with cmp) [] l.

(** [add(m1); add(m2); ...] on [this.migrations], whatever each call
    answers, with the sort [sort] of the host. *)
Definition add_inputs
    (sort : (JsMigration U -> JsMigration U -> number) ->
            list (JsMigration U) -> list (JsMigration U))
    (l : list (MigrationInput U)) (registry : list (JsMigration U))
  : list (JsMigration U) :=
  fold_left (fun r m => snd (add sort m r)) l registry.

(** What a call of [add] appends to the registry: the migration, when it
    passes the three checks. *)
Definition kept (m : MigrationInput U) : list (JsMigration U) :=
  if is_function (given_up m) then
    match given_version m with
    | JsNumber n => if less_or_equal n (Num 0) then [] else [checked m n]
    | JsOther => []
    end
  else [].

(** [x] is thrown by an action of a registered migration. *)
Definition thrown_by_an_action (self : Migrations U) (x : exn) : Prop :=
  exists m d f u u',
    In m (migrations self) /\ get_action m d = Some f /\ f u = (Throw x, u').

(** Where a value caught by the [catch] block of [_migrateTo] can come
    from: it is an error of the driver, one of the schedule [fs]; or an
    [Error], as the engine makes them; or it is thrown by an action. *)
Definition raised_in_try (self : Migrations U) (fs : list (option exn)) (x : exn) : Prop :=
  In (Some x) fs \/ (exists msg, x = JsError msg) \/ thrown_by_an_action self x.

(** How a call of [_migrateTo] that rejects with [e] has gone, by the
    trace [evs] it added: a request failed before the [try] block, and the
    record is as it was found; or the release of the [catch] block failed,
    and the lock stays held; or the [catch] block released the lock and
    could not render the value it had caught. *)
Definition rejection (self : Migrations U) (w w' : World U) (evs : list Event) (e : exn)
  : Prop :=
  ((evs = [] \/ evs = [EvLock]) /\ In (Some e) (faults w) /\
   stored_control w' = stored_control w) \/
  (last evs EvLock = EvUnlock /\ In (Some e) (faults w) /\
   exists c', collection w' = Some c' /\ locked c' = true) \/
  (last evs EvLock = EvUnlock /\
   raised_in_try self (faults w) (JsUnprintable e) /\
   exists c', collection w' = Some c' /\ locked c' = false).

(** What is left of a fault schedule is an end of it. *)
Definition later (fs fs' : list (option exn)) : Prop :=
  exists used, fs = used ++ fs'.

(** The versions the engine can leave in the control record when it found
    [a] there: [a] itself, 0, or the version of a registered migration. *)
Definition in_ledger (self : Migrations U) (a b : Z) : Prop :=
  b = a \/ b = 0 \/ In b (map (@version U) (migrations self)).

(** What a request to the driver leaves alone: the clock, the log, the
    user state; and a driver without faults stays so. *)
Definition steady (w w' : World U) : Prop :=
  now w' = now w /\ logs w' = logs w /\ user w' = user w /\
  later (faults w) (faults w').

(** What the engine leaves alone outside its iterations: the clock, the
    user state, a driver without faults, a silenced log. *)
Definition quiet (self : Migrations U) (w w' : World U) : Prop :=
  now w' = now w /\ user w' = user w /\
  later (faults w) (faults w') /\
  (log (options self) = false -> logs w' = logs w).

(** The events of an iteration: an action is invoked, a version written. *)
Definition is_step_event (e : Event) : bool :=
  match e with
  | EvInvoke _ _ => true
  | EvUpdateVersion _ => true
  | _ => false
  end.

(** What the apply phase may do to the world: the clock stands still, a
    driver without faults stays so, a silenced logger stays silent, the
    trace grows by events of iterations only, and a stored control record
    stays stored, its lock fields untouched and its version within the
    ledger. *)
Definition apply_rel (self : Migrations U) (w w' : World U) : Prop :=
  now w' = now w /\
  later (faults w) (faults w') /\
  (log (options self) = false -> logs w' = logs w) /\
  (exists evs, events w' = events w ++ evs /\ forallb is_step_event evs = true) /\
  (forall c, collection w = Some c ->
             exists c', collection w' = Some c' /\
                        locked c' = locked c /\ lockedAt c' = lockedAt c /\
                        in_ledger self (ctl_version c) (ctl_version c')).

(** The end of the trace of a run: iterations, then at most two calls of
    [unlock()] (the second one from the [catch] block). *)
Fixpoint under_lock (evs : list Event) : bool :=
  match evs with
  | [] => true
  | e :: r =>
      (is_step_event e && under_lock r) ||
      match e, r with
      | EvUnlock, [] => true
      | EvUnlock, [EvUnlock] => true
      | _, _ => false
      end
  end.

(** The trace of a run: empty, or [lock()] first and only once, and every
    action and version write after it and before any [unlock()]. *)
Definition guarded_trace (evs : list Event) : bool :=
  match evs with
  | [] => true
  | EvLock :: r => under_lock r
  | _ => false
  end.

(** The number of calls of [updateVersion] in a trace. *)
Definition version_writes (evs : list Event) : nat :=
  List.length (filter (fun e => match e with EvUpdateVersion _ => true | _ => false end) evs).

(** The value of a list of decimal digits, most significant first. *)
Definition digits_value (ds : list nat) : Z :=
  fold_left (fun acc d => 10 * acc + Z.of_nat d) ds 0.

(** The characters of a list of decimal digits. *)
Fixpoint digits_string (ds : list nat) : string :=
  match ds with
  | [] => EmptyString
  | d :: r => String (ascii_of_nat (48 + d)) (digits_string r)
  end.

(** No comma, no white space: what [split(',')] and [trim()] leave whole. *)
Fixpoint plain (s : string) : bool :=
  match s with
  | EmptyString => true
  | String c r => negb (Ascii.eqb c ",") && negb (is_space c) && plain r
  end.

End Vocabulary.

(* ------------------------------------------------------------------ *)
(** ** Sample registries and worlds

    The user state is a list of strings, the [runOrder] array of the test
    suite. *)

Definition push (s : string) : action (list string) :=
  fun u => (Ok tt, u ++ [s]).

Definition fails (s : string) : action (list string) :=
  fun u => (Throw (JsError (Text s)), u).

Definition sample (v : Z) (u d : option (action (list string))) : Migration (list string) :=
  {| version := v; name := None; up := u; down := d |}.

Definition first : Migration (list string) :=
  sample 1 (Some (push "up1")) (Some (push "down1")).

Definition second : Migration (list string) :=
  sample 2 (Some (push "up2")) (Some (push "down2")).

Definition second_again : Migration (list string) :=
  sample 2 (Some (push "up2 again")) None.

Definition third : Migration (list string) :=
  sample 3 (Some (push "up3")) None.

Definition second_failing : Migration (list string) :=
  sample 2 (Some (fails "Migration failed")) (Some (push "down2")).

(** A second reversible migration of version 2. *)
Definition second_twin : Migration (list string) :=
  sample 2 (Some (push "up2 twin")) (Some (push "down2 twin")).

(** What [throw Object.create(null)] throws: a value on which [String()]
    throws a [TypeError]. *)
Definition bare_object : exn :=
  JsUnprintable (JsError (Text "Cannot convert object to primitive value")).

Definition throws_bare_object : action (list string) :=
  fun u => (Throw bare_object, u).

Definition second_unprintable : Migration (list string) :=
  sample 2 (Some throws_bare_object) (Some (push "down2")).

(** A migration whose version is [NaN], as [add] receives it, and as the
    registry holds it. *)
Definition not_a_number : MigrationInput (list string) :=
  {| given_version := JsNumber NaN; given_name := None;
     given_up := Some (push "up NaN"); given_down := None |}.

Definition not_a_number_stored : JsMigration (list string) :=
  {| js_version := NaN; js_name := None; js_up := Some (push "up NaN"); js_down := None |}.

(** A migration whose version is a string. *)
Definition version_as_text : MigrationInput (list string) :=
  {| given_version := JsOther; given_name := None;
     given_up := Some (push "up"); given_down := None |}.

(** The sort of the host in the concrete runs. *)
Definition host_sort :
  (JsMigration (list string) -> JsMigration (list string) -> number) ->
  list (JsMigration (list string)) -> list (JsMigration (list string)) :=
  @insertion_sort (JsMigration (list string)).

Definition engine (l : list (Migration (list string))) : Migrations (list string) :=
  {| migrations := l;
     options := {| stored_log := Some false; stored_logIfLatest := Some true;
                  collectionName := Some "migrations"%string |};
     dbConnection := Some {| collection_of := Some "migrations"%string |} |}.

Definition world (c : option ControlDocument) (fs : list (option exn)) : World (list string) :=
  {| collection := c; faults := fs; now := 1000; events := []; logs := []; user := [] |}.

Definition control (v : Z) (l : bool) : ControlDocument :=
  {| ctl_version := v; locked := l; lockedAt := None |}.



Definition connection : DatabaseConnection := {| collection_of := Some "migrations"%string |}.


(** [migrations.add(a); migrations.add(b); ...] on an instance, ignoring the
    outcomes. *)
Definition add_all (l : list (Migration (list string)))
    (self : Migrations (list string)) : Migrations (list string) :=
  fold_left (fun s m => snd (add_integer m s)) l self.

(** [new Migrations({ log: false })] followed by [setDatabase(db)]. *)
Definition test_instance : Migrations (list string) :=
  setDatabase
    (new_Migrations (list string)
       {| opt_log := Given false; opt_logIfLatest := Absent; opt_collectionName := Absent |}).

Definition fresh : World (list string) := world None [].

(** Two calls in a row: the second runs in the world the first one left. *)
Definition next {A B} (first_call : outcome A * World (list string))
    (second_call : World (list string) -> outcome B * World (list string))
  : outcome B * World (list string) :=
  second_call (snd first_call).


(** [new Migrations({ log: true })], connected. *)
Definition verbose_engine (l : list (Migration (list string))) : Migrations (list string) :=
  {| migrations := l;
     options := {| stored_log := Some true; stored_logIfLatest := Some true;
                  collectionName := Some "migrations"%string |};
     dbConnection := Some {| collection_of := Some "migrations"%string |} |}.

(** The run of the test suite that stops at its second migration. *)
Definition stopped_run : outcome MigrationResult * World (list string) :=
  _migrateTo (engine [first; second_failing; third]) (Num 3) false (world None []).

Definition stopped_result : MigrationResult :=
  {| success := false; fromVersion := 0; toVersion := Num 3; migrationsRun := 1;
     error := Some (JsError (Text "Migration failed")) |}.

(** A rerun of version 1 while version 2 is stored. *)
Definition rerun_of_first : outcome MigrationResult * World (list string) :=
  _migrateTo (engine [first; second; third]) (Num 1) true
    (world (Some (control 2 false)) []).

(** The run over the whole registry of versions 1, 2, 3 on a fresh database. *)
Definition full_run : outcome MigrationResult * World (list string) :=
  _migrateTo (engine [first; second; third]) (Num 3) false (world None []).

(** The run whose second [up] throws an object that cannot be rendered. *)
Definition unprintable_run : outcome MigrationResult * World (list string) :=
  _migrateTo (engine [first; second_unprintable; third]) (Num 3) false (world None []).
Unset Implicit Arguments.

(* ------------------------------------------------------------------ *)
(** ** The registry *)

Section Registry.

Variable U : Type.

Local Abbreviation Migration := (Migration U).

Lemma insert_by_version_perm (m : Migration) (l : list Migration) :
  Permutation (insert_by_version m l) (m :: l).
Proof.
  induction l as [|x xs IH]; simpl.
  - apply Permutation_refl.
  - destruct (version m <=? version x).
    + apply Permutation_refl.
    + eapply perm_trans; [apply perm_skip, IH | apply perm_swap].
Qed.

Lemma sort_by_version_perm (l : list Migration) :
  Permutation (sort_by_version l) l.
Proof.
  induction l as [|x xs IH]; simpl.
  - constructor.
  - eapply perm_trans; [apply insert_by_version_perm | apply perm_skip, IH].
Qed.

Lemma insert_by_version_sorted (m : Migration) (l : list Migration) :
  StronglySorted Z.le (map (@version U) l) ->
  StronglySorted Z.le (map (@version U) (insert_by_version m l)).
Proof.
  induction l as [|x xs IH]; simpl; intros Hs.
  - repeat constructor.
  - inversion Hs as [|? ? Hxs Hx]; subst.
    destruct (version m <=? version x) eqn:E.
    + simpl. constructor; [exact Hs|].
      apply Z.leb_le in E. constructor; [exact E|].
      eapply Forall_impl; [|exact Hx]. intros; lia.
    + simpl. apply Z.leb_gt in E. constructor; [apply IH, Hxs|].
      rewrite Forall_forall in *. intros v Hv.
      apply in_map_iff in Hv. destruct Hv as [y [<- Hy]].
      apply (Permutation_in _ (insert_by_version_perm m xs)) in Hy.
      destruct Hy as [<-|Hy]; [lia|].
      apply Hx, in_map, Hy.
Qed.

Lemma sort_by_version_sorted (l : list Migration) :
  StronglySorted Z.le (map (@version U) (sort_by_version l)).
Proof.
  induction l as [|x xs IH]; simpl.
  - constructor.
  - apply insert_by_version_sorted, IH.
Qed.

(** When [add] returns, the migration passed its checks and sits in the
    re-sorted registry. *)
Lemma add_returns_inv (m : Migration) (self self' : Migrations U) :
  add_integer m self = (Ok tt, self') ->
  up m <> None /\ 0 < version m /\
  migrations self' = sort_by_version (migrations self ++ [m]) /\
  options self' = options self /\ dbConnection self' = dbConnection self.
Proof.
  unfold add_integer. destruct (up m) as [f|]; simpl; [|discriminate].
  destruct (version m <=? 0) eqn:Hv; [discriminate|].
  apply Z.leb_gt in Hv. intros H. inversion H; subst. simpl.
  repeat split; auto. discriminate.
Qed.

Lemma sort_by_version_push_perm (m : Migration) (l : list Migration) :
  Permutation (sort_by_version (l ++ [m])) (m :: l).
Proof.
  eapply perm_trans; [apply sort_by_version_perm|].
  apply Permutation_sym, Permutation_cons_append.
Qed.

(** [add_integer] rejects a migration whose [up] is not a function or whose
    version is at most 0, leaving the instance as it was; every other
    migration is stored, whether or not its version is already registered,
    and the registry is sorted ascending by version again. *)
Lemma add_integer_cases (m : Migration) (self : Migrations U) :
  ((up m = None \/ version m <= 0) /\
   add_integer m self =
     (Throw (JsError (if is_function (up m) then VersionMustBePositive else MustSupplyUp)),
      self))
  \/
  ((up m <> None /\ 0 < version m) /\
   exists self',
     add_integer m self = (Ok tt, self') /\
     Permutation (migrations self') (m :: migrations self) /\
     StronglySorted Z.le (map (@version U) (migrations self')) /\
     options self' = options self /\
     dbConnection self' = dbConnection self).
Proof.
  unfold add_integer. destruct (up m) as [f|] eqn:Hup; simpl.
  - destruct (version m <=? 0) eqn:Hv.
    + left. apply Z.leb_le in Hv. split; [right; exact Hv | reflexivity].
    + right. apply Z.leb_gt in Hv. split; [split; [discriminate | exact Hv]|].
      eexists. split; [reflexivity|]. simpl.
      split; [apply sort_by_version_push_perm|].
      split; [apply sort_by_version_sorted | split; reflexivity].
  - left. split; [left; reflexivity | reflexivity].
Qed.

(** What [add] maintains: every stored migration has an [up] and a positive
    version, and the registry is sorted. *)
Lemma add_keeps_the_registry_well_formed (m : Migration) (self self' : Migrations U) :
  add_integer m self = (Ok tt, self') ->
  Forall (fun x : Migration => 0 < version x /\ up x <> None) (migrations self) ->
  Forall (fun x : Migration => 0 < version x /\ up x <> None) (migrations self') /\
  StronglySorted Z.le (map (@version U) (migrations self')).
Proof.
  intros Hadd Hall.
  destruct (add_returns_inv m self self' Hadd) as (Hup & Hpos & Hms & _).
  rewrite Hms. split; [|apply sort_by_version_sorted].
  rewrite Forall_forall in *. intros x Hx.
  apply (Permutation_in _ (sort_by_version_push_perm m (migrations self))) in Hx.
  destruct Hx as [<-|Hx]; auto.
Qed.

(** A version that is new keeps the versions distinct. *)
Lemma add_keeps_versions_distinct (m : Migration) (self self' : Migrations U) :
  add_integer m self = (Ok tt, self') ->
  NoDup (map (@version U) (migrations self)) ->
  ~ In (version m) (map (@version U) (migrations self)) ->
  NoDup (map (@version U) (migrations self')).
Proof.
  intros Hadd Hnodup Hnew.
  destruct (add_returns_inv m self self' Hadd) as (_ & _ & Hms & _).
  rewrite Hms.
  apply (Permutation_NoDup (l := map (@version U) (m :: migrations self))).
  - apply Permutation_sym, Permutation_map, sort_by_version_push_perm.
  - simpl. constructor; assumption.
Qed.

End Registry.

Section SortedVersions.


Lemma strictly_sorted_NoDup (l : list Z) :
  StronglySorted Z.lt l -> NoDup l.
Proof.
  induction 1 as [|a l Hs IH Hall]; constructor; [|exact IH].
  rewrite Forall_forall in Hall. intros Hin. specialize (Hall a Hin). lia.
Qed.

Lemma sorted_distinct_is_strictly_sorted (l : list Z) :
  StronglySorted Z.le l -> NoDup l -> StronglySorted Z.lt l.
Proof.
  induction 1 as [|a l Hs IH Hall]; intros Hnd; constructor.
  - apply IH. inversion Hnd; assumption.
  - inversion Hnd as [|? ? Hnot Hnd']; subst.
    rewrite Forall_forall in *. intros x Hx.
    specialize (Hall x Hx). assert (x <> a) by (intros ->; contradiction). lia.
Qed.

End SortedVersions.


(* ------------------------------------------------------------------ *)
(** ** [add] on what JavaScript passes it *)

Lemma insert_with_permutes A (cmp : A -> A -> number) (m : A) (l : list A) :
  Permutation (insert_with cmp m l) (m :: l).
Proof.
  induction l as [|x xs IH]; simpl; [reflexivity|].
  destruct (not_after (cmp m x)); [reflexivity|].
  rewrite IH. apply perm_swap.
Qed.

(** The insertion sort is a sort as [add] needs it: whatever the
    comparator answers, its result is a permutation of the array. *)
Lemma insertion_sort_permutes A (cmp : A -> A -> number) (l : list A) :
  Permutation (insertion_sort cmp l) l.
Proof.
  induction l as [|x xs IH]; simpl; [reflexivity|].
  rewrite insert_with_permutes. constructor. exact IH.
Qed.

Lemma insert_with_of_integers U (m : Migration U) (l : list (Migration U)) :
  insert_with (@by_version U) (as_stored m) (map (@as_stored U) l) =
    map (@as_stored U) (insert_by_version m l).
Proof.
  induction l as [|x xs IH]; [reflexivity|].
  cbn [map insert_with insert_by_version].
  assert (Hc : not_after (by_version (as_stored m) (as_stored x)) =
               (version m <=? version x)).
  { unfold by_version. simpl.
    destruct (Z.leb_spec (version m) (version x)), (Z.leb_spec (version m - version x) 0);
      auto; lia. }
  rewrite Hc. destruct (version m <=? version x); [reflexivity|].
  cbn [map]. rewrite IH. reflexivity.
Qed.

(** On integer versions it is the stable ascending sort. *)
Lemma insertion_sort_of_integers U (l : list (Migration U)) :
  insertion_sort (@by_version U) (map (@as_stored U) l) =
    map (@as_stored U) (sort_by_version l).
Proof.
  induction l as [|m l IH]; [reflexivity|].
  change (insert_with (@by_version U) (as_stored m)
            (insertion_sort (@by_version U) (map (@as_stored U) l)) =
          map (@as_stored U) (insert_by_version m (sort_by_version l))).
  rewrite IH. apply insert_with_of_integers.
Qed.

Section Add.

Variable U : Type.

(** The sort of the host, and what the standard says of it: the result is
    a permutation of the array; on a registry of integer versions, where
    the comparator is consistent, it is the stable ascending sort. *)
Variable Array_sort :
  (JsMigration U -> JsMigration U -> number) -> list (JsMigration U) -> list (JsMigration U).
Hypothesis sort_permutes : forall cmp l, Permutation (Array_sort cmp l) l.
Hypothesis sort_of_integers :
  forall l : list (Migration U),
    Array_sort (@by_version U) (map (@as_stored U) l) =
      map (@as_stored U) (sort_by_version l).

(** The versions that pass [migration.version <= 0]: the positive
    integers, [NaN] and [Infinity]. *)
Lemma passes_the_sign_check (n : number) :
  less_or_equal n (Num 0) = false <->
  n = NaN \/ n = Infinity false \/ exists z, n = Num z /\ 0 < z.
Proof.
  destruct n as [z| |[]]; simpl.
  - rewrite Z.leb_gt. split.
    + intros H. right. right. exists z. auto.
    + intros [H|[H|(z' & H & Hz)]]; try discriminate. inversion H. lia.
  - split; auto.
  - split; [discriminate|]. intros [H|[H|(z' & H & _)]]; discriminate.
  - split; auto.
Qed.

(** On a registry of integer versions and a migration of integer version,
    [add] is [add_integer]. *)
Lemma add_of_integers (m : Migration U) (self : Migrations U) :
  add Array_sort (as_input m) (map (@as_stored U) (migrations self)) =
    (fst (add_integer m self), map (@as_stored U) (migrations (snd (add_integer m self)))).
Proof.
  unfold add, add_integer. simpl.
  destruct (negb (is_function (up m))); [reflexivity|].
  destruct (version m <=? 0); [reflexivity|]. simpl.
  change (checked (as_input m) (Num (version m))) with (as_stored m).
  change [as_stored m] with (map (@as_stored U) [m]).
  rewrite <- map_app, sort_of_integers. reflexivity.
Qed.

(** C1 (as amended).  [add] throws, and leaves the registry as it was, when
    [up] is not a function, else when the version is not of type number,
    else when the version is [<= 0].  Every other migration is stored: the
    registry becomes a permutation of itself with the migration added,
    whether or not the version is already registered, and also when the
    version is [NaN], which passes the three checks.  When the versions
    stored are all integers, the registry is sorted ascending by version
    again. *)
Theorem add_validates_up_and_sign (m : MigrationInput U) (registry : list (JsMigration U)) :
  (given_up m = None ->
   add Array_sort m registry = (Throw (JsError MustSupplyUp), registry)) /\
  (given_up m <> None -> given_version m = JsOther ->
   add Array_sort m registry = (Throw (JsError MustSupplyVersion), registry)) /\
  (given_up m <> None ->
   forall n, given_version m = JsNumber n -> less_or_equal n (Num 0) = true ->
   add Array_sort m registry = (Throw (JsError VersionMustBePositive), registry)) /\
  (given_up m <> None ->
   forall n, given_version m = JsNumber n -> less_or_equal n (Num 0) = false ->
   exists registry',
     add Array_sort m registry = (Ok tt, registry') /\
     Permutation registry' (registry ++ [checked m n]) /\
     (forall ms z,
         registry = map (@as_stored U) ms -> n = Num z ->
         exists ms',
           registry' = map (@as_stored U) ms' /\
           Permutation ms' (ms ++ [as_integer m z]) /\
           StronglySorted Z.le (map (@version U) ms'))) /\
  less_or_equal NaN (Num 0) = false.
Proof.
  unfold add.
  split; [intros Hup; rewrite Hup; reflexivity|].
  split; [intros Hup Hv; destruct (given_up m); [|congruence]; rewrite Hv; reflexivity|].
  split; [intros Hup n Hv Hn; destruct (given_up m); [|congruence];
          rewrite Hv; simpl; rewrite Hn; reflexivity|].
  split; [|reflexivity].
  intros Hup n Hv Hn. destruct (given_up m) eqn:Hg; [|congruence].
  rewrite Hv. simpl. rewrite Hn.
  eexists. split; [reflexivity|]. split; [apply sort_permutes|].
  intros ms z -> ->.
  exists (sort_by_version (ms ++ [as_integer m z])).
  replace (checked m (Num z)) with (as_stored (as_integer m z))
    by (unfold as_stored, as_integer, checked; simpl; rewrite Hg; reflexivity).
  change [as_stored (as_integer m z)] with (map (@as_stored U) [as_integer m z]).
  rewrite <- map_app, sort_of_integers.
  split; [reflexivity|]. split; [apply sort_by_version_perm | apply sort_by_version_sorted].
Qed.

End Add.
(* ------------------------------------------------------------------ *)
(** ** Arrays and indices *)

Section ArrayFacts.

Variable A : Type.

Lemma at_index_Some (l : list A) (i : Z) (x : A) :
  at_index l i = Some x <-> 0 <= i /\ nth_error l (Z.to_nat i) = Some x.
Proof.
  unfold at_index. destruct (i <? 0) eqn:E.
  - apply Z.ltb_lt in E. split; [discriminate | intros [H _]; lia].
  - apply Z.ltb_ge in E. tauto.
Qed.

(** [findIndex]: the first index whose element satisfies [p], or [-1]. *)
Lemma findIndex_from_spec (p : A -> bool) (l : list A) :
  forall i, 0 <= i ->
    (findIndex_from p l i = -1 /\ forall x, In x l -> p x = false)
    \/
    (exists (k : nat) (x : A),
        findIndex_from p l i = i + Z.of_nat k /\
        nth_error l k = Some x /\ p x = true /\
        forall j y, (j < k)%nat -> nth_error l j = Some y -> p y = false).
Proof.
  induction l as [|a l IH]; intros i Hi; simpl.
  - left. split; [reflexivity | intros x []].
  - destruct (p a) eqn:Hp.
    + right. exists O, a. split; [simpl; lia|]. split; [reflexivity|].
      split; [exact Hp|]. intros j y Hj. lia.
    + destruct (IH (i + 1)) as [[Hr Hall]|(k & x & Hr & Hn & Hx & Hbefore)]; [lia| |].
      * left. split; [exact Hr|]. intros x [<-|Hx]; auto.
      * right. exists (S k), x. split; [rewrite Hr; lia|].
        split; [exact Hn|]. split; [exact Hx|].
        intros [|j] y Hj Hy; simpl in Hy.
        -- inversion Hy; subst; exact Hp.
        -- apply (Hbefore j y); [lia | exact Hy].
Qed.

Lemma nth_error_slice (l : list A) (lo : Z) (n k : nat) :
  nth_error (slice l lo n) k =
    if Nat.ltb k n then nth_error l (Z.to_nat lo + k) else None.
Proof.
  unfold slice. rewrite nth_error_firstn.
  destruct (Nat.ltb k n); [apply nth_error_skipn | reflexivity].
Qed.

Lemma length_slice (l : list A) (lo : Z) (n : nat) :
  (Z.to_nat lo + n <= List.length l)%nat -> List.length (slice l lo n) = n.
Proof.
  intros H. unfold slice. rewrite length_firstn, length_skipn. lia.
Qed.

Lemma iter_succ (k : nat) (i : Z) : Nat.iter k Z.succ i = i + Z.of_nat k.
Proof.
  induction k as [|k IH]; [simpl; lia|].
  rewrite Nat.iter_succ, IH. lia.
Qed.

Lemma iter_pred (k : nat) (i : Z) : Nat.iter k Z.pred i = i - Z.of_nat k.
Proof.
  induction k as [|k IH]; [simpl; lia|].
  rewrite Nat.iter_succ, IH. lia.
Qed.

End ArrayFacts.

Section SortedFacts.

Variable A : Type.
Variable R : A -> A -> Prop.

(** Strong sortedness, by indices. *)
Lemma StronglySorted_nth (l : list A) :
  StronglySorted R l <->
  forall i j x y, (i < j)%nat -> nth_error l i = Some x -> nth_error l j = Some y -> R x y.
Proof.
  split.
  - induction 1 as [|a l Hs IH Hall]; intros i j x y Hij Hi Hj.
    + destruct i; discriminate.
    + destruct j as [|j]; [lia|]. simpl in Hj. destruct i as [|i]; simpl in Hi.
      * inversion Hi; subst. rewrite Forall_forall in Hall.
        apply Hall. eapply nth_error_In, Hj.
      * apply (IH i j); auto. lia.
  - induction l as [|a l IH]; intros H; constructor.
    + apply IH. intros i j x y Hij Hi Hj. apply (H (S i) (S j)); auto. lia.
    + apply Forall_forall. intros y Hy.
      apply In_nth_error in Hy. destruct Hy as [j Hj].
      apply (H O (S j)); auto. lia.
Qed.

Lemma StronglySorted_filter (p : A -> bool) (l : list A) :
  StronglySorted R l -> StronglySorted R (filter p l).
Proof.
  induction 1 as [|a l Hs IH Hall]; simpl; [constructor|].
  destruct (p a); [|exact IH].
  constructor; [exact IH|].
  rewrite Forall_forall in *. intros y Hy. apply filter_In in Hy. apply Hall, Hy.
Qed.

Lemma filter_all (p : A -> bool) (l : list A) :
  (forall x, In x l -> p x = true) -> filter p l = l.
Proof.
  induction l as [|a l IH]; intros H; simpl; [reflexivity|].
  rewrite (H a (or_introl eq_refl)). f_equal. apply IH. intros x Hx. apply H. right. exact Hx.
Qed.

Lemma filter_none (p : A -> bool) (l : list A) :
  (forall x, In x l -> p x = false) -> filter p l = [].
Proof.
  induction l as [|a l IH]; intros H; simpl; [reflexivity|].
  rewrite (H a (or_introl eq_refl)). apply IH. intros x Hx. apply H. right. exact Hx.
Qed.



Lemma last_nth_error (l : list A) :
  forall d n x, List.length l = S n -> nth_error l n = Some x -> last l d = x.
Proof.
  induction l as [|a l IH]; intros d n x Hlen Hn; [discriminate|].
  destruct l as [|b l'].
  - simpl in Hlen. inversion Hlen; subst. simpl in Hn. inversion Hn. reflexivity.
  - destruct n as [|n]; [discriminate|].
    change (last (a :: b :: l') d) with (last (b :: l') d).
    apply (IH d n x); [simpl in Hlen |- *; lia | exact Hn].
Qed.


End SortedFacts.

(* ------------------------------------------------------------------ *)
(** ** The methods, one request at a time *)

Section Runs.

Variable U : Type.
Variable self : Migrations U.
Variable conn : DatabaseConnection.
Hypothesis connected : dbConnection self = Some conn.

Lemma with_faults_same (w : World U) : with_faults (faults w) w = w.
Proof. destruct w; reflexivity. Qed.

Lemma after_calm_nil (n : nat) : after_calm n [] = Some [].
Proof. induction n; simpl; auto. Qed.

(** Closes the goal that a driver with no fault left answers the next
    requests. *)
Ltac driver_answers :=
  match goal with
  | H : faults _ = [] |- after_calm _ _ = Some _ => rewrite H; apply after_calm_nil
  end.

Lemma after_calm_S (n : nat) (fs rest : list (option exn)) :
  after_calm (S n) fs = Some rest ->
  exists mid, after_calm 1 fs = Some mid /\ after_calm n mid = Some rest.
Proof.
  simpl. destruct fs as [|[e|] r]; intros H.
  - exists []. split; [reflexivity | exact H].
  - discriminate.
  - exists r. split; [reflexivity | exact H].
Qed.

Lemma request_calm A (k : World U -> A * World U) (w : World U) fs :
  after_calm 1 (faults w) = Some fs ->
  request k w = (let (a, w') := k (with_faults fs w) in (Ok a, w')).
Proof.
  unfold request. destruct (faults w) as [|[e|] r] eqn:E; simpl; intros H;
    inversion H; subst.
  - rewrite <- E, with_faults_same. reflexivity.
  - reflexivity.
Qed.


Lemma frame_refl (w : World U) : frame w w (faults w) (collection w) [] (user w).
Proof. unfold frame. rewrite app_nil_r. auto. Qed.

Lemma frame_trans (w w1 w2 : World U) fs1 c1 e1 u1 fs2 c2 e2 u2 :
  frame w w1 fs1 c1 e1 u1 -> frame w1 w2 fs2 c2 e2 u2 ->
  frame w w2 fs2 c2 (e1 ++ e2) u2.
Proof.
  unfold frame. intros (F1 & C1 & E1 & U1 & N1) (F2 & C2 & E2 & U2 & N2).
  repeat split; try assumption.
  - rewrite E2, E1, app_assoc. reflexivity.
  - congruence.
Qed.

Lemma Logger_info_frame (l : logline) (w : World U) :
  exists w', Logger_info (options self) l w = (Ok tt, w') /\
             frame w w' (faults w) (collection w) [] (user w).
Proof.
  unfold Logger_info, Logger_log. destruct (log (options self)).
  - eexists. split; [reflexivity|]. unfold frame. simpl. rewrite app_nil_r. auto.
  - exists w. split; [reflexivity | apply frame_refl].
Qed.

Lemma Logger_error_frame (l : logline) (w : World U) :
  exists w', Logger_error (options self) l w = (Ok tt, w') /\
             frame w w' (faults w) (collection w) [] (user w).
Proof.
  unfold Logger_error, Logger_log. destruct (log (options self)).
  - eexists. split; [reflexivity|]. unfold frame. simpl. rewrite app_nil_r. auto.
  - exists w. split; [reflexivity | apply frame_refl].
Qed.

(** [_getControl] returns the stored control record, creating it first when
    there is none. *)
Lemma getControl_ok (w : World U) fs :
  after_calm (getControl_requests w) (faults w) = Some fs ->
  exists w', _getControl self w = (Ok (stored_control w), w') /\
             frame w w' fs (Some (stored_control w)) [] (user w).
Proof.
  unfold getControl_requests, stored_control, _getControl, _setControl.
  rewrite connected. unfold findOne, updateOne, bind.
  destruct (collection w) as [c|] eqn:Hcol; intros Hc.
  - erewrite request_calm by exact Hc. simpl. rewrite Hcol. simpl.
    eexists. split; [reflexivity|].
    unfold frame. simpl. rewrite app_nil_r. auto.
  - apply after_calm_S in Hc. destruct Hc as (mid & H1 & H2).
    erewrite request_calm by exact H1. simpl. rewrite Hcol. simpl.
    erewrite request_calm by (simpl; exact H2).
    simpl. rewrite Hcol. simpl.
    eexists. split; [reflexivity|].
    unfold frame. simpl. rewrite app_nil_r. auto.
Qed.

Lemma lock_answer (w : World U) c fs :
  after_calm 1 (faults w) = Some fs -> collection w = Some c ->
  exists w', lock self w = (Ok (negb (locked c)), w') /\
             frame w w' fs (Some (if locked c then c else locked_at (now w) c))
               [EvLock] (user w).
Proof.
  intros Hc Hcol. unfold lock. rewrite connected.
  unfold bind, emit, updateOne.
  erewrite request_calm by (simpl; exact Hc).
  simpl. rewrite Hcol. unfold matches. simpl.
  destruct (locked c) eqn:Hl; simpl.
  - eexists. split; [reflexivity|]. unfold frame. simpl. auto.
  - unfold same_document, apply_set. simpl. rewrite Hl, Z.eqb_refl. simpl.
    eexists. split; [reflexivity|]. unfold frame, locked_at. simpl. auto.
Qed.

Lemma unlock_ok (w : World U) c fs :
  after_calm 1 (faults w) = Some fs -> collection w = Some c ->
  exists w', unlock self w = (Ok tt, w') /\
             frame w w' fs (Some (unlocked c)) [EvUnlock] (user w).
Proof.
  intros Hc Hcol. unfold unlock. rewrite connected.
  unfold bind, emit, updateOne.
  erewrite request_calm by (simpl; exact Hc).
  simpl. rewrite Hcol. simpl.
  eexists. split; [reflexivity|]. unfold frame, unlocked. simpl. auto.
Qed.


Lemma updateVersion_ok (v : Z) (w : World U) c fs :
  after_calm 1 (faults w) = Some fs -> collection w = Some c ->
  exists w', updateVersion self v w = (Ok tt, w') /\
             frame w w' fs (Some (versioned v c)) [EvUpdateVersion v] (user w).
Proof.
  intros Hc Hcol. unfold updateVersion. rewrite connected.
  unfold bind, emit, updateOne.
  erewrite request_calm by (simpl; exact Hc).
  simpl. rewrite Hcol. simpl.
  eexists. split; [reflexivity|]. unfold frame, versioned. simpl. auto.
Qed.


(* ------------------------------------------------------------------ *)
(** ** One iteration, and lists of iterations *)

(** Unfolds an iteration up to the return of the action [f] of [m], given
    [Ha : get_action m d = Some f] and what [f] does, [Hf]; the world after
    the log line is [w1]. *)
Ltac invoke_action d m w Ha Hf :=
  destruct (Logger_info_frame (Running d (version m) (shown_name m)) w)
    as (w1 & Hlog & (F1 & C1 & E1 & U1 & N1));
  unfold perform; simpl fst; simpl snd; rewrite Ha;
  unfold bind at 1; unfold bind at 1; rewrite Hlog;
  unfold bind at 1; unfold emit at 1; unfold invoke; simpl user; rewrite U1, Hf.

Lemma perform_ok (d : direction) (m : Migration U) (p : Z) (w : World U) f u' c fs :
  get_action m d = Some f -> f (user w) = (Ok tt, u') ->
  after_calm 1 (faults w) = Some fs -> collection w = Some c ->
  exists w', perform self d (m, p) w = (Ok tt, w') /\
             frame w w' fs (Some (versioned p c)) (step_events d (m, p)) u'.
Proof.
  intros Ha Hf Hc Hcol.
  invoke_action d m w Ha Hf.
  destruct (updateVersion_ok p (with_user u' (with_events (events w1 ++ [EvInvoke d (version m)]) w1)) c fs)
    as (w2 & Hup & (F2 & C2 & E2 & U2 & N2)).
  { simpl. rewrite F1. exact Hc. }
  { simpl. rewrite C1. exact Hcol. }
  rewrite Hup. exists w2. split; [reflexivity|].
  unfold frame, step_events. simpl in *.
  repeat split; try assumption.
  - rewrite E2, E1, app_nil_r, <- app_assoc. reflexivity.
  - congruence.
Qed.

Lemma perform_no_action (d : direction) (m : Migration U) (p : Z) (w : World U) :
  get_action m d = None ->
  perform self d (m, p) w = (Throw (JsError (CannotMigrate d (version m))), w).
Proof.
  intros Ha. unfold perform. simpl fst. rewrite Ha. reflexivity.
Qed.

Lemma perform_action_throws (d : direction) (m : Migration U) (p : Z) (w : World U) f e u' :
  get_action m d = Some f -> f (user w) = (Throw e, u') ->
  exists w', perform self d (m, p) w = (Throw e, w') /\
             frame w w' (faults w) (collection w) [EvInvoke d (version m)] u'.
Proof.
  intros Ha Hf.
  invoke_action d m w Ha Hf.
  eexists. split; [reflexivity|].
  unfold frame. simpl. rewrite E1, app_nil_r. auto.
Qed.


(** The version [updateVersion] was last called with, [v] if never. *)
Lemma last_persisted_cons (s : step U) (l : list (step U)) (v : Z) :
  last (map snd (s :: l)) v = last (map snd l) (snd s).
Proof.
  revert s v. induction l as [|x xs IH]; intros s v; [reflexivity|].
  change (last (map snd (s :: x :: xs)) v) with (last (map snd (x :: xs)) v).
  rewrite (IH x v). symmetry. apply (IH x (snd s)).
Qed.

(** A prefix of steps that all return: the run continues after it, counted,
    the last of its versions persisted. *)
Lemma perform_all_prefix (d : direction) (done rest : list (step U)) :
  forall (run : Z) (w : World U) c u' fs,
    run_actions d (map fst done) (user w) = Some u' ->
    after_calm (List.length done) (faults w) = Some fs ->
    collection w = Some c ->
    exists w',
      perform_all self d (done ++ rest) run w =
        perform_all self d rest (run + Z.of_nat (List.length done)) w' /\
      frame w w' fs (Some (versioned (last (map snd done) (ctl_version c)) c))
        (steps_events d done) u'.
Proof.
  induction done as [|[m p] l IH]; intros run w c u' fs Hrun Hcalm Hcol.
  - simpl in *. inversion Hrun; inversion Hcalm; subst.
    exists w. split; [f_equal; lia|].
    replace (versioned (ctl_version c) c) with c by (destruct c; reflexivity).
    rewrite <- Hcol. apply frame_refl.
  - simpl in Hrun. destruct (get_action m d) as [f|] eqn:Ha; [|discriminate].
    destruct (f (user w)) as [[[]|e|x] u1] eqn:Hf; try discriminate.
    apply after_calm_S in Hcalm. destruct Hcalm as (mid & H1 & H2).
    destruct (perform_ok d m p w f u1 c mid Ha Hf H1 Hcol) as (w1 & Hp & Fr1).
    pose proof Fr1 as (F1 & C1 & E1 & U1 & N1).
    destruct (IH (run + 1) w1 (versioned p c) u' fs) as (w2 & Hall & Fr2).
    { rewrite U1. exact Hrun. }
    { rewrite F1. exact H2. }
    { exact C1. }
    exists w2. split.
    + change (((m, p) :: l) ++ rest) with ((m, p) :: (l ++ rest)).
      change (perform_all self d ((m, p) :: (l ++ rest)) run w)
        with (match perform self d (m, p) w with
              | (Ok _, w') => perform_all self d (l ++ rest) (run + 1) w'
              | (Throw e, w') => (run, (Throw e, w'))
              | (Exit c, w') => (run, (Exit c, w'))
              end).
      rewrite Hp, Hall. f_equal.
      change (List.length ((m, p) :: l)) with (S (List.length l)). lia.
    + rewrite last_persisted_cons. simpl snd.
      pose proof (frame_trans _ _ _ _ _ _ _ _ _ _ _ Fr1 Fr2) as Fr. simpl in Fr.
      unfold steps_events. simpl flat_map.
      exact Fr.
Qed.

(** The loops are iterations over a list of steps, as long as each index
    holds the step of its rank. *)
Lemma for_loop_perform_all (d : direction) (next : Z -> Z) (body : Z -> M U unit)
    (l : list (step U)) :
  forall (i run : Z) (w : World U),
    (forall k s, nth_error l k = Some s ->
                 forall w0, body (Nat.iter k next i) w0 = perform self d s w0) ->
    for_loop (List.length l) i next body run w = perform_all self d l run w.
Proof.
  induction l as [|s l IH]; intros i run w H; [reflexivity|].
  pose proof (H O s eq_refl w) as H0. simpl in H0.
  simpl. rewrite H0.
  destruct (perform self d s w) as [[[]|e|c] w']; try reflexivity.
  apply IH. intros k s' Hk w0.
  rewrite <- (H (S k) s' Hk w0). rewrite Nat.iter_succ_r. reflexivity.
Qed.

(* ------------------------------------------------------------------ *)
(** ** Registry lookups and the steps of the two loops *)

Lemma findIndexByVersion_Ok (v : number) (i : Z) :
  findIndexByVersion self v = Ok i ->
  (v = Num 0 /\ i = -1) \/
  (exists z m,
      v = Num z /\ z <> 0 /\ 0 <= i /\
      nth_error (migrations self) (Z.to_nat i) = Some m /\ version m = z /\
      forall j y, (j < Z.to_nat i)%nat -> nth_error (migrations self) j = Some y ->
                  version y <> z).
Proof.
  unfold findIndexByVersion, findIndex.
  destruct (findIndex_from_spec _ (fun m : Migration U => strict_eq (Num (version m)) v)
              (migrations self) 0 ltac:(lia))
    as [[Hr Hall]|(k & x & Hr & Hn & Hx & Hbefore)]; rewrite Hr.
  - destruct (strict_eq v (Num 0)) eqn:E0; simpl.
    + intros H; inversion H; subst. left. split; [|reflexivity].
      destruct v as [z| |b]; simpl in E0; [|discriminate|discriminate].
      apply Z.eqb_eq in E0. subst. reflexivity.
    + discriminate.
  - destruct (strict_eq v (Num 0)) eqn:E0.
    + intros H; inversion H; subst. left. split; [|reflexivity].
      destruct v as [z| |b]; simpl in E0; [|discriminate|discriminate].
      apply Z.eqb_eq in E0. subst. reflexivity.
    + replace (0 + Z.of_nat k =? -1) with false by (symmetry; apply Z.eqb_neq; lia).
      intros H; inversion H; subst. right.
      destruct v as [z| |b]; simpl in Hx; [|discriminate|discriminate].
      apply Z.eqb_eq in Hx. simpl in E0. apply Z.eqb_neq in E0.
      exists z, x. rewrite Nat2Z.id.
      repeat split; auto; try lia.
      intros j y Hj Hy Hv. specialize (Hbefore j y Hj Hy). simpl in Hbefore.
      apply Z.eqb_neq in Hbefore. lia.
Qed.

Lemma findIndexByVersion_Ok_bounds (v : number) (i : Z) :
  findIndexByVersion self v = Ok i ->
  -1 <= i < Z.of_nat (List.length (migrations self)).
Proof.
  intros H. apply findIndexByVersion_Ok in H.
  destruct H as [[_ ->]|(z & m & _ & _ & Hi & Hn & _)]; [lia|].
  assert (Z.to_nat i < List.length (migrations self))%nat
    by (apply nth_error_Some; congruence).
  lia.
Qed.

Lemma findIndexByVersion_unregistered (v : number) :
  strict_eq v (Num 0) = false ->
  (forall m, In m (migrations self) -> strict_eq (Num (version m)) v = false) ->
  findIndexByVersion self v = Throw (JsError (CantFindVersion v)).
Proof.
  intros H0 Hall. unfold findIndexByVersion, findIndex. rewrite H0.
  destruct (findIndex_from_spec _ (fun m : Migration U => strict_eq (Num (version m)) v)
              (migrations self) 0 ltac:(lia))
    as [[Hr _]|(k & x & Hr & Hn & Hx & _)].
  - rewrite Hr. reflexivity.
  - apply nth_error_In in Hn. rewrite (Hall x Hn) in Hx. discriminate.
Qed.

Lemma findIndexByVersion_registered (z : Z) :
  z <> 0 -> In z (map (@version U) (migrations self)) ->
  exists i, findIndexByVersion self (Num z) = Ok i.
Proof.
  intros Hz Hin. unfold findIndexByVersion, findIndex.
  replace (strict_eq (Num z) (Num 0)) with false
    by (symmetry; apply Z.eqb_neq; exact Hz).
  destruct (findIndex_from_spec _ (fun m : Migration U => strict_eq (Num (version m)) (Num z))
              (migrations self) 0 ltac:(lia))
    as [[Hr Hall]|(k & x & Hr & Hn & Hx & _)].
  - apply in_map_iff in Hin. destruct Hin as (m & Hm & Hin).
    specialize (Hall m Hin). simpl in Hall. rewrite Hm, Z.eqb_refl in Hall. discriminate.
  - rewrite Hr.
    replace (0 + Z.of_nat k =? -1) with false by (symmetry; apply Z.eqb_neq; lia).
    eexists. reflexivity.
Qed.

Lemma up_body_perform (i : Z) (m : Migration U) (w0 : World U) :
  at_index (migrations self) i = Some m ->
  up_body self i w0 = perform self Up (m, version m) w0.
Proof.
  intros H. unfold up_body, runMigration, perform. rewrite H. reflexivity.
Qed.

Lemma down_body_perform (i : Z) (m : Migration U) (w0 : World U) :
  at_index (migrations self) i = Some m ->
  down_body self i w0 = perform self Down (m, version_at self (i - 1)) w0.
Proof.
  intros H. unfold down_body, runMigration, perform, version_at. rewrite H. reflexivity.
Qed.

Lemma length_with_preceding (p : Z) (l : list (Migration U)) :
  List.length (with_preceding p l) = List.length l.
Proof. revert p. induction l; intros p; simpl; auto. Qed.

Lemma nth_error_with_preceding (l : list (Migration U)) :
  forall p j m q,
    nth_error (with_preceding p l) j = Some (m, q) ->
    nth_error l j = Some m /\
    q = match j with
        | O => p
        | S j' => match nth_error l j' with Some x => version x | None => 0 end
        end.
Proof.
  induction l as [|a l IH]; intros p j m q H.
  - destruct j; discriminate.
  - destruct j as [|j]; simpl in H.
    + inversion H; subst. auto.
    + destruct (IH _ _ _ _ H) as [Hn Hq]. split; [exact Hn|].
      destruct j; simpl; auto.
Qed.

Lemma forward_steps_nth (s e : Z) (k : nat) (st : step U) :
  -1 <= s ->
  nth_error (forward_steps (migrations self) s e) k = Some st ->
  forall w0, up_body self (Nat.iter k Z.succ (s + 1)) w0 = perform self Up st w0.
Proof.
  intros Hs H w0. unfold forward_steps in H.
  rewrite nth_error_map, nth_error_slice in H.
  destruct (Nat.ltb k (Z.to_nat (e - s))); [|discriminate].
  destruct (nth_error (migrations self) (Z.to_nat (s + 1) + k)) as [m|] eqn:Hn;
    [|discriminate].
  inversion H; subst. apply up_body_perform.
  apply at_index_Some. rewrite iter_succ. split; [lia|].
  rewrite <- Hn. f_equal. lia.
Qed.

Lemma forward_steps_length (s e : Z) :
  -1 <= s < Z.of_nat (List.length (migrations self)) ->
  e < Z.of_nat (List.length (migrations self)) ->
  List.length (forward_steps (migrations self) s e) = Z.to_nat (e - s).
Proof.
  intros Hs He. unfold forward_steps. rewrite length_map. apply length_slice. lia.
Qed.

Lemma up_loop_steps (s e run : Z) (w : World U) :
  -1 <= s < Z.of_nat (List.length (migrations self)) ->
  e < Z.of_nat (List.length (migrations self)) ->
  for_loop (Z.to_nat (e - s)) (s + 1) Z.succ (up_body self) run w =
    perform_all self Up (forward_steps (migrations self) s e) run w.
Proof.
  intros Hs He. rewrite <- (forward_steps_length s e Hs He).
  apply for_loop_perform_all. intros k st Hk w0.
  apply (forward_steps_nth s e k st (proj1 Hs) Hk).
Qed.

Lemma backward_steps_length (s e : Z) :
  -1 <= e -> e < Z.of_nat (List.length (migrations self)) ->
  s < Z.of_nat (List.length (migrations self)) ->
  List.length (backward_steps (migrations self) s e) = Z.to_nat (s - e).
Proof.
  intros He He' Hs. unfold backward_steps. rewrite length_rev.
  apply length_slice. rewrite length_with_preceding. lia.
Qed.

(** The step of rank [k] of a backward run: the migration at index
    [s - k], with [this.migrations[i - 1]?.version ?? 0] for that index. *)
Lemma backward_steps_at (s e : Z) (k : nat) (st : step U) :
  -1 <= e -> e < Z.of_nat (List.length (migrations self)) ->
  s < Z.of_nat (List.length (migrations self)) ->
  nth_error (backward_steps (migrations self) s e) k = Some st ->
  (k < Z.to_nat (s - e))%nat /\
  at_index (migrations self) (s - Z.of_nat k) = Some (fst st) /\
  snd st = version_at self (s - Z.of_nat k - 1).
Proof.
  intros He He' Hs H. unfold backward_steps in H.
  rewrite nth_error_rev in H.
  rewrite length_slice in H by (rewrite length_with_preceding; lia).
  destruct (Nat.ltb_spec k (Z.to_nat (s - e))) as [Hk|]; [|discriminate].
  rewrite nth_error_slice in H.
  destruct (Nat.ltb_spec (Z.to_nat (s - e) - S k) (Z.to_nat (s - e))); [|discriminate].
  destruct st as [m q].
  apply nth_error_with_preceding in H. destruct H as [Hn Hq].
  replace (Z.to_nat (e + 1) + (Z.to_nat (s - e) - S k))%nat
    with (Z.to_nat (s - Z.of_nat k)) in * by lia.
  split; [exact Hk|]. split.
  - apply at_index_Some. split; [lia | exact Hn].
  - simpl snd. unfold version_at, at_index.
    destruct (Z.to_nat (s - Z.of_nat k)) as [|j] eqn:Ej.
    + replace (s - Z.of_nat k - 1 <? 0) with true by (symmetry; apply Z.ltb_lt; lia).
      exact Hq.
    + replace (s - Z.of_nat k - 1 <? 0) with false by (symmetry; apply Z.ltb_ge; lia).
      replace (Z.to_nat (s - Z.of_nat k - 1)) with j by lia.
      exact Hq.
Qed.

Lemma backward_steps_nth (s e : Z) (k : nat) (st : step U) :
  -1 <= e -> e < Z.of_nat (List.length (migrations self)) ->
  s < Z.of_nat (List.length (migrations self)) ->
  nth_error (backward_steps (migrations self) s e) k = Some st ->
  forall w0, down_body self (Nat.iter k Z.pred s) w0 = perform self Down st w0.
Proof.
  intros He He' Hs H w0.
  destruct (backward_steps_at s e k st He He' Hs H) as (_ & Hat & Hq).
  rewrite iter_pred, (down_body_perform _ _ w0 Hat), <- Hq.
  destruct st; reflexivity.
Qed.

Lemma down_loop_steps (s e run : Z) (w : World U) :
  -1 <= e -> e < Z.of_nat (List.length (migrations self)) ->
  s < Z.of_nat (List.length (migrations self)) ->
  for_loop (Z.to_nat (s - e)) s Z.pred (down_body self) run w =
    perform_all self Down (backward_steps (migrations self) s e) run w.
Proof.
  intros He He' Hs. rewrite <- (backward_steps_length s e He He' Hs).
  apply for_loop_perform_all. intros k st Hk w0.
  apply (backward_steps_nth s e k st He He' Hs Hk).
Qed.

(** The step of rank [k] of a forward run: the migration at index
    [s + 1 + k], with its own version. *)
Lemma forward_steps_at (s e : Z) (k : nat) (st : step U) :
  -1 <= s ->
  nth_error (forward_steps (migrations self) s e) k = Some st ->
  (k < Z.to_nat (e - s))%nat /\
  at_index (migrations self) (s + 1 + Z.of_nat k) = Some (fst st) /\
  snd st = version (fst st).
Proof.
  intros Hs H. unfold forward_steps in H.
  rewrite nth_error_map, nth_error_slice in H.
  destruct (Nat.ltb_spec k (Z.to_nat (e - s))) as [Hk|]; [|discriminate].
  destruct (nth_error (migrations self) (Z.to_nat (s + 1) + k)) as [m|] eqn:Hn;
    [|discriminate].
  inversion H; subst. simpl. split; [exact Hk|]. split; [|reflexivity].
  apply at_index_Some. split; [lia|]. rewrite <- Hn. f_equal. lia.
Qed.

(** The version found at an index is the version looked up; index [-1]
    stands for version [0]. *)
Lemma version_at_found (t e : Z) :
  findIndexByVersion self (Num t) = Ok e -> version_at self e = t.
Proof.
  intros H. apply findIndexByVersion_Ok in H.
  destruct H as [[Ht ->]|(z & m & Hz & _ & Hi & Hn & Hv & _)].
  - inversion Ht. reflexivity.
  - inversion Hz; subst. unfold version_at.
    rewrite (proj2 (at_index_Some _ _ _ _) (conj Hi Hn)). reflexivity.
Qed.

(** The last version a forward run persists is the target's. *)
Lemma forward_steps_last (s e d0 : Z) :
  -1 <= s -> s < e -> e < Z.of_nat (List.length (migrations self)) ->
  last (map snd (forward_steps (migrations self) s e)) d0 = version_at self e.
Proof.
  intros Hs Hse He.
  pose proof (forward_steps_length s e ltac:(lia) He) as Hlen.
  destruct (nth_error (forward_steps (migrations self) s e) (Z.to_nat (e - s) - 1))
    as [st|] eqn:Hn.
  - destruct (forward_steps_at s e _ st Hs Hn) as (_ & Hat & Hq).
    apply (last_nth_error _ _ d0 (Z.to_nat (e - s) - 1)).
    + rewrite length_map. etransitivity; [exact Hlen | lia].
    + rewrite nth_error_map. unfold step in *. rewrite Hn. simpl. f_equal. rewrite Hq.
      unfold version_at.
      replace (s + 1 + Z.of_nat (Z.to_nat (e - s) - 1)) with e in Hat by lia.
      rewrite Hat. reflexivity.
  - apply nth_error_None in Hn. lia.
Qed.

(** The last version a backward run persists is the target's. *)
Lemma backward_steps_last (s e d0 : Z) :
  -1 <= e -> e < s -> s < Z.of_nat (List.length (migrations self)) ->
  last (map snd (backward_steps (migrations self) s e)) d0 = version_at self e.
Proof.
  intros He Hes Hs.
  pose proof (backward_steps_length s e He ltac:(lia) Hs) as Hlen.
  destruct (nth_error (backward_steps (migrations self) s e) (Z.to_nat (s - e) - 1))
    as [st|] eqn:Hn.
  - destruct (backward_steps_at s e _ st He ltac:(lia) Hs Hn) as (_ & Hat & Hq).
    apply (last_nth_error _ _ d0 (Z.to_nat (s - e) - 1)).
    + rewrite length_map. etransitivity; [exact Hlen | lia].
    + rewrite nth_error_map. unfold step in *. rewrite Hn. simpl. f_equal. rewrite Hq.
      f_equal. lia.
  - apply nth_error_None in Hn. lia.
Qed.



(** In a registry sorted by positive versions, indices follow versions. *)
Lemma index_order (a b s e : Z) :
  StronglySorted Z.le (map (@version U) (migrations self)) ->
  Forall (fun m : Migration U => 0 < version m) (migrations self) ->
  findIndexByVersion self (Num a) = Ok s ->
  findIndexByVersion self (Num b) = Ok e ->
  a < b -> s < e.
Proof.
  intros Hsorted Hpos Hs He Hab.
  pose proof (proj1 (StronglySorted_nth _ Z.le _) Hsorted) as Hord.
  rewrite Forall_forall in Hpos.
  apply findIndexByVersion_Ok in Hs, He.
  destruct He as [[Hb ->]|(zb & mb & Hzb & _ & He0 & Hnb & Hvb & _)].
  - inversion Hb; subst b.
    destruct Hs as [[Ha _]|(za & ma & Hza & _ & _ & Hna & Hva & _)].
    + inversion Ha. lia.
    + inversion Hza; subst za.
      assert (0 < version ma) by (apply Hpos; eapply nth_error_In, Hna). lia.
  - inversion Hzb; subst zb.
    destruct Hs as [[_ ->]|(za & ma & Hza & _ & Hs0 & Hna & Hva & _)]; [lia|].
    inversion Hza; subst za.
    destruct (Z_lt_le_dec s e) as [|Hge]; [assumption|exfalso].
    destruct (Z.eq_dec s e) as [->|Hneq].
    + assert (ma = mb) by congruence. subst. lia.
    + assert (version mb <= version ma).
      { apply (Hord (Z.to_nat e) (Z.to_nat s)); [lia| |].
        - rewrite nth_error_map, Hnb. reflexivity.
        - rewrite nth_error_map, Hna. reflexivity. }
      lia.
Qed.

(* ------------------------------------------------------------------ *)
(** ** The phases of [_migrateTo] *)

Lemma after_calm_add (a b : nat) :
  forall fs rest,
    after_calm (a + b) fs = Some rest ->
    exists mid, after_calm a fs = Some mid /\ after_calm b mid = Some rest.
Proof.
  induction a as [|a IH]; intros fs rest H.
  - exists fs. split; [reflexivity | exact H].
  - change (S a + b)%nat with (S (a + b)) in H.
    destruct fs as [|[x|] r]; simpl in H |- *.
    + destruct (IH [] rest H) as (mid & H1 & H2). exists mid. auto.
    + discriminate.
    + apply IH, H.
Qed.

(** The apply phase of a run that is not a rerun, once both versions are
    found in the registry: the steps between the two indices. *)
Lemma apply_phase_steps (cur : Z) (v : number) (s e : Z) (w : World U) :
  findIndexByVersion self (Num cur) = Ok s ->
  findIndexByVersion self v = Ok e ->
  exists w1,
    frame w w1 (faults w) (collection w) [] (user w) /\
    apply_phase self cur v false w =
      if less_than (Num cur) v
      then perform_all self Up (forward_steps (migrations self) s e) 0 w1
      else perform_all self Down (backward_steps (migrations self) s e) 0 w1.
Proof.
  intros Hs He. unfold apply_phase. rewrite Hs, He.
  destruct (Logger_info_frame (MigratingFromTo (version_at self s) (version_at self e)) w)
    as (w1 & Hlog & Fr).
  rewrite Hlog. exists w1. split; [exact Fr|].
  pose proof (findIndexByVersion_Ok_bounds _ _ Hs) as Bs.
  pose proof (findIndexByVersion_Ok_bounds _ _ He) as Be.
  destruct (less_than (Num cur) v).
  - apply up_loop_steps; lia.
  - replace (if e =? -1 then -1 else e) with e
      by (destruct (e =? -1) eqn:E; [apply Z.eqb_eq in E; lia | reflexivity]).
    apply down_loop_steps; lia.
Qed.

(** Past the fast path, with the lock free: the lock is taken and the
    guarded region entered. *)
Lemma migrateTo_enters_guarded (v : number) (rerun : bool) (w : World U) fs :
  after_calm (getControl_requests w + 1) (faults w) = Some fs ->
  locked (stored_control w) = false ->
  negb rerun && strict_eq (Num (ctl_version (stored_control w))) v = false ->
  exists w2,
    frame w w2 fs (Some (locked_at (now w) (stored_control w))) [EvLock] (user w) /\
    _migrateTo self v rerun w = try_catch self (stored_control w) v rerun w2.
Proof.
  intros Hcalm Hfree Hslow.
  apply after_calm_add in Hcalm. destruct Hcalm as (mid & Hc1 & Hc2).
  destruct (getControl_ok w mid Hc1) as (w1 & Hget & Fr1).
  pose proof Fr1 as (F1 & C1 & E1 & U1 & N1).
  destruct (lock_answer w1 (stored_control w) fs) as (w2 & Hlock & Fr2).
  { rewrite F1. exact Hc2. }
  { exact C1. }
  rewrite Hfree in Hlock, Fr2. simpl in Hlock.
  exists w2. split.
  - pose proof (frame_trans _ _ _ _ _ _ _ _ _ _ _ Fr1 Fr2) as Fr.
    rewrite N1, U1 in Fr. exact Fr.
  - unfold _migrateTo. rewrite connected.
    unfold bind at 1. rewrite Hget. rewrite Hslow.
    unfold bind at 1. rewrite Hlock. reflexivity.
Qed.

(** The guarded region when the apply phase returns and the release is
    answered. *)
Lemma try_catch_returns (control : ControlDocument) (v : number) (rerun : bool)
    (w w3 : World U) (run : Z) c3 fs :
  apply_phase self (ctl_version control) v rerun w = (run, (Ok tt, w3)) ->
  collection w3 = Some c3 -> after_calm 1 (faults w3) = Some fs ->
  exists w4,
    try_catch self control v rerun w =
      (Ok {| success := true; fromVersion := ctl_version control; toVersion := v;
             migrationsRun := run; error := None |}, w4) /\
    frame w3 w4 fs (Some (unlocked c3)) [EvUnlock] (user w3).
Proof.
  intros Hap Hcol Hcalm. unfold try_catch. rewrite Hap. unfold try_end.
  destruct (unlock_ok w3 c3 fs Hcalm Hcol) as (wa & Hun & Fra).
  destruct (Logger_info_frame Finished wa) as (wb & Hlog & Frb).
  unfold bind at 1. rewrite Hun. unfold bind at 1. rewrite Hlog. unfold ret.
  exists wb. split; [reflexivity|].
  pose proof (frame_trans _ _ _ _ _ _ _ _ _ _ _ Fra Frb) as Fr.
  destruct Fra as (F & C & E & Us & N). rewrite F, C, Us in Fr. exact Fr.
Qed.

(** The [catch] block when its release is answered and the caught value
    can be rendered: a failed result. *)
Lemma catch_block_returns (control : ControlDocument) (v : number) (run : Z) (x x' : exn)
    (w3 : World U) c3 fs :
  as_Error x = Ok x' ->
  collection w3 = Some c3 -> after_calm 1 (faults w3) = Some fs ->
  exists w4,
    catch_block self control v run x w3 =
      (Ok {| success := false; fromVersion := ctl_version control; toVersion := v;
             migrationsRun := run; error := Some x' |}, w4) /\
    frame w3 w4 fs (Some (unlocked c3)) [EvUnlock] (user w3).
Proof.
  intros Hx Hcol Hcalm. unfold catch_block.
  destruct (unlock_ok w3 c3 fs Hcalm Hcol) as (wa & Hun & Fra).
  assert (Htext : exists text, error_text x = Ok text)
    by (destruct x; simpl in *; [eexists; reflexivity ..|discriminate]).
  destruct Htext as [text Htext].
  destruct (Logger_error_frame (MigrationFailed text) wa) as (wb & Hlog & Frb).
  unfold bind at 1. rewrite Hun. unfold bind at 1. unfold lift at 1. rewrite Htext.
  unfold bind at 1. rewrite Hlog. unfold bind at 1. unfold lift. rewrite Hx. unfold ret.
  exists wb. split; [reflexivity|].
  pose proof (frame_trans _ _ _ _ _ _ _ _ _ _ _ Fra Frb) as Fr.
  destruct Fra as (F & C & E & Us & N). rewrite F, C, Us in Fr. exact Fr.
Qed.


(** A result of the [catch] block is a failure. *)
Lemma catch_block_fails (control : ControlDocument) (v : number) (run : Z) (x : exn)
    (w w' : World U) (r : MigrationResult) :
  catch_block self control v run x w = (Ok r, w') -> success r = false.
Proof.
  unfold catch_block, bind, lift, ret.
  destruct (unlock self w) as [[[]|e|k] w1]; try discriminate.
  destruct (error_text x) as [text|e|k]; try discriminate.
  destruct (Logger_error_frame (MigrationFailed text) w1) as (w2 & Hlog & _).
  rewrite Hlog. destruct (as_Error x) as [reported|e|k]; try discriminate.
  intros H. inversion H. reflexivity.
Qed.


(** The guarded region when the apply phase throws. *)
Lemma try_catch_catches (control : ControlDocument) (v : number) (rerun : bool)
    (w w3 : World U) (run : Z) (x : exn) :
  apply_phase self (ctl_version control) v rerun w = (run, (Throw x, w3)) ->
  try_catch self control v rerun w = catch_block self control v run x w3.
Proof.
  intros Hap. unfold try_catch. rewrite Hap. reflexivity.
Qed.

(* ------------------------------------------------------------------ *)
(** ** Runs that take the lock *)

(** A run that is not a rerun, whose versions are both found, and whose
    first steps [done] all return: the guarded region is entered, and the
    apply phase has reached the remaining steps with [done] counted. *)
Lemma run_reaches (t : Z) (w : World U) (s e : Z) (d : direction)
    (done rest : list (step U)) (u1 : U) fs :
  locked (stored_control w) = false ->
  ctl_version (stored_control w) <> t ->
  findIndexByVersion self (Num (ctl_version (stored_control w))) = Ok s ->
  findIndexByVersion self (Num t) = Ok e ->
  planned_steps (migrations self) (ctl_version (stored_control w)) t s e
    = (d, done ++ rest) ->
  run_actions d (map fst done) (user w) = Some u1 ->
  after_calm (getControl_requests w + 1 + List.length done) (faults w) = Some fs ->
  exists w2 w3,
    _migrateTo self (Num t) false w = try_catch self (stored_control w) (Num t) false w2 /\
    apply_phase self (ctl_version (stored_control w)) (Num t) false w2 =
      perform_all self d rest (Z.of_nat (List.length done)) w3 /\
    frame w w3 fs
      (Some (versioned (last (map snd done) (ctl_version (stored_control w)))
               (locked_at (now w) (stored_control w))))
      (EvLock :: steps_events d done) u1.
Proof.
  intros Hfree Hne Hs He Hplan Hdone Hcalm.
  apply after_calm_add in Hcalm. destruct Hcalm as (mid & Hc1 & Hc2).
  destruct (migrateTo_enters_guarded (Num t) false w mid Hc1 Hfree) as (w2 & Fr2 & Hrun).
  { simpl. apply Z.eqb_neq. exact Hne. }
  destruct (apply_phase_steps _ (Num t) s e w2 Hs He) as (wl & Frl & Hap).
  pose proof Fr2 as (F2 & C2 & E2 & U2 & N2).
  pose proof Frl as (Fl & Cl & El & Ul & Nl).
  assert (Hsteps : apply_phase self (ctl_version (stored_control w)) (Num t) false w2 =
                   perform_all self d (done ++ rest) 0 wl).
  { rewrite Hap. unfold planned_steps in Hplan. simpl less_than.
    destruct (ctl_version (stored_control w) <? t); inversion Hplan; subst; reflexivity. }
  destruct (perform_all_prefix d done rest 0 wl
              (locked_at (now w) (stored_control w)) u1 fs) as (w3 & Hall & Fr3).
  { rewrite Ul, U2. exact Hdone. }
  { rewrite Fl, F2. exact Hc2. }
  { rewrite Cl, C2. reflexivity. }
  exists w2, w3. split; [exact Hrun|]. split.
  - rewrite Hsteps, Hall. f_equal.
  - pose proof (frame_trans _ _ _ _ _ _ _ _ _ _ _ Fr2
                  (frame_trans _ _ _ _ _ _ _ _ _ _ _ Frl Fr3)) as Fr.
    simpl in Fr. exact Fr.
Qed.



Lemma map_fst_own_version (l : list (Migration U)) :
  map fst (map (fun m : Migration U => (m, version m)) l) = l.
Proof.
  induction l as [|m l IH]; [reflexivity|]. simpl. rewrite IH. reflexivity.
Qed.





(* ------------------------------------------------------------------ *)
(** ** Runs that take no step *)

(** The fast path: the control record is read, nothing else happens. *)
Lemma fast_path (v : Z) (w : World U) fs :
  after_calm (getControl_requests w) (faults w) = Some fs ->
  ctl_version (stored_control w) = v ->
  exists w',
    _migrateTo self (Num v) false w =
      (Ok {| success := true; fromVersion := v; toVersion := Num v;
             migrationsRun := 0; error := None |}, w') /\
    frame w w' fs (Some (stored_control w)) [] (user w).
Proof.
  intros Hcalm Hv.
  destruct (getControl_ok w fs Hcalm) as (w1 & Hget & Fr1).
  assert (Hfast : negb false && strict_eq (Num (ctl_version (stored_control w))) (Num v)
                  = true) by (rewrite Hv; simpl; apply Z.eqb_refl).
  unfold _migrateTo. rewrite connected. unfold bind at 1. rewrite Hget.
  rewrite Hfast, Hv. unfold bind at 1.
  destruct (shouldLogIfLatest (options self)).
  - destruct (Logger_info_frame (AlreadyAtVersion (Num v)) w1) as (w2 & Hlog & Fr2).
    rewrite Hlog. exists w2. split; [reflexivity|].
    pose proof (frame_trans _ _ _ _ _ _ _ _ _ _ _ Fr1 Fr2) as Fr.
    destruct Fr1 as (F & C & E & Us & N). rewrite F, C, Us in Fr. exact Fr.
  - exists w1. split; [reflexivity | exact Fr1].
Qed.

(** The control record is locked: one call of [lock()], then the failed
    result. *)
Lemma lock_held_result (v : number) (rerun : bool) (w : World U) fs :
  after_calm (getControl_requests w + 1) (faults w) = Some fs ->
  locked (stored_control w) = true ->
  negb rerun && strict_eq (Num (ctl_version (stored_control w))) v = false ->
  exists w',
    _migrateTo self v rerun w =
      (Ok {| success := false; fromVersion := ctl_version (stored_control w);
             toVersion := v; migrationsRun := 0;
             error := Some (JsError ControlIsLocked) |}, w') /\
    frame w w' fs (Some (stored_control w)) [EvLock] (user w).
Proof.
  intros Hcalm Hlocked Hslow.
  apply after_calm_add in Hcalm. destruct Hcalm as (mid & Hc1 & Hc2).
  destruct (getControl_ok w mid Hc1) as (w1 & Hget & Fr1).
  pose proof Fr1 as (F1 & C1 & E1 & U1 & N1).
  destruct (lock_answer w1 (stored_control w) fs) as (w2 & Hlock & Fr2); auto.
  { rewrite F1. exact Hc2. }
  rewrite Hlocked in Hlock, Fr2. simpl in Hlock.
  destruct (Logger_info_frame ControlLocked w2) as (w3 & Hlog & Fr3).
  exists w3. split.
  - unfold _migrateTo. rewrite connected.
    unfold bind at 1. rewrite Hget. rewrite Hslow.
    unfold bind at 1. rewrite Hlock.
    change (negb false) with true. cbv iota.
    unfold bind at 1. rewrite Hlog. reflexivity.
  - pose proof (frame_trans _ _ _ _ _ _ _ _ _ _ _ Fr1
                  (frame_trans _ _ _ _ _ _ _ _ _ _ _ Fr2 Fr3)) as Fr.
    destruct Fr2 as (F2 & C2 & E2 & U2 & N2).
    simpl in Fr. rewrite F2, C2, U2, U1 in Fr. exact Fr.
Qed.

(** C8.  When the control record is already locked (and the fast path does
    not apply), [_migrateTo] returns, without throwing, the failed result
    'Migration control is locked' with [migrationsRun = 0]; [lock()] was
    called once, no action was invoked, nothing was written. *)
Theorem held_lock_is_reported (v : number) (rerun : bool) (w : World U)
    (c : ControlDocument) :
  faults w = [] ->
  collection w = Some c ->
  locked c = true ->
  negb rerun && strict_eq (Num (ctl_version c)) v = false ->
  exists w',
    _migrateTo self v rerun w =
      (Ok {| success := false; fromVersion := ctl_version c; toVersion := v;
             migrationsRun := 0; error := Some (JsError ControlIsLocked) |}, w') /\
    events w' = events w ++ [EvLock] /\
    collection w' = Some c /\
    user w' = user w.
Proof.
  intros Hrel Hcol Hlocked Hslow.
  assert (Hsc : stored_control w = c) by (unfold stored_control; rewrite Hcol; reflexivity).
  destruct (lock_held_result v rerun w []) as (w' & Hrun & (F & C & E & Us & N)).
  { driver_answers. }
  { rewrite Hsc. exact Hlocked. }
  { rewrite Hsc. exact Hslow. }
  rewrite Hsc in *. exists w'. auto.
Qed.

(** [migrateTo] on a command that parses, with a registry that is not
    empty: the engine runs on the parsed target, and the process exits
    afterwards when the subcommand says so. *)
Lemma migrateTo_calls_the_engine (c : command) (p : MigrationCommand) (w : World U) :
  migrations self <> [] ->
  is_empty_command c = false ->
  parseCommand c = Ok p ->
  migrateTo self c w =
    match _migrateTo self
            match cmd_version p with
            | inr _ => Num (latest_version self)
            | inl n => n
            end
            (subcommand_is p "rerun") w with
    | (Ok r, w') => if subcommand_is p "exit" then (Exit 0, w') else (Ok r, w')
    | (Throw x, w') => (Throw x, w')
    | (Exit k, w') => (Exit k, w')
    end.
Proof.
  intros Hne Hc Hp. unfold migrateTo. rewrite connected, Hc.
  replace (Z.of_nat (List.length (migrations self)) =? 0) with false.
  2:{ symmetry. apply Z.eqb_neq.
      destruct (migrations self); [congruence | simpl List.length; lia]. }
  change (false || false) with false. cbv iota.
  unfold bind at 1. unfold lift. rewrite Hp. unfold bind.
  destruct (_migrateTo self _ (subcommand_is p "rerun") w) as [[r|x|k] w'];
    try reflexivity.
  destruct (subcommand_is p "exit"); reflexivity.
Qed.

Lemma migrateTo_number (n : number) (w : World U) :
  migrations self <> [] ->
  migrateTo self (CmdNumber n) w = _migrateTo self n false w.
Proof.
  intros Hne.
  rewrite (migrateTo_calls_the_engine (CmdNumber n)
             {| cmd_version := inl n; subcommand := None |} w Hne eq_refl eq_refl).
  cbv [subcommand_is subcommand cmd_version].
  destruct (_migrateTo self n false w) as [[r|x|c] w']; reflexivity.
Qed.

(** C10.  A numeric target equal to the stored version takes the fast path
    whatever the registry holds: [migrateTo] succeeds with
    [migrationsRun = 0], takes no lock and invokes nothing, also when the
    lookup of that target in the registry would throw. *)
Theorem unregistered_current_target_succeeds (v : Z) (w : World U) :
  faults w = [] ->
  migrations self <> [] ->
  ctl_version (stored_control w) = v ->
  (v <> 0 -> ~ In v (map (@version U) (migrations self)) ->
   findIndexByVersion self (Num v) = Throw (JsError (CantFindVersion (Num v)))) /\
  exists w',
    migrateTo self (CmdNumber (Num v)) w =
      (Ok {| success := true; fromVersion := v; toVersion := Num v;
             migrationsRun := 0; error := None |}, w') /\
    events w' = events w /\
    collection w' = Some (stored_control w) /\
    user w' = user w.
Proof.
  intros Hrel Hne Hv. split.
  - intros Hv0 Hnot. apply findIndexByVersion_unregistered.
    + simpl. apply Z.eqb_neq. exact Hv0.
    + intros m Hm. simpl. apply Z.eqb_neq. intros Heq. apply Hnot.
      rewrite <- Heq. apply in_map, Hm.
  - destruct (fast_path v w []) as (w' & Hrun & (F & C & E & Us & N)); auto.
    { driver_answers. }
    exists w'. rewrite (migrateTo_number (Num v) w Hne), Hrun.
    rewrite app_nil_r in E. auto.
Qed.

(* ------------------------------------------------------------------ *)
(** ** What any run leaves behind *)

Lemma perform_action_exits (d : direction) (m : Migration U) (p : Z) (w : World U)
    f k u' :
  get_action m d = Some f -> f (user w) = (Exit k, u') ->
  exists w', perform self d (m, p) w = (Exit k, w') /\
             frame w w' (faults w) (collection w) [EvInvoke d (version m)] u'.
Proof.
  intros Ha Hf.
  invoke_action d m w Ha Hf.
  eexists. split; [reflexivity|].
  unfold frame. simpl. rewrite E1, app_nil_r. auto.
Qed.

(** With a driver that answers, an iteration leaves the control record in
    place: with the step's version when it returns, untouched otherwise. *)
Lemma perform_inv (d : direction) (st : step U) (w w' : World U) c o :
  faults w = [] -> collection w = Some c ->
  perform self d st w = (o, w') ->
  faults w' = [] /\
  ((o = Ok tt /\ collection w' = Some (versioned (snd st) c)) \/
   ((forall a, o <> Ok a) /\ collection w' = Some c)).
Proof.
  intros Hrel Hcol H. destruct st as [m p].
  destruct (get_action m d) as [f|] eqn:Ha.
  - destruct (f (user w)) as [[[]|x|k] u'] eqn:Hf.
    + destruct (perform_ok d m p w f u' c [] Ha Hf) as (w1 & Hp & (F & C & _)); auto.
      { rewrite Hrel. reflexivity. }
      rewrite Hp in H. inversion H; subst. auto.
    + destruct (perform_action_throws d m p w f x u' Ha Hf) as (w1 & Hp & (F & C & _)).
      rewrite Hp in H. inversion H; subst.
      split; [congruence|]. right. split; [discriminate | congruence].
    + destruct (perform_action_exits d m p w f k u' Ha Hf) as (w1 & Hp & (F & C & _)).
      rewrite Hp in H. inversion H; subst.
      split; [congruence|]. right. split; [discriminate | congruence].
  - rewrite (perform_no_action d m p w Ha) in H. inversion H; subst.
    split; [exact Hrel|]. right. split; [discriminate | exact Hcol].
Qed.

Lemma perform_all_inv (d : direction) (l : list (step U)) :
  forall run (w w' : World U) c run' o,
    faults w = [] -> collection w = Some c ->
    perform_all self d l run w = (run', (o, w')) ->
    faults w' = [] /\
    exists c', collection w' = Some c' /\
               (forall a, o = Ok a ->
                          c' = versioned (last (map snd l) (ctl_version c)) c).
Proof.
  induction l as [|st l IH]; intros run w w' c run' o Hrel Hcol H.
  - simpl in H. inversion H; subst. split; [exact Hrel|].
    exists c. split; [exact Hcol|]. intros _ _. destruct c; reflexivity.
  - simpl perform_all in H.
    destruct (perform self d st w) as [o1 w1] eqn:Hp.
    destruct (perform_inv d st w w1 c o1 Hrel Hcol Hp) as (F1 & [[-> C1]|[Hno C1]]).
    + destruct (IH _ _ _ _ _ _ F1 C1 H) as (F & c' & C & Hlast).
      split; [exact F|]. exists c'. split; [exact C|].
      intros a Ha. rewrite (Hlast a Ha), last_persisted_cons.
      unfold versioned. reflexivity.
    + destruct o1 as [[]|x|k]; [exfalso; apply (Hno tt); reflexivity | |];
        inversion H; subst; (split; [exact F1|]); exists c;
        (split; [exact C1 | intros a Ha; discriminate]).
Qed.

(** A run that is not a rerun, with a driver that answers: when its apply
    phase returns, the version persisted is the target. *)
Lemma apply_phase_inv (cur v : Z) (w w3 : World U) c run o :
  StronglySorted Z.le (map (@version U) (migrations self)) ->
  Forall (fun m : Migration U => 0 < version m) (migrations self) ->
  faults w = [] -> collection w = Some c -> ctl_version c = cur -> cur <> v ->
  apply_phase self cur (Num v) false w = (run, (o, w3)) ->
  faults w3 = [] /\
  exists c3, collection w3 = Some c3 /\
             (forall a, o = Ok a -> ctl_version c3 = v).
Proof.
  intros Hsorted Hpos Hrel Hcol Hcur Hne H.
  destruct (findIndexByVersion self (Num cur)) as [s|x|k] eqn:Hs.
  - destruct (findIndexByVersion self (Num v)) as [e|x|k] eqn:He.
    + destruct (apply_phase_steps cur (Num v) s e w Hs He)
        as (w1 & (F1 & C1 & _) & Hap).
      rewrite Hap in H. rewrite Hrel in F1. rewrite Hcol in C1.
      pose proof (findIndexByVersion_Ok_bounds _ _ Hs) as Bs.
      pose proof (findIndexByVersion_Ok_bounds _ _ He) as Be.
      simpl less_than in H. destruct (cur <? v) eqn:Hlt.
      * apply Z.ltb_lt in Hlt.
        destruct (perform_all_inv Up _ _ _ _ _ _ _ F1 C1 H) as (F & c3 & C & Hlast).
        split; [exact F|]. exists c3. split; [exact C|].
        pose proof (index_order cur v s e Hsorted Hpos Hs He Hlt) as Hse.
        intros a Ha. rewrite (Hlast a Ha).
        rewrite (forward_steps_last s e); [|lia|lia|lia].
        rewrite (version_at_found _ _ He). reflexivity.
      * apply Z.ltb_ge in Hlt.
        destruct (perform_all_inv Down _ _ _ _ _ _ _ F1 C1 H) as (F & c3 & C & Hlast).
        split; [exact F|]. exists c3. split; [exact C|].
        pose proof (index_order v cur e s Hsorted Hpos He Hs ltac:(lia)) as Hes.
        intros a Ha. rewrite (Hlast a Ha).
        rewrite (backward_steps_last s e); [|lia|lia|lia].
        rewrite (version_at_found _ _ He). reflexivity.
    + unfold apply_phase in H. rewrite Hs, He in H. inversion H; subst.
      split; [exact Hrel|]. exists c. split; [exact Hcol | discriminate].
    + unfold apply_phase in H. rewrite Hs, He in H. inversion H; subst.
      split; [exact Hrel|]. exists c. split; [exact Hcol | discriminate].
  - unfold apply_phase in H. rewrite Hs in H. inversion H; subst.
    split; [exact Hrel|]. exists c. split; [exact Hcol | discriminate].
  - unfold apply_phase in H. rewrite Hs in H. inversion H; subst.
    split; [exact Hrel|]. exists c. split; [exact Hcol | discriminate].
Qed.

(** After a run to [v] that is not a rerun and succeeds, the stored
    version is [v] and the driver still answers. *)
Lemma successful_run_reaches_target (v : Z) (w w1 : World U) (r1 : MigrationResult) :
  StronglySorted Z.le (map (@version U) (migrations self)) ->
  Forall (fun m : Migration U => 0 < version m) (migrations self) ->
  faults w = [] ->
  _migrateTo self (Num v) false w = (Ok r1, w1) ->
  success r1 = true ->
  faults w1 = [] /\ exists c1, collection w1 = Some c1 /\ ctl_version c1 = v.
Proof.
  intros Hsorted Hpos Hrel Hrun Hsucc.
  destruct (Z.eq_dec (ctl_version (stored_control w)) v) as [Heq|Hne].
  - destruct (fast_path v w []) as (w' & Hfast & (F & C & _)); auto.
    { driver_answers. }
    rewrite Hfast in Hrun. inversion Hrun; subst.
    split; [exact F|]. exists (stored_control w). auto.
  - assert (Hslow : negb false && strict_eq (Num (ctl_version (stored_control w))) (Num v)
                    = false) by (simpl; apply Z.eqb_neq; exact Hne).
    destruct (locked (stored_control w)) eqn:Hlocked.
    + destruct (lock_held_result (Num v) false w []) as (w' & Hheld & _); auto.
      { driver_answers. }
      rewrite Hheld in Hrun. inversion Hrun; subst. discriminate.
    + destruct (migrateTo_enters_guarded (Num v) false w []) as (w2 & Fr2 & Hguard); auto.
      { driver_answers. }
      destruct Fr2 as (F2 & C2 & _).
      rewrite Hguard in Hrun. unfold try_catch in Hrun.
      destruct (apply_phase self (ctl_version (stored_control w)) (Num v) false w2)
        as [run [o w3]] eqn:Hap.
      destruct (apply_phase_inv _ v w2 w3 _ run o Hsorted Hpos F2 C2 eq_refl Hne Hap)
        as (F3 & c3 & C3 & Hv).
      destruct o as [a|x|k].
      * destruct (unlock_ok w3 c3 [] ltac:(rewrite F3; reflexivity) C3)
          as (wa & Hun & Fra).
        destruct (Logger_info_frame Finished wa) as (wb & Hlog & Frb).
        unfold try_end in Hrun. unfold bind at 1 in Hrun. rewrite Hun in Hrun.
        unfold bind at 1 in Hrun. rewrite Hlog in Hrun. unfold ret in Hrun.
        inversion Hrun; subst.
        destruct Fra as (Fa & Ca & _). destruct Frb as (Fb & Cb & _).
        split; [congruence|]. exists (unlocked c3). split; [congruence|].
        simpl. apply (Hv a). reflexivity.
      * pose proof (catch_block_fails _ _ _ _ _ _ _ Hrun) as Hfailed. congruence.
      * discriminate.
Qed.

(** C7.  When the stored version equals the target and the run is not a
    rerun, [_migrateTo] returns success with [migrationsRun = 0]; it calls
    neither [lock()] nor any action, and writes nothing.  In particular,
    after a run to [v] that succeeded, a second run to [v] is such a
    no-op. *)
Theorem already_at_target_is_a_no_op (v : Z) (w : World U) :
  faults w = [] ->
  (ctl_version (stored_control w) = v ->
   exists w',
     _migrateTo self (Num v) false w =
       (Ok {| success := true; fromVersion := v; toVersion := Num v;
              migrationsRun := 0; error := None |}, w') /\
     events w' = events w /\
     collection w' = Some (stored_control w) /\
     user w' = user w)
  /\
  (StronglySorted Z.le (map (@version U) (migrations self)) ->
   Forall (fun m : Migration U => 0 < version m) (migrations self) ->
   forall r1 w1,
     _migrateTo self (Num v) false w = (Ok r1, w1) ->
     success r1 = true ->
     exists w2,
       _migrateTo self (Num v) false w1 =
         (Ok {| success := true; fromVersion := v; toVersion := Num v;
                migrationsRun := 0; error := None |}, w2) /\
       events w2 = events w1 /\
       collection w2 = collection w1 /\
       user w2 = user w1).
Proof.
  intros Hrel. split.
  - intros Hv.
    destruct (fast_path v w []) as (w' & Hfast & (F & C & E & Us & N)); auto.
    { driver_answers. }
    exists w'. rewrite app_nil_r in E. auto.
  - intros Hsorted Hpos r1 w1 Hrun Hsucc.
    destruct (successful_run_reaches_target v w w1 r1 Hsorted Hpos Hrel Hrun Hsucc)
      as (F1 & c1 & C1 & Hv).
    assert (Hsc : stored_control w1 = c1)
      by (unfold stored_control; rewrite C1; reflexivity).
    destruct (fast_path v w1 []) as (w2 & Hfast & (F & C & E & Us & N)).
    { driver_answers. }
    { rewrite Hsc. exact Hv. }
    exists w2. rewrite app_nil_r in E. rewrite Hsc in C.
    split; [exact Hfast|]. split; [exact E|]. split; [congruence | exact Us].
Qed.

(* ------------------------------------------------------------------ *)
(** ** Targets that are not registered *)

Lemma strict_eq_false (a : Z) (v : number) :
  Num a <> v -> strict_eq (Num a) v = false.
Proof.
  destruct v as [z| |b]; simpl; [|reflexivity|reflexivity].
  intros H. apply Z.eqb_neq. intros ->. apply H. reflexivity.
Qed.

Lemma strict_eq_zero_false (v : number) :
  v <> Num 0 -> strict_eq v (Num 0) = false.
Proof.
  destruct v as [z| |b]; simpl; [|reflexivity|reflexivity].
  intros H. apply Z.eqb_neq. intros ->. apply H. reflexivity.
Qed.

(** The apply phase when the target is not found: it throws before any
    step, with nothing counted. *)
Lemma apply_phase_unregistered (cur : Z) (v : number) (rerun : bool) (w : World U) :
  findIndexByVersion self v = Throw (JsError (CantFindVersion v)) ->
  (rerun = true \/ exists s, findIndexByVersion self (Num cur) = Ok s) ->
  exists w',
    apply_phase self cur v rerun w = (0, (Throw (JsError (CantFindVersion v)), w')) /\
    frame w w' (faults w) (collection w) [] (user w).
Proof.
  intros Hv [->|[s Hs]].
  - unfold apply_phase.
    destruct (Logger_info_frame (Rerunning v) w) as (w1 & Hlog & Fr).
    unfold bind at 1. rewrite Hlog. unfold bind at 1. unfold lift. rewrite Hv.
    exists w1. split; [reflexivity | exact Fr].
  - destruct rerun.
    + unfold apply_phase.
      destruct (Logger_info_frame (Rerunning v) w) as (w1 & Hlog & Fr).
      unfold bind at 1. rewrite Hlog. unfold bind at 1. unfold lift. rewrite Hv.
      exists w1. split; [reflexivity | exact Fr].
    + unfold apply_phase. rewrite Hs, Hv.
      exists w. split; [reflexivity | apply frame_refl].
Qed.

(** C6 (as amended).  Version 0 is looked up as the index -1; any other
    version as the index of the first stored migration that has it, and the
    lookup throws 'Can't find migration version v' when there is none.
    A run to such a target that is not taken by the fast path and finds
    the lock free does not throw: the lookup fails inside the guarded
    region, so the lock is released and a failed result carrying that error
    is returned, with no step invoked and [migrationsRun = 0]. *)
Theorem unknown_target_is_a_failed_result :
  findIndexByVersion self (Num 0) = Ok (-1) /\
  (forall v i,
      v <> Num 0 -> findIndexByVersion self v = Ok i ->
      exists m,
        at_index (migrations self) i = Some m /\ Num (version m) = v /\
        forall j m', 0 <= j < i -> at_index (migrations self) j = Some m' ->
                     Num (version m') <> v) /\
  (forall v,
      v <> Num 0 -> (forall m, In m (migrations self) -> Num (version m) <> v) ->
      findIndexByVersion self v = Throw (JsError (CantFindVersion v))) /\
  (forall v rerun (w : World U),
      faults w = [] ->
      locked (stored_control w) = false ->
      v <> Num 0 -> (forall m, In m (migrations self) -> Num (version m) <> v) ->
      (rerun = true \/
       (Num (ctl_version (stored_control w)) <> v /\
        exists s, findIndexByVersion self (Num (ctl_version (stored_control w))) = Ok s)) ->
      exists w',
        _migrateTo self v rerun w =
          (Ok {| success := false;
                 fromVersion := ctl_version (stored_control w);
                 toVersion := v;
                 migrationsRun := 0;
                 error := Some (JsError (CantFindVersion v)) |}, w') /\
        events w' = events w ++ [EvLock; EvUnlock] /\
        collection w' = Some (unlocked (locked_at (now w) (stored_control w))) /\
        user w' = user w).
Proof.
  assert (Hthrow : forall v,
             v <> Num 0 -> (forall m, In m (migrations self) -> Num (version m) <> v) ->
             findIndexByVersion self v = Throw (JsError (CantFindVersion v))).
  { intros v Hv0 Hall. apply findIndexByVersion_unregistered.
    - apply strict_eq_zero_false, Hv0.
    - intros m Hm. apply strict_eq_false, Hall, Hm. }
  split; [reflexivity|]. split; [|split; [exact Hthrow|]].
  - intros v i Hv0 H. apply findIndexByVersion_Ok in H.
    destruct H as [[Hv _]|(z & m & Hz & _ & Hi & Hn & Hvm & Hfirst)]; [contradiction|].
    subst v. exists m. split; [apply at_index_Some; auto|]. split; [congruence|].
    intros j m' Hj Hat Heq. apply at_index_Some in Hat. destruct Hat as [_ Hat].
    apply (Hfirst (Z.to_nat j) m'); [lia | exact Hat | congruence].
  - intros v rerun w Hrel Hfree Hv0 Hall Hcase.
    destruct (migrateTo_enters_guarded v rerun w []) as (w2 & Fr2 & Hguard); auto.
    { driver_answers. }
    { destruct Hcase as [->|[Hne _]]; [reflexivity|].
      rewrite (strict_eq_false _ _ Hne). apply andb_false_r. }
    destruct (apply_phase_unregistered (ctl_version (stored_control w)) v rerun w2
                (Hthrow v Hv0 Hall)) as (w3 & Hap & Fr3).
    { destruct Hcase as [->|[_ Hs]]; [left; reflexivity | right; exact Hs]. }
    pose proof (frame_trans _ _ _ _ _ _ _ _ _ _ _ Fr2 Fr3) as Fr.
    destruct Fr2 as (F2 & C2 & E2 & U2 & N2). rewrite F2, C2, U2 in Fr.
    destruct Fr as (F3 & C3 & E3 & U3 & N3).
    destruct (catch_block_returns (stored_control w) v 0 (JsError (CantFindVersion v))
                _ w3 _ [] eq_refl C3) as (w4 & Hcatch & (F4 & C4 & E4 & U4 & N4)).
    { rewrite F3. reflexivity. }
    exists w4. split; [|split; [|split]].
    + rewrite Hguard, (try_catch_catches _ _ _ _ _ _ _ Hap). exact Hcatch.
    + rewrite E4, E3. simpl. rewrite <- app_assoc. reflexivity.
    + exact C4.
    + congruence.
Qed.

(* ------------------------------------------------------------------ *)
(** ** Failures inside the guarded region *)




(* ------------------------------------------------------------------ *)
(** ** Up to the latest version and back *)

Lemma invoked_app (d : direction) (a b : list Event) :
  invoked d (a ++ b) = invoked d a ++ invoked d b.
Proof.
  induction a as [|[| |v|[] v] a IH]; simpl; auto; destruct d; simpl; rewrite IH; auto.
Qed.

Lemma invoked_steps_events (d d' : direction) (l : list (step U)) :
  invoked d' (steps_events d l) =
    if match d, d' with Up, Up | Down, Down => true | _, _ => false end
    then map (fun st : step U => version (fst st)) l
    else [].
Proof.
  unfold steps_events.
  destruct d, d'; (induction l as [|st l IH]; [reflexivity|]);
    simpl; rewrite IH; reflexivity.
Qed.

Lemma map_fst_with_preceding (p : Z) (l : list (Migration U)) :
  map fst (with_preceding p l) = l.
Proof. revert p. induction l as [|m l IH]; intros p; simpl; [|rewrite IH]; auto. Qed.

Lemma parse_latest :
  parseCommand (CmdString "latest") = Ok {| cmd_version := inr tt; subcommand := None |}.
Proof. reflexivity. Qed.

Lemma migrateTo_latest (w : World U) :
  migrations self <> [] ->
  migrateTo self (CmdString "latest") w = _migrateTo self (Num (latest_version self)) false w.
Proof.
  intros Hne.
  rewrite (migrateTo_calls_the_engine (CmdString "latest") _ w Hne eq_refl parse_latest).
  cbv [subcommand_is subcommand cmd_version].
  destruct (_migrateTo self (Num (latest_version self)) false w) as [[r|x|c] w'];
    reflexivity.
Qed.

(** With distinct positive versions, the latest version is found at the
    last index. *)
Lemma latest_is_last :
  migrations self <> [] ->
  NoDup (map (@version U) (migrations self)) ->
  Forall (fun m : Migration U => 0 < version m) (migrations self) ->
  0 < latest_version self /\
  findIndexByVersion self (Num (latest_version self)) =
    Ok (Z.of_nat (List.length (migrations self)) - 1).
Proof.
  intros Hne Hnodup Hpos.
  assert (Hlen : (0 < List.length (migrations self))%nat)
    by (destruct (migrations self); [congruence | simpl; lia]).
  destruct (nth_error (migrations self) (List.length (migrations self) - 1))
    as [ml|] eqn:Hl; [|apply nth_error_None in Hl; lia].
  assert (Hlatest : latest_version self = version ml).
  { assert (Hat : at_index (migrations self)
                      (Z.of_nat (List.length (migrations self)) - 1) = Some ml).
    { apply at_index_Some. split; [lia|]. rewrite <- Hl. f_equal. lia. }
    unfold latest_version. rewrite Hat. reflexivity. }
  rewrite Forall_forall in Hpos.
  assert (Hpl : 0 < version ml) by (apply Hpos; eapply nth_error_In, Hl).
  split; [lia|].
  destruct (findIndexByVersion_registered (latest_version self)) as [i Hi].
  { lia. }
  { rewrite Hlatest. apply in_map. eapply nth_error_In, Hl. }
  rewrite Hi. f_equal.
  pose proof (findIndexByVersion_Ok_bounds _ _ Hi) as Bi.
  apply findIndexByVersion_Ok in Hi.
  destruct Hi as [[H0 _]|(z & m & Hz & _ & Hi0 & Hn & Hv & _)]; [inversion H0; lia|].
  inversion Hz; subst z.
  assert (Z.to_nat i = (List.length (migrations self) - 1)%nat).
  { apply (proj1 (NoDup_nth_error _) Hnodup).
    - rewrite length_map. lia.
    - rewrite !nth_error_map, Hn, Hl. simpl. congruence. }
  lia.
Qed.

Lemma forward_steps_all :
  forward_steps (migrations self) (-1) (Z.of_nat (List.length (migrations self)) - 1) =
    map (fun m => (m, version m)) (migrations self).
Proof.
  unfold forward_steps, slice. f_equal. simpl skipn. apply firstn_all2. lia.
Qed.

Lemma backward_steps_all :
  backward_steps (migrations self) (Z.of_nat (List.length (migrations self)) - 1) (-1) =
    rev (with_preceding 0 (migrations self)).
Proof.
  unfold backward_steps, slice. f_equal. simpl skipn. apply firstn_all2.
  rewrite length_with_preceding. lia.
Qed.

(** C9 (as amended).  Over a registry of distinct positive versions whose
    up actions, then down actions in reverse, all return: from the stored
    version 0, [migrateTo('latest')] followed by [migrateTo(0)] invokes
    every [up] in registry order, then every [down], each once, in the
    reverse of that order, and leaves the stored version 0 with the lock
    free.  (With a version registered twice, the second entry is reached
    in neither direction.) *)
Theorem round_trip_reverses_the_ups (w : World U) (u1 u2 : U) :
  faults w = [] ->
  migrations self <> [] ->
  NoDup (map (@version U) (migrations self)) ->
  Forall (fun m : Migration U => 0 < version m) (migrations self) ->
  ctl_version (stored_control w) = 0 ->
  locked (stored_control w) = false ->
  run_actions Up (migrations self) (user w) = Some u1 ->
  run_actions Down (rev (migrations self)) u1 = Some u2 ->
  exists r1 w1 r2 w2 ev1 ev2,
    migrateTo self (CmdString "latest") w = (Ok r1, w1) /\
    success r1 = true /\
    migrateTo self (CmdNumber (Num 0)) w1 = (Ok r2, w2) /\
    success r2 = true /\
    events w1 = events w ++ ev1 /\
    events w2 = events w1 ++ ev2 /\
    invoked Up ev1 = map (@version U) (migrations self) /\
    invoked Down ev1 = [] /\
    invoked Up ev2 = [] /\
    invoked Down ev2 = rev (invoked Up ev1) /\
    collection w2 =
      Some {| ctl_version := 0; locked := false; lockedAt := Some (now w) |} /\
    user w2 = u2.
Proof.
  intros Hrel Hne Hnodup Hpos Hv0 Hfree Hups Hdowns.
  destruct (latest_is_last Hne Hnodup Hpos) as [Hlpos Hlast].
  assert (Hnpos : 0 < Z.of_nat (List.length (migrations self)))
    by (destruct (migrations self); [congruence | simpl List.length; lia]).
  set (n := Z.of_nat (List.length (migrations self))) in *.
  set (latest := latest_version self) in *.
  (* the run up *)
  destruct (run_reaches latest w (-1) (n - 1) Up
              (map (fun m => (m, version m)) (migrations self)) [] u1 [])
    as (wa & wb & Hrun1 & Hap1 & Fr1); auto.
  { lia. }
  { rewrite Hv0. reflexivity. }
  { unfold planned_steps. rewrite Hv0.
    replace (0 <? latest) with true by (symmetry; apply Z.ltb_lt; lia).
    subst n. rewrite forward_steps_all, app_nil_r. reflexivity. }
  { rewrite map_fst_own_version. exact Hups. }
  { driver_answers. }
  destruct Fr1 as (F1 & C1 & E1 & U1 & N1).
  simpl perform_all in Hap1.
  destruct (try_catch_returns (stored_control w) (Num latest) false wa wb _ _ [] Hap1 C1)
    as (w1 & Htry1 & (F1' & C1' & E1' & U1' & N1')).
  { rewrite F1. reflexivity. }
  (* the state in between *)
  assert (Hlastv : last (map snd (map (fun m : Migration U => (m, version m))
                                    (migrations self)))
                     (ctl_version (stored_control w)) = latest).
  { pose proof forward_steps_all as Hall. fold n in Hall. rewrite <- Hall.
    rewrite (forward_steps_last (-1) (n - 1)); [|lia|lia|subst n; lia].
    apply version_at_found, Hlast. }
  assert (Hsc1 : stored_control w1 =
                 {| ctl_version := latest; locked := false;
                    lockedAt := Some (now w) |}).
  { unfold stored_control. rewrite C1'. unfold unlocked, versioned, locked_at. simpl.
    f_equal. exact Hlastv. }
  (* the run down *)
  destruct (run_reaches 0 w1 (n - 1) (-1) Down
              (rev (with_preceding 0 (migrations self))) [] u2 [])
    as (wc & wd & Hrun2 & Hap2 & Fr2).
  { rewrite Hsc1. reflexivity. }
  { rewrite Hsc1. simpl. lia. }
  { rewrite Hsc1. exact Hlast. }
  { reflexivity. }
  { unfold planned_steps. rewrite Hsc1. simpl ctl_version.
    replace (latest <? 0) with false by (symmetry; apply Z.ltb_ge; lia).
    subst n. rewrite backward_steps_all, app_nil_r. reflexivity. }
  { rewrite map_rev, map_fst_with_preceding, U1', U1. exact Hdowns. }
  { driver_answers. }
  destruct Fr2 as (F2 & C2 & E2 & U2 & N2).
  simpl perform_all in Hap2.
  destruct (try_catch_returns (stored_control w1) (Num 0) false wc wd _ _ [] Hap2 C2)
    as (w2 & Htry2 & (F2' & C2' & E2' & U2' & N2')).
  { rewrite F2. reflexivity. }
  assert (Hlast0 : last (map snd (rev (with_preceding 0 (migrations self))))
                     (ctl_version (stored_control w1)) = 0).
  { pose proof backward_steps_all as Hall. fold n in Hall. rewrite <- Hall.
    rewrite (backward_steps_last (n - 1) (-1)); [|lia|lia|subst n; lia].
    reflexivity. }
  eexists _, w1, _, w2,
    (EvLock :: steps_events Up (map (fun m => (m, version m)) (migrations self))
       ++ [EvUnlock]),
    (EvLock :: steps_events Down (rev (with_preceding 0 (migrations self)))
       ++ [EvUnlock]).
  assert (Hup1 : invoked Up
            (EvLock :: steps_events Up (map (fun m : Migration U => (m, version m))
                                          (migrations self)) ++ [EvUnlock])
          = map (@version U) (migrations self)).
  { simpl invoked. rewrite invoked_app, invoked_steps_events. simpl.
    rewrite app_nil_r, map_map. reflexivity. }
  split; [rewrite (migrateTo_latest w Hne); fold latest; rewrite Hrun1; exact Htry1|].
  split; [reflexivity|].
  split; [rewrite (migrateTo_number (Num 0) w1 Hne), Hrun2; exact Htry2|].
  split; [reflexivity|].
  split; [rewrite E1', E1, <- app_assoc; reflexivity|].
  split; [rewrite E2', E2, <- app_assoc; reflexivity|].
  split; [exact Hup1|].
  split; [simpl invoked; rewrite invoked_app, invoked_steps_events; reflexivity|].
  split; [simpl invoked; rewrite invoked_app, invoked_steps_events; reflexivity|].
  split.
  { rewrite Hup1. simpl invoked. rewrite invoked_app, invoked_steps_events. simpl.
    rewrite app_nil_r, map_rev. f_equal.
    rewrite <- (map_fst_with_preceding 0 (migrations self)) at 2.
    rewrite map_map. reflexivity. }
  split.
  { rewrite C2'. unfold unlocked, versioned, locked_at. simpl. f_equal. f_equal.
    - exact Hlast0.
    - f_equal. congruence. }
  congruence.
Qed.

(* ------------------------------------------------------------------ *)
(** ** The methods under any fault schedule *)

Lemma later_refl (fs : list (option exn)) : later fs fs.
Proof. exists []. reflexivity. Qed.

Lemma later_trans (a b c : list (option exn)) : later a b -> later b c -> later a c.
Proof. intros [u ->] [u' ->]. exists (u ++ u'). apply app_assoc. Qed.

Lemma later_nil (fs : list (option exn)) : later [] fs -> fs = [].
Proof. intros [u H]. symmetry in H. apply app_eq_nil in H. apply H. Qed.

Lemma later_In (a b : list (option exn)) (x : option exn) :
  later a b -> In x b -> In x a.
Proof. intros [u ->] H. apply in_or_app. right. exact H. Qed.

Lemma calm_stays_calm (a b : list (option exn)) : later a b -> a = [] -> b = [].
Proof. intros H ->. apply later_nil, H. Qed.

Lemma steady_refl (w : World U) : steady w w.
Proof. unfold steady. repeat split; auto. apply later_refl. Qed.

Lemma steady_trans (w1 w2 w3 : World U) :
  steady w1 w2 -> steady w2 w3 -> steady w1 w3.
Proof.
  unfold steady. intros (N1 & L1 & U1 & F1) (N2 & L2 & U2 & F2).
  repeat split; try congruence. eapply later_trans; eassumption.
Qed.

(** Splits on the next entry of the fault schedule and on the stored
    record, and computes the request. *)
Ltac next_request w :=
  unfold bind, emit, ret, updateOne, findOne, deleteMany, request, steady; simpl;
  destruct (faults w) as [|[?e|] ?r] eqn:?F; simpl;
  destruct (collection w) as [?c|] eqn:?C; simpl.

(** Closes what is left once a request is computed. *)
Ltac scheduled :=
  solve [ repeat match goal with
                 | H : faults ?w = _ |- context [faults ?w] => rewrite H
                 end;
          repeat split; auto;
          try (unfold later; simpl;
               first [ exists []; reflexivity
                     | eexists [_]; reflexivity
                     | eexists [_; _]; reflexivity ]);
          try (simpl; tauto); try discriminate ].

(** [lock()]: the request fails and nothing is stored, or the record is
    taken if it is there and free. *)
Lemma lock_cases (w : World U) :
  (exists w',
      lock self w = (Ok (match collection w with
                         | Some c => negb (locked c)
                         | None => false
                         end), w') /\
      collection w' = option_map (fun c => if locked c then c else locked_at (now w) c)
                        (collection w) /\
      events w' = events w ++ [EvLock] /\ steady w w') \/
  (exists e w',
      lock self w = (Throw e, w') /\ collection w' = collection w /\
      events w' = events w ++ [EvLock] /\ steady w w' /\ In (Some e) (faults w)).
Proof.
  unfold lock. rewrite connected. next_request w.
  all: try (right; do 2 eexists; split; [reflexivity|]; simpl;
            scheduled).
  all: left; unfold matches, same_document, apply_set, locked_at; simpl;
       try destruct (locked c) eqn:L; simpl; rewrite ?Z.eqb_refl; simpl;
       eexists; (split; [reflexivity|]); simpl; rewrite ?C, ?L; simpl.
  all: scheduled.
Qed.

(** [unlock()]: the request fails, or the record is released if there is
    one. *)
Lemma unlock_cases (w : World U) :
  (exists w',
      unlock self w = (Ok tt, w') /\
      collection w' = option_map (@unlocked) (collection w) /\
      events w' = events w ++ [EvUnlock] /\ steady w w') \/
  (exists e w',
      unlock self w = (Throw e, w') /\ collection w' = collection w /\
      events w' = events w ++ [EvUnlock] /\ steady w w' /\ In (Some e) (faults w)).
Proof.
  unfold unlock. rewrite connected. next_request w.
  all: try (right; do 2 eexists; split; [reflexivity|]; simpl;
            scheduled).
  all: left; unfold matches, apply_set, unlocked; simpl;
       eexists; (split; [reflexivity|]); simpl; rewrite ?C; simpl;
       scheduled.
Qed.

(** [updateVersion(v)]: the request fails, or the version is written if
    there is a record to write it to. *)
Lemma updateVersion_cases (v : Z) (w : World U) :
  (exists w',
      updateVersion self v w = (Ok tt, w') /\
      collection w' = option_map (versioned v) (collection w) /\
      events w' = events w ++ [EvUpdateVersion v] /\ steady w w') \/
  (exists e w',
      updateVersion self v w = (Throw e, w') /\ collection w' = collection w /\
      events w' = events w ++ [EvUpdateVersion v] /\ steady w w' /\ In (Some e) (faults w)).
Proof.
  unfold updateVersion. rewrite connected. next_request w.
  all: try (right; do 2 eexists; split; [reflexivity|]; simpl;
            scheduled).
  all: left; unfold matches, apply_set, versioned; simpl;
       eexists; (split; [reflexivity|]); simpl; rewrite ?C; simpl;
       scheduled.
Qed.

(** [_getControl()]: a request fails and the collection is as it was, or
    the stored record is returned, created first if missing. *)
Lemma getControl_cases (w : World U) :
  (exists w',
      _getControl self w = (Ok (stored_control w), w') /\
      collection w' = Some (stored_control w) /\
      events w' = events w /\ steady w w') \/
  (exists e w',
      _getControl self w = (Throw e, w') /\ collection w' = collection w /\
      events w' = events w /\ steady w w' /\ In (Some e) (faults w)).
Proof.
  unfold _getControl, _setControl, stored_control. rewrite connected.
  next_request w.
  all: try (right; do 2 eexists; split; [reflexivity|]; simpl;
            scheduled).
  all: try (left; eexists; split; [reflexivity|]; simpl; rewrite ?C; simpl;
            scheduled).
  - rewrite F, C. simpl. left.
    eexists. split; [reflexivity|]. simpl. scheduled.
  - destruct r as [|[e|] r']; simpl; rewrite ?F, ?C; simpl.
    + left. eexists. split; [reflexivity|]. simpl. scheduled.
    + right. do 2 eexists. split; [reflexivity|]. simpl.
      scheduled.
    + left. eexists. split; [reflexivity|]. simpl. scheduled.
Qed.

(** The logger touches the log only, and not even that when silenced. *)
Lemma Logger_log_effect (l : level) (msg : logline) (w : World U) :
  exists w',
    Logger_log (options self) l msg w = (Ok tt, w') /\
    collection w' = collection w /\ faults w' = faults w /\
    events w' = events w /\ user w' = user w /\ now w' = now w /\
    (log (options self) = false -> logs w' = logs w).
Proof.
  unfold Logger_log. destruct (log (options self)).
  - eexists. split; [reflexivity|]. simpl. repeat split; auto. discriminate.
  - exists w. repeat split; auto.
Qed.

(** [runMigration]: it sends no request; when it returns, the index held a
    migration; what it throws is an [Error] of its own or comes from the
    action. *)
Lemma runMigration_effect (d : direction) (i : Z) (w : World U) :
  exists o w',
    runMigration self d i w = (o, w') /\
    collection w' = collection w /\ faults w' = faults w /\ now w' = now w /\
    (log (options self) = false -> logs w' = logs w) /\
    (exists evs, events w' = events w ++ evs /\ forallb is_step_event evs = true) /\
    (forall a, o = Ok a -> exists m, at_index (migrations self) i = Some m) /\
    (forall x, o = Throw x -> raised_in_try self [] x).
Proof.
  unfold runMigration.
  destruct (at_index (migrations self) i) as [m|] eqn:Hi.
  - destruct (get_action m d) as [f|] eqn:Ha.
    + destruct (Logger_log_effect info (Running d (version m) (shown_name m)) w)
        as (w1 & Hlog & C1 & F1 & E1 & U1 & N1 & L1).
      unfold Logger_info, bind. rewrite Hlog. unfold emit, invoke. simpl.
      destruct (f (user w1)) as [o u'] eqn:Hf.
      do 2 eexists. split; [reflexivity|]. simpl.
      repeat split; auto.
      * exists [EvInvoke d (version m)]. rewrite E1. auto.
      * intros _ _. exists m. reflexivity.
      * intros x ->. right. right. exists m, d, f, (user w1), u'.
        split; [|split; [exact Ha | exact Hf]].
        apply at_index_Some in Hi. destruct Hi as [_ Hi]. eapply nth_error_In, Hi.
    + do 2 eexists. split; [reflexivity|]. repeat split; auto.
      * exists []. rewrite app_nil_r. auto.
      * discriminate.
      * intros x Hx. inversion Hx. right. left. eexists. reflexivity.
  - do 2 eexists. split; [reflexivity|]. repeat split; auto.
    + exists []. rewrite app_nil_r. auto.
    + discriminate.
    + intros x Hx. inversion Hx. right. left. eexists. reflexivity.
Qed.

(* ------------------------------------------------------------------ *)
(** ** The apply phase under any fault schedule *)

Lemma in_ledger_refl (a : Z) : in_ledger self a a.
Proof. left. reflexivity. Qed.

Lemma in_ledger_trans (a b c : Z) :
  in_ledger self a b -> in_ledger self b c -> in_ledger self a c.
Proof.
  unfold in_ledger. intros Hab [->|[->|H]]; auto.
Qed.

Lemma apply_rel_refl (w : World U) : apply_rel self w w.
Proof.
  unfold apply_rel. split; [reflexivity|]. split; [apply later_refl|].
  split; [auto|]. split.
  - exists []. rewrite app_nil_r. auto.
  - intros c Hc. exists c. repeat split; auto. apply in_ledger_refl.
Qed.

Lemma apply_rel_trans (w1 w2 w3 : World U) :
  apply_rel self w1 w2 -> apply_rel self w2 w3 -> apply_rel self w1 w3.
Proof.
  unfold apply_rel.
  intros (N1 & F1 & L1 & (e1 & E1 & S1) & C1) (N2 & F2 & L2 & (e2 & E2 & S2) & C2).
  split; [congruence|]. split; [eapply later_trans; eassumption|].
  split; [intros H; rewrite (L2 H); auto|]. split.
  - exists (e1 ++ e2). rewrite E2, E1, app_assoc, forallb_app, S1, S2. auto.
  - intros c Hc. destruct (C1 c Hc) as (c' & Hc' & Lk1 & La1 & V1).
    destruct (C2 c' Hc') as (c'' & Hc'' & Lk2 & La2 & V2).
    exists c''. repeat split; try congruence.
    eapply in_ledger_trans; eassumption.
Qed.

Lemma raised_later (a b : list (option exn)) (x : exn) :
  later a b -> raised_in_try self b x -> raised_in_try self a x.
Proof.
  intros Hl [H|H]; [left; eapply later_In; eassumption | right; exact H].
Qed.

Lemma raised_anywhere (fs : list (option exn)) (x : exn) :
  raised_in_try self [] x -> raised_in_try self fs x.
Proof. intros [[]|H]. right. exact H. Qed.

(** Writing a registered version, or 0, is within what the apply phase may
    do; the error it throws is the driver's. *)
Lemma updateVersion_rel (v : Z) (w : World U) :
  v = 0 \/ In v (map (@version U) (migrations self)) ->
  apply_rel self w (snd (updateVersion self v w)) /\
  (forall x, fst (updateVersion self v w) = Throw x -> raised_in_try self (faults w) x).
Proof.
  intros Hv.
  destruct (updateVersion_cases v w)
    as [(w' & H & C & E & (N & L & _ & F))|(e & w' & H & C & E & (N & L & _ & F) & Hin)];
    rewrite H; simpl; (split; [|intros x Hx; inversion Hx; subst; try (left; assumption)]);
    unfold apply_rel; repeat split; auto.
  - exists [EvUpdateVersion v]. auto.
  - intros c Hc. rewrite C, Hc. simpl. exists (versioned v c).
    repeat split; auto. right. exact Hv.
  - exists [EvUpdateVersion v]. auto.
  - intros c Hc. rewrite C, Hc. exists c. repeat split; auto. apply in_ledger_refl.
Qed.

Lemma runMigration_rel (d : direction) (i : Z) (w : World U) :
  apply_rel self w (snd (runMigration self d i w)) /\
  (forall x, fst (runMigration self d i w) = Throw x -> raised_in_try self (faults w) x).
Proof.
  destruct (runMigration_effect d i w) as (o & w' & H & C & F & N & L & E & _ & Hx).
  rewrite H. simpl. split.
  - unfold apply_rel. repeat split; auto.
    + rewrite F. apply later_refl.
    + intros c Hc. exists c. rewrite C. repeat split; auto. apply in_ledger_refl.
  - intros x Ho. apply raised_anywhere, Hx, Ho.
Qed.

Lemma at_index_registered (i : Z) (m : Migration U) :
  at_index (migrations self) i = Some m -> In (version m) (map (@version U) (migrations self)).
Proof.
  intros H. apply at_index_Some in H. destruct H as [_ H].
  apply in_map. eapply nth_error_In, H.
Qed.

(** One step after the other stays within the relation, and what the
    second throws is traced back to the schedule at the start. *)
Lemma then_rel (m : M U unit) (k : M U unit) (w : World U) :
  (apply_rel self w (snd (m w)) /\
   (forall x, fst (m w) = Throw x -> raised_in_try self (faults w) x)) ->
  (forall w1, apply_rel self w1 (snd (k w1)) /\
              (forall x, fst (k w1) = Throw x -> raised_in_try self (faults w1) x)) ->
  apply_rel self w (snd (bind m (fun _ => k) w)) /\
  (forall x, fst (bind m (fun _ => k) w) = Throw x -> raised_in_try self (faults w) x).
Proof.
  intros [R X] Hk. unfold bind.
  destruct (m w) as [[[]|e|c] w1]; simpl in *.
  - destruct (Hk w1) as [R' X']. split.
    + eapply apply_rel_trans; eassumption.
    + intros x Hx. eapply raised_later; [|apply X', Hx].
      destruct R as (_ & F & _). exact F.
  - split; [exact R | exact X].
  - split; [exact R | discriminate].
Qed.

Lemma up_body_rel (i : Z) (w : World U) :
  apply_rel self w (snd (up_body self i w)) /\
  (forall x, fst (up_body self i w) = Throw x -> raised_in_try self (faults w) x).
Proof.
  unfold up_body. apply then_rel; [apply runMigration_rel|].
  intros w1. destruct (at_index (migrations self) i) as [m|] eqn:Hi.
  - apply updateVersion_rel. right. eapply at_index_registered, Hi.
  - simpl. split; [apply apply_rel_refl | discriminate].
Qed.

Lemma down_body_rel (i : Z) (w : World U) :
  apply_rel self w (snd (down_body self i w)) /\
  (forall x, fst (down_body self i w) = Throw x -> raised_in_try self (faults w) x).
Proof.
  unfold down_body. apply then_rel; [apply runMigration_rel|].
  intros w1. apply updateVersion_rel.
  destruct (at_index (migrations self) (i - 1)) as [m|] eqn:Hi; [|left; reflexivity].
  right. eapply at_index_registered, Hi.
Qed.

(** A loop whose iterations stay within the relation stays within it, and
    counts at most its iterations. *)
Lemma for_loop_rel (next : Z -> Z) (body : Z -> M U unit) :
  (forall i w, apply_rel self w (snd (body i w)) /\
               (forall x, fst (body i w) = Throw x -> raised_in_try self (faults w) x)) ->
  forall (n : nat) (i run : Z) (w : World U),
    apply_rel self w (snd (snd (for_loop n i next body run w))) /\
    run <= fst (for_loop n i next body run w) <= run + Z.of_nat n /\
    (forall x, fst (snd (for_loop n i next body run w)) = Throw x ->
               raised_in_try self (faults w) x).
Proof.
  intros Hbody. induction n as [|n IH]; intros i run w.
  - simpl. split; [apply apply_rel_refl|]. split; [lia | discriminate].
  - simpl for_loop. destruct (Hbody i w) as [R X].
    destruct (body i w) as [[[]|e|k] w1]; simpl in R, X.
    + destruct (IH (next i) (run + 1) w1) as (R' & B & X').
      split; [eapply apply_rel_trans; eassumption|]. split; [lia|].
      intros x Hx. eapply raised_later; [|apply X', Hx].
      destruct R as (_ & F & _). exact F.
    + simpl. split; [exact R|]. split; [lia | exact X].
    + simpl. split; [exact R|]. split; [lia | discriminate].
Qed.

Lemma Logger_rel (l : level) (msg : logline) (w : World U) :
  exists w1,
    Logger_log (options self) l msg w = (Ok tt, w1) /\ apply_rel self w w1 /\
    collection w1 = collection w /\ faults w1 = faults w.
Proof.
  destruct (Logger_log_effect l msg w) as (w1 & Hlog & C1 & F1 & E1 & U1 & N1 & L1).
  exists w1. split; [exact Hlog|]. split; [|auto].
  unfold apply_rel. split; [exact N1|]. split; [rewrite F1; apply later_refl|].
  split; [exact L1|]. split.
  - exists []. rewrite app_nil_r. split; [exact E1 | reflexivity].
  - intros c Hc. exists c. rewrite C1. repeat split; auto. apply in_ledger_refl.
Qed.

(** The apply phase: it stays within the relation, counts at most as many
    steps as the registry holds migrations, a rerun sends no request, and
    what it throws is an error of the driver, an [Error], or comes from an
    action. *)
Lemma apply_phase_rel (cur : Z) (v : number) (rerun : bool) (w : World U) :
  apply_rel self w (snd (snd (apply_phase self cur v rerun w))) /\
  0 <= fst (apply_phase self cur v rerun w) <= Z.of_nat (List.length (migrations self)) /\
  (rerun = true ->
   collection (snd (snd (apply_phase self cur v rerun w))) = collection w /\
   faults (snd (snd (apply_phase self cur v rerun w))) = faults w) /\
  (forall x, fst (snd (apply_phase self cur v rerun w)) = Throw x ->
             raised_in_try self (faults w) x).
Proof.
  assert (Hlookup : forall n x, findIndexByVersion self n = Throw x ->
                                raised_in_try self (faults w) x).
  { intros n x. unfold findIndexByVersion.
    destruct (strict_eq n (Num 0)); [discriminate|].
    destruct (_ =? -1); [|discriminate].
    intros H. inversion H. right. left. eexists. reflexivity. }
  unfold apply_phase. destruct rerun.
  - destruct (Logger_rel info (Rerunning v) w) as (w1 & Hlog & R1 & C1 & F1).
    unfold Logger_info, bind. rewrite Hlog. unfold lift.
    destruct (findIndexByVersion self v) as [idx|e|k] eqn:Hidx; simpl.
    + destruct (runMigration_rel Up idx w1) as [R X].
      destruct (runMigration_effect Up idx w1) as (o & w2 & H & C & F & _ & _ & _ & Hm & _).
      rewrite H in *. simpl in R, X.
      assert (R2 : apply_rel self w w2) by (eapply apply_rel_trans; eassumption).
      destruct o as [[]|e|k]; simpl;
        (split; [exact R2|]); (split; [|split; [intros _; split; congruence|]]);
        try lia; try discriminate.
      * destruct (Hm tt eq_refl) as (m & Hi). apply at_index_Some in Hi.
        destruct Hi as [_ Hi].
        assert (Z.to_nat idx < List.length (migrations self))%nat
          by (apply nth_error_Some; congruence).
        lia.
      * rewrite <- F1. exact X.
    + split; [exact R1|]. split; [lia|]. split; [intros _; split; congruence|].
      intros x Hx. inversion Hx; subst. eapply Hlookup, Hidx.
    + split; [exact R1|]. split; [lia|]. split; [intros _; split; congruence|].
      discriminate.
  - destruct (findIndexByVersion self (Num cur)) as [s|e|k] eqn:Hs.
    2:{ simpl. split; [apply apply_rel_refl|]. split; [lia|]. split; [discriminate|].
        intros x Hx. inversion Hx; subst. eapply Hlookup, Hs. }
    2:{ simpl. split; [apply apply_rel_refl|]. split; [lia|].
        split; discriminate. }
    destruct (findIndexByVersion self v) as [t|e|k] eqn:Ht.
    2:{ simpl. split; [apply apply_rel_refl|]. split; [lia|]. split; [discriminate|].
        intros x Hx. inversion Hx; subst. eapply Hlookup, Ht. }
    2:{ simpl. split; [apply apply_rel_refl|]. split; [lia|].
        split; discriminate. }
    pose proof (findIndexByVersion_Ok_bounds _ _ Hs) as Bs.
    pose proof (findIndexByVersion_Ok_bounds _ _ Ht) as Bt.
    destruct (Logger_rel info (MigratingFromTo (version_at self s) (version_at self t)) w)
      as (w1 & Hlog & R1 & C1 & F1).
    unfold Logger_info. rewrite Hlog.
    destruct (less_than (Num cur) v).
    + destruct (for_loop_rel Z.succ (up_body self) up_body_rel
                  (Z.to_nat (t - s)) (s + 1) 0 w1) as (R & B & X).
      split; [exact (apply_rel_trans _ _ _ R1 R)|]. split; [lia|].
      split; [discriminate|]. rewrite <- F1. exact X.
    + destruct (for_loop_rel Z.pred (down_body self) down_body_rel
                  (Z.to_nat (s - (if t =? -1 then -1 else t))) s 0 w1) as (R & B & X).
      split; [exact (apply_rel_trans _ _ _ R1 R)|].
      split; [destruct (t =? -1); lia|].
      split; [discriminate|]. rewrite <- F1. exact X.
Qed.

Lemma quiet_refl (w : World U) : quiet self w w.
Proof. unfold quiet. repeat split; auto. apply later_refl. Qed.

Lemma quiet_trans (w1 w2 w3 : World U) :
  quiet self w1 w2 -> quiet self w2 w3 -> quiet self w1 w3.
Proof.
  unfold quiet. intros (N1 & U1 & F1 & L1) (N2 & U2 & F2 & L2).
  repeat split; try congruence.
  - eapply later_trans; eassumption.
  - intros H. rewrite (L2 H). auto.
Qed.

Lemma steady_quiet (w w' : World U) : steady w w' -> quiet self w w'.
Proof. unfold steady, quiet. intros (N & L & Us & F). repeat split; auto. Qed.

Lemma Logger_log_quiet (l : level) (msg : logline) (w : World U) :
  exists w',
    Logger_log (options self) l msg w = (Ok tt, w') /\
    collection w' = collection w /\ events w' = events w /\ quiet self w w'.
Proof.
  destruct (Logger_log_effect l msg w) as (w' & H & C & F & E & Us & N & L).
  exists w'. unfold quiet. repeat split; auto. rewrite F. apply later_refl.
Qed.

(** The [catch] block: the failure is returned as a result; or the release
    fails and the error of the release is thrown; or the lock is released
    and the value caught cannot be rendered, and what [String()] throws on
    it is thrown. *)
Lemma catch_block_cases (control : ControlDocument) (v : number) (run : Z) (e : exn)
    (w : World U) :
  (exists reported w',
      as_Error e = Ok reported /\
      catch_block self control v run e w =
        (Ok {| success := false; fromVersion := ctl_version control; toVersion := v;
               migrationsRun := run; error := Some reported |}, w') /\
      collection w' = option_map (@unlocked) (collection w) /\
      events w' = events w ++ [EvUnlock] /\ quiet self w w') \/
  (exists e' w',
      catch_block self control v run e w = (Throw e', w') /\
      collection w' = collection w /\
      events w' = events w ++ [EvUnlock] /\ quiet self w w' /\ In (Some e') (faults w)) \/
  (exists raised w',
      e = JsUnprintable raised /\
      catch_block self control v run e w = (Throw raised, w') /\
      collection w' = option_map (@unlocked) (collection w) /\
      events w' = events w ++ [EvUnlock] /\ quiet self w w').
Proof.
  unfold catch_block, bind.
  destruct (unlock_cases w) as [(w1 & H & C & E & S)|(e' & w1 & H & C & E & S & Hf)];
    rewrite H.
  - destruct e as [msg|str|raised].
    + left. destruct (Logger_log_quiet error_level (MigrationFailed msg) w1)
        as (w2 & Hl & C2 & E2 & Q2).
      unfold lift, Logger_error. simpl. rewrite Hl. unfold ret.
      exists (JsError msg), w2. split; [reflexivity|]. split; [reflexivity|].
      split; [congruence|]. split; [congruence|].
      eapply quiet_trans; [apply steady_quiet, S | exact Q2].
    + left. destruct (Logger_log_quiet error_level (MigrationFailed (Text str)) w1)
        as (w2 & Hl & C2 & E2 & Q2).
      unfold lift, Logger_error. simpl. rewrite Hl. unfold ret.
      exists (JsError (Text str)), w2. split; [reflexivity|]. split; [reflexivity|].
      split; [congruence|]. split; [congruence|].
      eapply quiet_trans; [apply steady_quiet, S | exact Q2].
    + right. right. exists raised, w1. split; [reflexivity|]. split; [reflexivity|].
      split; [exact C|]. split; [exact E | apply steady_quiet, S].
  - right. left. exists e', w1. split; [reflexivity|].
    split; [exact C|]. split; [exact E|]. split; [apply steady_quiet, S | exact Hf].
Qed.

Lemma under_lock_app (body tail : list Event) :
  forallb is_step_event body = true -> under_lock tail = true ->
  under_lock (body ++ tail) = true.
Proof.
  induction body as [|a body IH]; simpl; intros Hb Ht; [exact Ht|].
  apply andb_prop in Hb. destruct Hb as [Ha Hb].
  rewrite Ha, (IH Hb Ht). reflexivity.
Qed.

Lemma under_lock_steps (body : list Event) :
  forallb is_step_event body = true -> under_lock body = true.
Proof.
  intros H. rewrite <- (app_nil_r body). apply under_lock_app; auto.
Qed.

Lemma as_Error_is_an_Error (e reported : exn) :
  as_Error e = Ok reported -> exists m, reported = JsError m.
Proof. destruct e; simpl; intros H; inversion H; eexists; reflexivity. Qed.

Lemma last_after_lock (evs : list Event) :
  last evs EvLock = EvUnlock -> last (EvLock :: evs) EvLock = EvUnlock.
Proof. destruct evs as [|x evs]; [discriminate | auto]. Qed.

(** The [try] block with its [catch] block, entered with the lock taken. *)
Lemma guarded_summary (control : ControlDocument) (v : number) (rerun : bool)
    (w : World U) (c : ControlDocument) :
  collection w = Some c ->
  exists o w',
    try_catch self control v rerun w = (o, w') /\
    now w' = now w /\
    (log (options self) = false -> logs w' = logs w) /\
    later (faults w) (faults w') /\
    (exists c', collection w' = Some c' /\
                in_ledger self (ctl_version c) (ctl_version c') /\
                (rerun = true -> ctl_version c' = ctl_version c) /\
                (forall r, o = Ok r -> locked c' = false) /\
                (forall e, o = Throw e ->
                   (In (Some e) (faults w) /\ locked c' = locked c) \/
                   (raised_in_try self (faults w) (JsUnprintable e) /\ locked c' = false))) /\
    (exists evs, events w' = events w ++ evs /\ under_lock evs = true /\
                 (forall r, o = Ok r -> last evs EvLock = EvUnlock) /\
                 (forall e, o = Throw e -> last evs EvLock = EvUnlock)) /\
    (forall r, o = Ok r ->
       toVersion r = v /\ fromVersion r = ctl_version control /\
       (success r = true <-> error r = None) /\
       (forall e, error r = Some e -> exists m, e = JsError m) /\
       0 <= migrationsRun r <= Z.of_nat (List.length (migrations self))).
Proof.
  intros Hc. unfold try_catch.
  destruct (apply_phase_rel (ctl_version control) v rerun w) as (R & B & Hrr & X3).
  destruct (apply_phase self (ctl_version control) v rerun w) as [run [o3 w3]].
  simpl in R, B, Hrr, X3.
  destruct R as (N3 & F3 & L3 & (ev3 & E3 & S3) & C3).
  destruct (C3 c Hc) as (c3 & Hc3 & Lk3 & La3 & V3).
  assert (Hv3 : rerun = true -> ctl_version c3 = ctl_version c).
  { intros Hr. destruct (Hrr Hr) as [Hcol _]. rewrite Hc3, Hc in Hcol.
    inversion Hcol. reflexivity. }
  assert (Hcaught :
    forall e w4 ev4,
      raised_in_try self (faults w) e ->
      collection w4 = Some c3 ->
      now w4 = now w ->
      later (faults w) (faults w4) ->
      (log (options self) = false -> logs w4 = logs w) ->
      events w4 = events w ++ ev4 -> under_lock (ev4 ++ [EvUnlock]) = true ->
      exists o w',
        catch_block self control v run e w4 = (o, w') /\
        now w' = now w /\
        (log (options self) = false -> logs w' = logs w) /\
        later (faults w) (faults w') /\
        (exists c', collection w' = Some c' /\
                    in_ledger self (ctl_version c) (ctl_version c') /\
                    (rerun = true -> ctl_version c' = ctl_version c) /\
                    (forall r, o = Ok r -> locked c' = false) /\
                    (forall x, o = Throw x ->
                       (In (Some x) (faults w) /\ locked c' = locked c) \/
                       (raised_in_try self (faults w) (JsUnprintable x) /\
                        locked c' = false))) /\
        (exists evs, events w' = events w ++ evs /\ under_lock evs = true /\
                     (forall r, o = Ok r -> last evs EvLock = EvUnlock) /\
                     (forall x, o = Throw x -> last evs EvLock = EvUnlock)) /\
        (forall r, o = Ok r ->
           toVersion r = v /\ fromVersion r = ctl_version control /\
           (success r = true <-> error r = None) /\
           (forall e, error r = Some e -> exists m, e = JsError m) /\
           0 <= migrationsRun r <= Z.of_nat (List.length (migrations self)))).
  { intros e w4 ev4 Xe C4 N4 F4 L4 E4 T4.
    destruct (catch_block_cases control v run e w4)
      as [(reported & w5 & Hrep & Hcb & C5 & E5 & (Nq & Uq & Fq & Lq))
         |[(e' & w5 & Hcb & C5 & E5 & (Nq & Uq & Fq & Lq) & Hf5)
          |(raised & w5 & He & Hcb & C5 & E5 & (Nq & Uq & Fq & Lq))]];
      rewrite Hcb; do 2 eexists; (split; [reflexivity|]).
    - split; [congruence|].
      split; [intros H; rewrite (Lq H); auto|].
      split; [eapply later_trans; eassumption|].
      split.
      { exists (unlocked c3). rewrite C5, C4. simpl.
        split; [reflexivity|]. split; [exact V3|]. split; [exact Hv3|].
        split; [reflexivity | discriminate]. }
      split.
      { exists (ev4 ++ [EvUnlock]). rewrite E5, E4, app_assoc.
        split; [reflexivity|]. split; [exact T4|].
        split; [intros _ _; apply last_last | discriminate]. }
      intros r Hr. inversion Hr; subst r; simpl.
      split; [reflexivity|]. split; [reflexivity|].
      split; [split; discriminate|].
      split; [|lia].
      intros x Hx. inversion Hx; subst x. eapply as_Error_is_an_Error, Hrep.
    - split; [congruence|].
      split; [intros H; rewrite (Lq H); auto|].
      split; [eapply later_trans; eassumption|].
      split.
      { exists c3. rewrite C5, C4.
        split; [reflexivity|]. split; [exact V3|]. split; [exact Hv3|].
        split; [discriminate|].
        intros x Hx. inversion Hx; subst x. left.
        split; [eapply later_In; eassumption | exact Lk3]. }
      split.
      { exists (ev4 ++ [EvUnlock]). rewrite E5, E4, app_assoc.
        split; [reflexivity|]. split; [exact T4|].
        split; [discriminate | intros _ _; apply last_last]. }
      discriminate.
    - split; [congruence|].
      split; [intros H; rewrite (Lq H); auto|].
      split; [eapply later_trans; eassumption|].
      split.
      { exists (unlocked c3). rewrite C5, C4. simpl.
        split; [reflexivity|]. split; [exact V3|]. split; [exact Hv3|].
        split; [reflexivity|].
        intros x Hx. inversion Hx; subst x. right.
        split; [rewrite <- He; exact Xe | reflexivity]. }
      split.
      { exists (ev4 ++ [EvUnlock]). rewrite E5, E4, app_assoc.
        split; [reflexivity|]. split; [exact T4|].
        split; [discriminate | intros _ _; apply last_last]. }
      discriminate. }
  destruct o3 as [a|e|k].
  - unfold try_end, bind.
    destruct (unlock_cases w3)
      as [(w4 & Hu & C4 & E4 & (Nq & Lq & Uq & Fq))
         |(e & w4 & Hu & C4 & E4 & (Nq & Lq & Uq & Fq) & Hf4)];
      rewrite Hu.
    + destruct (Logger_log_quiet info Finished w4)
        as (w5 & Hl & C5 & E5 & (N5 & U5 & F5 & L5)).
      unfold Logger_info. rewrite Hl. unfold ret.
      do 2 eexists. split; [reflexivity|].
      split; [congruence|].
      split; [intros H; rewrite (L5 H), Lq; auto|].
      split; [eapply later_trans; [exact F3|]; eapply later_trans; eassumption|].
      split.
      { exists (unlocked c3). rewrite C5, C4, Hc3. simpl.
        split; [reflexivity|]. split; [exact V3|]. split; [exact Hv3|].
        split; [reflexivity | discriminate]. }
      split.
      { exists (ev3 ++ [EvUnlock]). rewrite E5, E4, E3, app_assoc.
        split; [reflexivity|].
        split; [apply under_lock_app; auto|].
        split; [intros _ _; apply last_last | discriminate]. }
      intros r Hr. inversion Hr; subst r; simpl.
      split; [reflexivity|]. split; [reflexivity|].
      split; [split; reflexivity|]. split; [discriminate | lia].
    + cbv iota beta.
      destruct (Hcaught e w4 (ev3 ++ [EvUnlock])) as (o & w' & H & P).
      * left. eapply later_In; eassumption.
      * congruence.
      * congruence.
      * eapply later_trans; eassumption.
      * intros H. rewrite Lq. auto.
      * rewrite E4, E3, app_assoc. reflexivity.
      * rewrite <- app_assoc. apply under_lock_app; auto.
      * exists o, w'. split; [exact H | exact P].
  - destruct (Hcaught e w3 ev3) as (o & w' & H & P); auto.
    + apply under_lock_app; auto.
    + exists o, w'. split; [exact H | exact P].
  - do 2 eexists. split; [reflexivity|].
    split; [exact N3|]. split; [exact L3|].
    split; [exact F3|].
    split.
    { exists c3. split; [exact Hc3|]. split; [exact V3|]. split; [exact Hv3|].
      split; discriminate. }
    split.
    { exists ev3. split; [exact E3|]. split; [apply under_lock_steps, S3|].
      split; discriminate. }
    discriminate.
Qed.

Lemma stored_control_of (w : World U) (c : ControlDocument) :
  collection w = Some c -> stored_control w = c.
Proof. unfold stored_control. intros ->. reflexivity. Qed.

(** Every call of [_migrateTo], whatever the registry, the target, the
    stored record and the fault schedule: what it leaves, what a returned
    result says, and how a rejection has come about. *)
Lemma run_summary (v : number) (rerun : bool) (w : World U) :
  exists o w',
    _migrateTo self v rerun w = (o, w') /\
    now w' = now w /\
    (log (options self) = false -> logs w' = logs w) /\
    later (faults w) (faults w') /\
    in_ledger self (ctl_version (stored_control w)) (ctl_version (stored_control w')) /\
    (rerun = true -> ctl_version (stored_control w') = ctl_version (stored_control w)) /\
    (exists evs, events w' = events w ++ evs /\ guarded_trace evs = true /\
                 (forall r, o = Ok r ->
                            evs = [] \/ evs = [EvLock] \/ last evs EvLock = EvUnlock) /\
                 (forall e, o = Throw e -> rejection self w w' evs e)) /\
    (forall r, o = Ok r ->
       toVersion r = v /\ fromVersion r = ctl_version (stored_control w) /\
       (success r = true <-> error r = None) /\
       (forall e, error r = Some e -> exists m, e = JsError m) /\
       0 <= migrationsRun r <= Z.of_nat (List.length (migrations self)) /\
       exists c', collection w' = Some c' /\ locked c' = locked (stored_control w)).
Proof.
  unfold _migrateTo. rewrite connected. unfold bind at 1.
  destruct (getControl_cases w)
    as [(w1 & H1 & C1 & E1 & (N1 & L1 & U1 & F1))
       |(e & w1 & H1 & C1 & E1 & (N1 & L1 & U1 & F1) & Hf1)];
    rewrite H1.
  2:{ do 2 eexists. split; [reflexivity|].
      assert (Hsame : stored_control w1 = stored_control w)
        by (unfold stored_control; rewrite C1; reflexivity).
      split; [exact N1|]. split; [intros _; exact L1|].
      split; [exact F1|].
      split; [rewrite Hsame; apply in_ledger_refl|].
      split; [intros _; rewrite Hsame; reflexivity|].
      split; [|discriminate].
      exists []. rewrite app_nil_r. split; [exact E1|]. split; [reflexivity|].
      split; [auto|].
      intros x Hx. inversion Hx; subst x. left. auto. }
  set (c := stored_control w) in *.
  destruct (negb rerun && strict_eq (Num (ctl_version c)) v) eqn:Hfast.
  - assert (Hnr : rerun = true -> False) by (intros ->; discriminate).
    assert (Hend : exists w2,
               (if shouldLogIfLatest (options self)
                then Logger_info (options self) (AlreadyAtVersion v)
                else ret tt) w1 = (Ok tt, w2) /\
               collection w2 = collection w1 /\ events w2 = events w1 /\
               quiet self w1 w2).
    { destruct (shouldLogIfLatest (options self)).
      - apply Logger_log_quiet.
      - exists w1. split; [reflexivity|]. split; [reflexivity|].
        split; [reflexivity | apply quiet_refl]. }
    destruct Hend as (w2 & H2 & C2 & E2 & (N2 & U2 & F2 & L2)).
    unfold bind. rewrite H2. unfold ret.
    do 2 eexists. split; [reflexivity|].
    assert (Hsc : stored_control w2 = c) by (apply stored_control_of; congruence).
    split; [congruence|].
    split; [intros H; rewrite (L2 H); exact L1|].
    split; [eapply later_trans; eassumption|].
    split; [rewrite Hsc; apply in_ledger_refl|].
    split; [intros _; rewrite Hsc; reflexivity|].
    split.
    { exists []. rewrite app_nil_r. split; [congruence|]. split; [reflexivity|].
      split; [auto | discriminate]. }
    intros r Hr. inversion Hr; subst r; simpl.
    split; [reflexivity|]. split; [reflexivity|].
    split; [split; reflexivity|]. split; [discriminate|]. split; [lia|].
    exists c. split; [congruence | reflexivity].
  - unfold bind at 1.
    destruct (lock_cases w1)
      as [(w2 & H2 & C2 & E2 & (N2 & L2 & U2 & F2))
         |(e & w2 & H2 & C2 & E2 & (N2 & L2 & U2 & F2) & Hf2)];
      rewrite H2.
    2:{ do 2 eexists. split; [reflexivity|].
        assert (Hsc : stored_control w2 = c) by (apply stored_control_of; congruence).
        split; [congruence|]. split; [intros _; congruence|].
        split; [eapply later_trans; eassumption|].
        split; [rewrite Hsc; apply in_ledger_refl|].
        split; [intros _; rewrite Hsc; reflexivity|].
        split; [|discriminate].
        exists [EvLock]. split; [congruence|]. split; [reflexivity|].
        split; [discriminate|].
        intros x Hx. inversion Hx; subst x. left.
        split; [auto|]. split; [eapply later_In; eassumption | exact Hsc]. }
    rewrite C1 in H2, C2 |- *. simpl in C2.
    destruct (locked c) eqn:Lk; cbv beta iota.
    + destruct (Logger_log_quiet info ControlLocked w2)
        as (w3 & H3 & C3 & E3 & (N3 & U3 & F3 & L3)).
      change (negb (negb true)) with true. cbv beta iota.
      unfold bind, Logger_info. rewrite H3. unfold ret.
      do 2 eexists. split; [reflexivity|].
      assert (Hsc : stored_control w3 = c) by (apply stored_control_of; congruence).
      split; [congruence|].
      split; [intros H; rewrite (L3 H); congruence|].
      split; [eapply later_trans; [exact F1|]; eapply later_trans; eassumption|].
      split; [rewrite Hsc; apply in_ledger_refl|].
      split; [intros _; rewrite Hsc; reflexivity|].
      split.
      { exists [EvLock]. split; [congruence|]. split; [reflexivity|].
        split; [auto | discriminate]. }
      intros r Hr. inversion Hr; subst r; simpl.
      split; [reflexivity|]. split; [reflexivity|].
      split; [split; discriminate|].
      split; [intros x Hx; inversion Hx; eexists; reflexivity|]. split; [lia|].
      exists c. split; [congruence | exact Lk].
    + change (negb (negb false)) with false. cbv beta iota.
      assert (F12 : later (faults w) (faults w2)) by (eapply later_trans; eassumption).
      destruct (guarded_summary c v rerun w2 (locked_at (now w1) c) C2)
        as (o & w3 & H3 & N3 & L3 & F3 & (c3 & C3 & V3 & R3 & K3 & X3) &
            (evs & E3 & T3 & La3 & Lx3) & P3).
      exists o, w3. split; [exact H3|].
      assert (Hsc : stored_control w3 = c3) by (apply stored_control_of; exact C3).
      split; [congruence|].
      split; [intros H; rewrite (L3 H); congruence|].
      split; [eapply later_trans; eassumption|].
      split; [rewrite Hsc; exact V3|].
      split; [intros H; rewrite Hsc; apply (R3 H)|].
      split.
      { exists (EvLock :: evs). rewrite E3, E2, E1, <- app_assoc.
        split; [reflexivity|]. split; [exact T3|].
        split.
        - intros r Hr. right. right. apply last_after_lock, (La3 r Hr).
        - intros x Hx. right. destruct (X3 x Hx) as [[Hin Hl]|[Hr Hl]].
          + left. split; [apply last_after_lock, (Lx3 x Hx)|].
            split; [eapply later_In; eassumption|].
            exists c3. split; [exact C3 | exact Hl].
          + right. split; [apply last_after_lock, (Lx3 x Hx)|].
            split; [eapply raised_later; eassumption|].
            exists c3. split; [exact C3 | exact Hl]. }
      intros r Hr. destruct (P3 r Hr) as (Pt & Pf & Ps & Pe & Pm).
      split; [exact Pt|]. split; [exact Pf|]. split; [exact Ps|].
      split; [exact Pe|]. split; [exact Pm|].
      exists c3. split; [exact C3|]. rewrite (K3 r Hr). reflexivity.
Qed.


(* ------------------------------------------------------------------ *)
(** ** What holds of every run *)

(** X4.  Whatever the registry, the target, the stored record and the
    faults of the driver, a result returned by [_migrateTo] is well formed:
    [toVersion] is the requested target, [fromVersion] the version stored
    on entry, [success] holds exactly when there is no [error], an [error]
    is an [Error] instance, and [migrationsRun] lies between 0 and the
    number of registered migrations. *)
Theorem returned_result_is_well_formed (v : number) (rerun : bool)
    (w w' : World U) (r : MigrationResult) :
  _migrateTo self v rerun w = (Ok r, w') ->
  toVersion r = v /\
  fromVersion r = ctl_version (stored_control w) /\
  (success r = true <-> error r = None) /\
  (forall e, error r = Some e -> exists m, e = JsError m) /\
  0 <= migrationsRun r <= Z.of_nat (List.length (migrations self)).
Proof.
  intros Hrun.
  destruct (run_summary v rerun w) as (o & w1 & H & _ & _ & _ & _ & _ & _ & P).
  rewrite Hrun in H. inversion H; subst o w1.
  destruct (P r eq_refl) as (Pt & Pf & Ps & Pe & Pm & _).
  auto.
Qed.

(** X5.  When [_migrateTo] returns a result, the control record is stored
    and its lock is as it was found: a run that took the lock has released
    it, a run that found it held has left it held. *)
Theorem returning_run_leaves_the_lock_as_found (v : number) (rerun : bool)
    (w w' : World U) (r : MigrationResult) :
  _migrateTo self v rerun w = (Ok r, w') ->
  exists c', collection w' = Some c' /\ locked c' = locked (stored_control w).
Proof.
  intros Hrun.
  destruct (run_summary v rerun w) as (o & w1 & H & _ & _ & _ & _ & _ & _ & P).
  rewrite Hrun in H. inversion H; subst o w1.
  destruct (P r eq_refl) as (_ & _ & _ & _ & _ & Pc).
  exact Pc.
Qed.

(** X6.  The version stored after a call of [_migrateTo], however it ends,
    is the version stored before, 0, or the version of a registered
    migration. *)
Theorem stored_version_stays_in_the_ledger (v : number) (rerun : bool)
    (w w' : World U) (o : outcome MigrationResult) :
  _migrateTo self v rerun w = (o, w') ->
  in_ledger self (ctl_version (stored_control w)) (ctl_version (stored_control w')).
Proof.
  intros Hrun.
  destruct (run_summary v rerun w) as (o1 & w1 & H & _ & _ & _ & Pl & _).
  rewrite Hrun in H. inversion H; subst o1 w1. exact Pl.
Qed.

(** X7.  With a driver that answers every request, the driver is left
    without faults, and [_migrateTo] rejects in one case only: an action
    has thrown a value that the [catch] block cannot render as text
    ([String()] of it throws, as for [Object.create(null)]); the promise
    then rejects with what the rendering threw, after the lock has been
    released.  Whatever else fails during the run is reported in the
    result (or the process exits inside an action). *)
Theorem reliable_driver_rejects_only_unprintable (v : number) (rerun : bool)
    (w w' : World U) (o : outcome MigrationResult) :
  faults w = [] ->
  _migrateTo self v rerun w = (o, w') ->
  faults w' = [] /\
  (forall e, o = Throw e ->
     thrown_by_an_action self (JsUnprintable e) /\
     exists c', collection w' = Some c' /\ locked c' = false).
Proof.
  intros Hrel Hrun.
  destruct (run_summary v rerun w)
    as (o1 & w1 & H & _ & _ & Pf & _ & _ & (evs & _ & _ & _ & Px) & _).
  rewrite Hrun in H. inversion H; subst o1 w1.
  rewrite Hrel in Pf.
  split; [apply later_nil, Pf|].
  intros e He. unfold rejection in Px. rewrite Hrel in Px.
  destruct (Px e He) as [(_ & [] & _)|[(_ & [] & _)|(_ & [[]|[[msg Hm]|Ha]] & Hc)]].
  - discriminate.
  - auto.
Qed.

(** X8.  A rerun never changes the stored version, whether it succeeds,
    fails or throws, and whatever version it reruns. *)
Theorem rerun_keeps_the_stored_version (v : number) (w w' : World U)
    (o : outcome MigrationResult) :
  _migrateTo self v true w = (o, w') ->
  ctl_version (stored_control w') = ctl_version (stored_control w).
Proof.
  intros Hrun.
  destruct (run_summary v true w) as (o1 & w1 & H & _ & _ & _ & _ & Pr & _).
  rewrite Hrun in H. inversion H; subst o1 w1. apply Pr. reflexivity.
Qed.

(** X9.  The calls of a run are ordered by the lock: the trace of
    [_migrateTo] is empty, or it starts with the one call of [lock()],
    every action and every version write comes after it, and only calls of
    [unlock()] (at most two) follow them.  When a result is returned and
    anything came after [lock()], the last call was [unlock()]. *)
Theorem actions_run_under_the_lock (v : number) (rerun : bool)
    (w w' : World U) (o : outcome MigrationResult) :
  _migrateTo self v rerun w = (o, w') ->
  exists evs,
    events w' = events w ++ evs /\ guarded_trace evs = true /\
    (forall r, o = Ok r -> evs = [] \/ evs = [EvLock] \/ last evs EvLock = EvUnlock).
Proof.
  intros Hrun.
  destruct (run_summary v rerun w)
    as (o1 & w1 & H & _ & _ & _ & _ & _ & (evs & E & T & La & _) & _).
  rewrite Hrun in H. inversion H; subst o1 w1. exists evs. auto.
Qed.

(** X10.  With the option [log: false] nothing is ever logged: a call of
    [migrateTo], whatever the command, the registry and the faults, leaves
    the log as it was. *)
Theorem silenced_logger_logs_nothing (c : command) (w : World U) :
  log (options self) = false ->
  logs (snd (migrateTo self c w)) = logs w.
Proof.
  intros Hlog. unfold migrateTo. rewrite connected.
  destruct (is_empty_command c || (Z.of_nat (List.length (migrations self)) =? 0));
    [reflexivity|].
  unfold bind at 1. unfold lift.
  destruct (parseCommand c) as [p|e|k]; try reflexivity.
  unfold bind.
  destruct (run_summary match cmd_version p with
                        | inr _ => Num (latest_version self)
                        | inl n => n
                        end (subcommand_is p "rerun") w)
    as (o & w1 & H & _ & Pl & _).
  rewrite H. destruct o as [r|e|k]; simpl; auto.
  destruct (subcommand_is p "exit"); simpl; auto.
Qed.

(* ------------------------------------------------------------------ *)
(** ** Reruns, the [exit] subcommand, rejected commands *)

(** X11.  A rerun of a registered version whose [up] returns, with the lock
    free and a driver that answers: [up] is invoked once, between [lock()]
    and [unlock()], [migrationsRun] is 1 and the stored version is left as
    it was, also when it differs from the version rerun. *)
Theorem rerun_invokes_one_up (z i : Z) (m : Migration U) (f : action U) (u' : U)
    (w : World U) :
  faults w = [] ->
  locked (stored_control w) = false ->
  findIndexByVersion self (Num z) = Ok i ->
  at_index (migrations self) i = Some m ->
  up m = Some f -> f (user w) = (Ok tt, u') ->
  exists w',
    _migrateTo self (Num z) true w =
      (Ok {| success := true; fromVersion := ctl_version (stored_control w);
             toVersion := Num z; migrationsRun := 1; error := None |}, w') /\
    events w' = events w ++ [EvLock; EvInvoke Up z; EvUnlock] /\
    collection w' = Some (unlocked (locked_at (now w) (stored_control w))) /\
    user w' = u'.
Proof.
  intros Hrel Hfree Hi Hat Hup Hf.
  assert (Hz : version m = z).
  { destruct (findIndexByVersion_Ok _ _ Hi) as [[_ ->]|(z' & m' & Hz' & _ & _ & Hn & Hv & _)].
    - discriminate.
    - apply at_index_Some in Hat. destruct Hat as [_ Hat].
      rewrite Hat in Hn. inversion Hn; subst m'. inversion Hz'. congruence. }
  destruct (migrateTo_enters_guarded (Num z) true w []) as (w2 & Fr2 & Hguard); auto.
  { driver_answers. }
  destruct Fr2 as (F2 & C2 & E2 & U2 & N2).
  destruct (Logger_info_frame (Rerunning (Num z)) w2)
    as (w3 & Hlog3 & (F3 & C3 & E3 & U3 & N3)).
  destruct (Logger_info_frame (Running Up (version m) (shown_name m)) w3)
    as (w4 & Hlog4 & (F4 & C4 & E4 & U4 & N4)).
  assert (Hap : apply_phase self (ctl_version (stored_control w)) (Num z) true w2 =
                (1, (Ok tt, with_user u'
                              (with_events (events w4 ++ [EvInvoke Up (version m)]) w4)))).
  { unfold apply_phase.
    unfold bind at 1. rewrite Hlog3. unfold bind at 1. unfold lift. rewrite Hi.
    unfold runMigration. rewrite Hat.
    change (get_action m Up) with (up m). rewrite Hup.
    unfold bind at 1. rewrite Hlog4. unfold bind at 1. unfold emit at 1.
    unfold invoke. simpl user. rewrite U4, U3, U2, Hf. reflexivity. }
  destruct (try_catch_returns (stored_control w) (Num z) true w2 _ 1
              (locked_at (now w) (stored_control w)) [] Hap)
    as (w5 & Htc & (F5 & C5 & E5 & U5 & N5)).
  { simpl. congruence. }
  { simpl. rewrite F4, F3, F2. reflexivity. }
  exists w5. rewrite Hguard. split; [exact Htc|].
  simpl in E5, U5.
  split; [rewrite E5, E4, E3, E2, Hz, !app_nil_r, <- !app_assoc; reflexivity|].
  split; [exact C5 | exact U5].
Qed.

Lemma exit_is_not_rerun (p : MigrationCommand) :
  subcommand_is p "exit" = true -> subcommand_is p "rerun" = false.
Proof.
  unfold subcommand_is. destruct (subcommand p) as [x|]; [|discriminate].
  intros H. apply String.eqb_eq in H. subst x. reflexivity.
Qed.

(** X12.  With the subcommand [exit], [migrateTo] never hands a result
    back: once the engine has returned, the process exits with code 0,
    whatever the result says, a failed run included; and such a run is
    never a rerun. *)
Theorem exit_subcommand_exits_with_code_0 (c : command) (p : MigrationCommand)
    (w : World U) :
  migrations self <> [] ->
  is_empty_command c = false ->
  parseCommand c = Ok p ->
  subcommand_is p "exit" = true ->
  (forall r w', migrateTo self c w <> (Ok r, w')) /\
  (forall r w',
      _migrateTo self
        match cmd_version p with
        | inr _ => Num (latest_version self)
        | inl n => n
        end false w = (Ok r, w') ->
      migrateTo self c w = (Exit 0, w')).
Proof.
  intros Hne Hc Hp Hexit.
  rewrite (migrateTo_calls_the_engine c p w Hne Hc Hp).
  rewrite (exit_is_not_rerun p Hexit), Hexit.
  split.
  - intros r w'. destruct (_migrateTo self _ false w) as [[r1|x|k] w1]; discriminate.
  - intros r w' ->. reflexivity.
Qed.

Lemma usable_command_parses (c : command) :
  is_empty_command c = false -> exists p, parseCommand c = Ok p.
Proof.
  destruct c as [n|s|]; simpl; intros H; [eexists; reflexivity ..|discriminate].
Qed.

(** X13.  [migrateTo] rejects an [undefined] or empty command, and any
    command while nothing is registered, without a request to the driver;
    every other command reaches the engine: a target that does not parse
    or is not registered comes back as a result, and with a driver that
    answers the only other rejection is the one of the engine, when an
    action has thrown a value that the [catch] block cannot render. *)
Theorem migrateTo_rejects_only_unusable_commands (c : command) (w : World U) :
  (is_empty_command c = true \/ migrations self = [] ->
   migrateTo self c w = (Throw (JsError (InvalidCommand c)), w)) /\
  (is_empty_command c = false -> migrations self <> [] -> faults w = [] ->
   forall e, fst (migrateTo self c w) = Throw e ->
             thrown_by_an_action self (JsUnprintable e)).
Proof.
  split.
  - intros H. unfold migrateTo. rewrite connected.
    replace (is_empty_command c || (Z.of_nat (List.length (migrations self)) =? 0))
      with true; [reflexivity|].
    symmetry. apply orb_true_iff. destruct H as [H|H]; [left; exact H|].
    right. rewrite H. reflexivity.
  - intros Hc Hne Hrel e.
    destruct (usable_command_parses c Hc) as [p Hp].
    rewrite (migrateTo_calls_the_engine c p w Hne Hc Hp).
    destruct (run_summary match cmd_version p with
                          | inr _ => Num (latest_version self)
                          | inl n => n
                          end (subcommand_is p "rerun") w)
      as (o & w1 & H & _ & _ & _ & _ & _ & (evs & _ & _ & _ & Px) & _).
    rewrite H. unfold rejection in Px. rewrite Hrel in Px.
    destruct o as [r|x|k]; simpl.
    + destruct (subcommand_is p "exit"); discriminate.
    + intros He. inversion He; subst x.
      destruct (Px e eq_refl) as [(_ & [] & _)|[(_ & [] & _)|(_ & [[]|[[msg Hm]|Ha]] & _)]].
      * discriminate.
      * exact Ha.
    + discriminate.
Qed.

(* ------------------------------------------------------------------ *)
(** ** [getVersion], [lock], [unlock], [reset] *)

(** X14.  [getVersion] never changes a stored control record; with a
    driver that answers it returns the stored version, 0 when it first had
    to create the record, and a second call returns the same and changes
    nothing. *)
Theorem getVersion_creates_the_record_once (w : World U) :
  (forall c, collection w = Some c -> collection (snd (getVersion self w)) = Some c) /\
  (faults w = [] ->
   exists w',
     getVersion self w = (Ok (ctl_version (stored_control w)), w') /\
     collection w' = Some (stored_control w) /\
     events w' = events w /\ user w' = user w /\
     getVersion self w' = (Ok (ctl_version (stored_control w)), w')).
Proof.
  split.
  - intros c Hc. unfold getVersion. rewrite connected. unfold bind.
    destruct (getControl_cases w) as [(w1 & H & C & _)|(e & w1 & H & C & _)];
      rewrite H; simpl.
    + rewrite C. unfold stored_control. rewrite Hc. reflexivity.
    + congruence.
  - intros Hrel.
    destruct (getControl_ok w []) as (w' & H & (F & C & E & Us & N)).
    { driver_answers. }
    exists w'. unfold getVersion. rewrite connected. unfold bind. rewrite H.
    split; [reflexivity|]. split; [exact C|].
    rewrite app_nil_r in E. split; [exact E|]. split; [exact Us|].
    unfold _getControl, findOne, request, bind. rewrite connected, F. simpl.
    rewrite C. reflexivity.
Qed.

(** X15.  [lock()] answers true exactly when the control record is stored
    and free; it then stores it locked, stamped with the current date.
    Otherwise it changes nothing, and creates no record.  So of two calls
    in a row that return, at most the first one answers true. *)
Theorem lock_is_exclusive (w w1 : World U) (b : bool) :
  lock self w = (Ok b, w1) ->
  (b = true <-> exists c, collection w = Some c /\ locked c = false) /\
  (forall c, collection w = Some c -> b = true ->
             collection w1 = Some (locked_at (now w) c)) /\
  (b = false -> collection w1 = collection w) /\
  (forall b2 w2, lock self w1 = (Ok b2, w2) -> b = true -> b2 = false).
Proof.
  intros Hlock.
  destruct (lock_cases w) as [(w' & H & C & _)|(e & w' & H & _)];
    rewrite H in Hlock; inversion Hlock; subst; clear Hlock.
  destruct (collection w) as [c|] eqn:Hc; simpl in C.
  - destruct (locked c) eqn:Lk; simpl.
    + split; [split; [discriminate | intros (c' & Hc' & Hl); congruence]|].
      split; [discriminate|]. split; [intros _; exact C | discriminate].
    + split; [split; [intros _; exists c; auto | reflexivity]|].
      split; [intros c' Hc' _; inversion Hc'; subst; exact C|].
      split; [discriminate|].
      intros b2 w2 H2 _.
      destruct (lock_cases w1) as [(w'' & H' & _)|(e & w'' & H' & _)];
        rewrite H' in H2; inversion H2; subst.
      rewrite C. reflexivity.
  - split; [split; [discriminate | intros (c' & Hc' & _); discriminate]|].
    split; [discriminate|]. split; [intros _; exact C | discriminate].
Qed.

(** X16.  [unlock()] releases the record whoever took the lock: when it
    returns, the stored record, if any, is free, with its version and its
    [lockedAt] stamp as before; no record is created; and a call of
    [lock()] right after it, if it returns, answers true exactly when a
    record is stored. *)
Theorem unlock_releases_any_holder (w w1 : World U) :
  unlock self w = (Ok tt, w1) ->
  collection w1 = option_map (@unlocked) (collection w) /\
  (forall b w2, lock self w1 = (Ok b, w2) ->
                b = match collection w with Some _ => true | None => false end).
Proof.
  intros Hun.
  destruct (unlock_cases w) as [(w' & H & C & _)|(e & w' & H & _)];
    rewrite H in Hun; inversion Hun; subst; clear Hun.
  split; [exact C|].
  intros b w2 H2.
  destruct (lock_cases w1) as [(w'' & H' & _)|(e & w'' & H' & _)];
    rewrite H' in H2; inversion H2; subst.
  rewrite C. destruct (collection w); reflexivity.
Qed.

(** X17.  [reset()], when it returns, has emptied the collection: the
    stored version and the lock are gone, a held lock included, while the
    user state is not touched.  With a driver that answers it returns, and
    [getVersion] then starts again from version 0 on a free record. *)
Theorem reset_drops_the_control_record (w : World U) :
  (forall w', reset self w = (Ok tt, w') ->
              collection w' = None /\ user w' = user w /\
              events w' = events w /\ logs w' = logs w) /\
  (faults w = [] ->
   exists w' w'',
     reset self w = (Ok tt, w') /\
     getVersion self w' = (Ok 0, w'') /\
     collection w'' = Some {| ctl_version := 0; locked := false; lockedAt := None |}).
Proof.
  assert (Hdel : forall w1 : World U,
             (exists w', deleteMany w1 = (Ok tt, w') /\ collection w' = None /\
                         events w' = events w1 /\ steady w1 w') \/
             (exists e w', deleteMany w1 = (Throw e, w') /\ In (Some e) (faults w1))).
  { intros w1. next_request w1.
    all: try (right; do 2 eexists; split; [reflexivity | scheduled]).
    all: left; eexists; (split; [reflexivity|]); simpl; scheduled. }
  assert (Hreset : forall w0, reset self w0 =
                     match _getControl self w0 with
                     | (Ok _, w1) => deleteMany w1
                     | (Throw e, w1) => (Throw e, w1)
                     | (Exit k, w1) => (Exit k, w1)
                     end).
  { intros w0. unfold reset, getVersion. rewrite connected. unfold bind.
    destruct (_getControl self w0) as [[a|e|k] w1]; reflexivity. }
  split.
  - intros w' Hr. rewrite Hreset in Hr.
    destruct (getControl_cases w)
      as [(w1 & H & C & E & (N & L & Us & F))|(e & w1 & H & _)];
      rewrite H in Hr; [|discriminate].
    destruct (Hdel w1) as [(w2 & Hd & C2 & E2 & (N2 & L2 & U2 & F2))|(e & w2 & Hd & _)];
      rewrite Hd in Hr; inversion Hr; subst.
    repeat split; congruence.
  - intros Hrel. rewrite Hreset.
    destruct (getControl_cases w)
      as [(w1 & H & C & E & (N & L & Us & F))|(e & w1 & H & _ & _ & _ & Hf)];
      rewrite H; [|rewrite Hrel in Hf; destruct Hf].
    pose proof (calm_stays_calm _ _ F Hrel) as Hrel1.
    destruct (Hdel w1) as [(w2 & Hd & C2 & E2 & (N2 & L2 & U2 & F2))|(e & w2 & Hd & Hf)];
      rewrite Hd; [|rewrite Hrel1 in Hf; destruct Hf].
    destruct (getControl_ok w2 []) as (w3 & H3 & (F3 & C3 & _)).
    { rewrite (calm_stays_calm _ _ F2 Hrel1). apply after_calm_nil. }
    exists w2, w3. split; [reflexivity|].
    unfold stored_control in H3, C3. rewrite C2 in H3, C3.
    unfold getVersion. rewrite connected. unfold bind. rewrite H3.
    split; [reflexivity | exact C3].
Qed.

(** X18.  After a run to [v] that is not a rerun and reports success, on a
    sorted registry of positive versions with a driver that answers,
    [getVersion] returns [v]. *)
Theorem getVersion_reads_the_reached_target (v : Z) (w w1 : World U)
    (r : MigrationResult) :
  StronglySorted Z.le (map (@version U) (migrations self)) ->
  Forall (fun m : Migration U => 0 < version m) (migrations self) ->
  faults w = [] ->
  _migrateTo self (Num v) false w = (Ok r, w1) ->
  success r = true ->
  exists w2, getVersion self w1 = (Ok v, w2).
Proof.
  intros Hsorted Hpos Hrel Hrun Hsucc.
  destruct (successful_run_reaches_target v w w1 r Hsorted Hpos Hrel Hrun Hsucc)
    as (F1 & c1 & C1 & Hv).
  destruct (getControl_ok w1 []) as (w2 & H & _).
  { rewrite F1. apply after_calm_nil. }
  exists w2. unfold getVersion. rewrite connected. unfold bind. rewrite H.
  unfold stored_control. rewrite C1, Hv. reflexivity.
Qed.

(** X19.  On the fast path the line 'Not migrating, already at version'
    is logged exactly when both [log] and [logIfLatest] are on, and it is
    the only line. *)
Theorem fast_path_logs_if_latest (v : Z) (w : World U) :
  faults w = [] ->
  ctl_version (stored_control w) = v ->
  logs (snd (_migrateTo self (Num v) false w)) =
    logs w ++ (if log (options self) && logIfLatest (options self)
               then [(info, AlreadyAtVersion (Num v))]
               else []).
Proof.
  intros Hrel Hv. unfold _migrateTo. rewrite connected. unfold bind at 1.
  destruct (getControl_cases w)
    as [(w1 & H & _ & _ & (_ & L & _ & _))|(e & w1 & H & _ & _ & _ & Hf)];
    [|rewrite Hrel in Hf; destruct Hf].
  rewrite H, Hv.
  replace (negb false && strict_eq (Num v) (Num v)) with true
    by (symmetry; simpl; apply Z.eqb_refl).
  unfold shouldLogIfLatest, Logger_info, Logger_log, bind, ret.
  destruct (logIfLatest (options self)), (log (options self)); simpl;
    rewrite ?app_nil_r, L; reflexivity.
Qed.

(* ------------------------------------------------------------------ *)
(** ** [migrationsRun] and the version writes *)

Lemma version_writes_app (a b : list Event) :
  version_writes (a ++ b) = (version_writes a + version_writes b)%nat.
Proof. unfold version_writes. rewrite filter_app, length_app. reflexivity. Qed.

(** With a driver that answers, the iterations count one per version
    written. *)
Lemma perform_all_counts (d : direction) (l : list (step U)) :
  forall run (w w' : World U) c run' o,
    faults w = [] -> collection w = Some c ->
    perform_all self d l run w = (run', (o, w')) ->
    exists evs, events w' = events w ++ evs /\
                run' = run + Z.of_nat (version_writes evs).
Proof.
  induction l as [|[m p] l IH]; intros run w w' c run' o Hrel Hcol H.
  - simpl in H. inversion H; subst. exists []. rewrite app_nil_r. split; [auto | simpl; lia].
  - simpl perform_all in H.
    destruct (get_action m d) as [f|] eqn:Ha.
    + destruct (f (user w)) as [[[]|x|k] u'] eqn:Hf.
      * destruct (perform_ok d m p w f u' c [] Ha Hf) as (w1 & Hp & (F & C & E & _)); auto.
        { rewrite Hrel. reflexivity. }
        rewrite Hp in H.
        destruct (IH _ _ _ _ _ _ F C H) as (evs & E' & Hrun).
        exists (step_events d (m, p) ++ evs).
        rewrite E', E, app_assoc. split; [reflexivity|].
        rewrite version_writes_app.
        change (version_writes (step_events d (m, p))) with 1%nat. lia.
      * destruct (perform_action_throws d m p w f x u' Ha Hf) as (w1 & Hp & (F & C & E & _)).
        rewrite Hp in H. inversion H; subst.
        exists [EvInvoke d (version m)]. split; [exact E | simpl; lia].
      * destruct (perform_action_exits d m p w f k u' Ha Hf) as (w1 & Hp & (F & C & E & _)).
        rewrite Hp in H. inversion H; subst.
        exists [EvInvoke d (version m)]. split; [exact E | simpl; lia].
    + rewrite (perform_no_action d m p w Ha) in H. inversion H; subst.
      exists []. rewrite app_nil_r. split; [auto | simpl; lia].
Qed.

Lemma apply_phase_counts (cur : Z) (v : number) (w w3 : World U) c run o :
  faults w = [] -> collection w = Some c ->
  apply_phase self cur v false w = (run, (o, w3)) ->
  faults w3 = [] /\ (exists c3, collection w3 = Some c3) /\
  exists evs, events w3 = events w ++ evs /\ run = Z.of_nat (version_writes evs).
Proof.
  intros Hrel Hcol H.
  assert (Hnone : forall o', (0, (o', w)) = (run, (o, w3)) ->
                  faults w3 = [] /\ (exists c3, collection w3 = Some c3) /\
                  exists evs, events w3 = events w ++ evs /\
                              run = Z.of_nat (version_writes evs)).
  { intros o' Heq. inversion Heq; subst. split; [exact Hrel|]. split; [eauto|].
    exists []. rewrite app_nil_r. auto. }
  destruct (findIndexByVersion self (Num cur)) as [s|x|k] eqn:Hs.
  - destruct (findIndexByVersion self v) as [e|x|k] eqn:He.
    + destruct (apply_phase_steps cur v s e w Hs He) as (w1 & (F1 & C1 & E1 & _) & Hap).
      rewrite Hap in H. rewrite Hrel in F1. rewrite Hcol in C1.
      rewrite app_nil_r in E1. rewrite <- E1.
      destruct (less_than (Num cur) v).
      * destruct (perform_all_inv Up _ _ _ _ _ _ _ F1 C1 H) as (F & c3 & C & _).
        destruct (perform_all_counts Up _ _ _ _ _ _ _ F1 C1 H) as (evs & E & Hrun).
        split; [exact F|]. split; [eauto|]. exists evs. split; [exact E | lia].
      * destruct (perform_all_inv Down _ _ _ _ _ _ _ F1 C1 H) as (F & c3 & C & _).
        destruct (perform_all_counts Down _ _ _ _ _ _ _ F1 C1 H) as (evs & E & Hrun).
        split; [exact F|]. split; [eauto|]. exists evs. split; [exact E | lia].
    + unfold apply_phase in H. rewrite Hs, He in H. exact (Hnone _ H).
    + unfold apply_phase in H. rewrite Hs, He in H. exact (Hnone _ H).
  - unfold apply_phase in H. rewrite Hs in H. exact (Hnone _ H).
  - unfold apply_phase in H. rewrite Hs in H. exact (Hnone _ H).
Qed.

(** X25.  With a driver that answers, the [migrationsRun] of a result of a
    run that is not a rerun is the number of version writes of that run:
    one per completed step, none for the step that failed. *)
Theorem migrationsRun_counts_the_version_writes (v : number) (w w' : World U)
    (r : MigrationResult) :
  faults w = [] ->
  _migrateTo self v false w = (Ok r, w') ->
  exists evs, events w' = events w ++ evs /\
              migrationsRun r = Z.of_nat (version_writes evs).
Proof.
  intros Hrel Hrun.
  destruct (strict_eq (Num (ctl_version (stored_control w))) v) eqn:Hfast.
  - destruct v as [z| |b]; [|discriminate|discriminate]. simpl in Hfast. apply Z.eqb_eq in Hfast.
    destruct (fast_path z w []) as (w1 & H & (_ & _ & E & _)); auto.
    { driver_answers. }
    rewrite H in Hrun. inversion Hrun; subst. exists []. auto.
  - assert (Hslow : negb false && strict_eq (Num (ctl_version (stored_control w))) v = false)
      by exact Hfast.
    destruct (locked (stored_control w)) eqn:Hlocked.
    + destruct (lock_held_result v false w []) as (w1 & H & (_ & _ & E & _)); auto.
      { driver_answers. }
      rewrite H in Hrun. inversion Hrun; subst. exists [EvLock]. auto.
    + destruct (migrateTo_enters_guarded v false w []) as (w2 & Fr2 & Hguard); auto.
      { driver_answers. }
      destruct Fr2 as (F2 & C2 & E2 & _).
      rewrite Hguard in Hrun. unfold try_catch in Hrun.
      destruct (apply_phase self (ctl_version (stored_control w)) v false w2)
        as [run [o w3]] eqn:Hap.
      destruct (apply_phase_counts _ _ _ _ _ _ _ F2 C2 Hap)
        as (F3 & (c3 & C3) & evs & E3 & Hcount).
      destruct o as [a|x|k].
      * destruct (unlock_ok w3 c3 [] ltac:(rewrite F3; reflexivity) C3)
          as (wa & Hun & (_ & _ & Ea & _)).
        destruct (Logger_info_frame Finished wa) as (wb & Hlog & (_ & _ & Eb & _)).
        unfold try_end in Hrun. unfold bind at 1 in Hrun. rewrite Hun in Hrun.
        unfold bind at 1 in Hrun. rewrite Hlog in Hrun. unfold ret in Hrun.
        inversion Hrun; subst. simpl.
        exists ([EvLock] ++ evs ++ [EvUnlock]).
        rewrite Eb, app_nil_r, Ea, E3, E2, <- !app_assoc. split; [reflexivity|].
        rewrite !version_writes_app.
        change (version_writes [EvLock]) with 0%nat.
        change (version_writes [EvUnlock]) with 0%nat. lia.
      * destruct (catch_block_cases (stored_control w) v run x w3)
          as [(x' & w4 & _ & Hcatch & _ & E4 & _)
             |[(x' & w4 & Hcatch & _)|(x' & w4 & _ & Hcatch & _)]];
          rewrite Hcatch in Hrun; [|discriminate ..].
        inversion Hrun; subst. simpl.
        exists ([EvLock] ++ evs ++ [EvUnlock]).
        rewrite E4, E3, E2, <- !app_assoc. split; [reflexivity|].
        rewrite !version_writes_app.
        change (version_writes [EvLock]) with 0%nat.
        change (version_writes [EvUnlock]) with 0%nat. lia.
      * discriminate.
Qed.
(* ------------------------------------------------------------------ *)
(** ** Failures of a run that has taken the lock *)


End Runs.

(* ------------------------------------------------------------------ *)
(** ** Concrete runs *)

(** C1, the claim as stated fails: [second_again] has the version of the
    registered [second], yet [add] returns and stores it, behind [second];
    and a version that is [NaN], which is no positive integer, is accepted
    and stored too. *)
Lemma add_accepts_duplicate_version :
  In (version second_again) (map (@version _) [first; second]) /\
  add host_sort (as_input second_again) (map (@as_stored _) [first; second]) =
    (Ok tt, map (@as_stored _) [first; second; second_again]) /\
  fst (add host_sort not_a_number (map (@as_stored _) [first])) = Ok tt /\
  In not_a_number_stored (snd (add host_sort not_a_number (map (@as_stored _) [first]))).
Proof.
  split; [simpl; auto|]. split; [reflexivity|]. split; [reflexivity|].
  vm_compute. auto.
Qed.

(** C1 (as amended) when version 3 is added to the versions 1 and 2. *)
Lemma add_validates_up_and_sign_witness :
  exists registry',
    add host_sort (as_input third) (map (@as_stored _) [first; second]) = (Ok tt, registry') /\
    Permutation registry'
      (map (@as_stored _) [first; second] ++ [checked (as_input third) (Num 3)]) /\
    (forall ms z,
        map (@as_stored _) [first; second] = map (@as_stored _) ms -> Num 3 = Num z ->
        exists ms',
          registry' = map (@as_stored _) ms' /\
          Permutation ms' (ms ++ [as_integer (as_input third) z]) /\
          StronglySorted Z.le (map (@version _) ms')).
Proof.
  apply (proj1 (proj2 (proj2 (proj2
           (add_validates_up_and_sign (list string) host_sort
              (insertion_sort_permutes _) (insertion_sort_of_integers (list string))
              (as_input third) (map (@as_stored _) [first; second])))))
           ltac:(discriminate) (Num 3) eq_refl eq_refl).
Defined.








(** C6, the claim as stated fails: version 5 is neither 0 nor registered,
    yet a run to 5 succeeds when 5 is the stored version; and on a fresh
    database a run to the unregistered version 7 returns a failed result,
    it does not throw. *)
Lemma unregistered_target_does_not_throw :
  ~ In 5 (map (@version _) (migrations (engine [first]))) /\
  fst (migrateTo (engine [first]) (CmdNumber (Num 5)) (world (Some (control 5 false)) [])) =
    Ok {| success := true; fromVersion := 5; toVersion := Num 5;
          migrationsRun := 0; error := None |} /\
  fst (migrateTo (engine [first]) (CmdNumber (Num 7)) (world None [])) =
    Ok {| success := false; fromVersion := 0; toVersion := Num 7;
          migrationsRun := 0; error := Some (JsError (CantFindVersion (Num 7))) |}.
Proof.
  split; [simpl; intros [H|[]]; discriminate|]. split; reflexivity.
Qed.

(** C6 (as amended) on the run to the unregistered version 7. *)
Lemma unknown_target_is_a_failed_result_witness :
  exists w',
    _migrateTo (engine [first]) (Num 7) false (world None []) =
      (Ok {| success := false; fromVersion := 0; toVersion := Num 7;
             migrationsRun := 0;
             error := Some (JsError (CantFindVersion (Num 7))) |}, w') /\
    events w' = [EvLock; EvUnlock] /\
    collection w' =
      Some {| ctl_version := 0; locked := false; lockedAt := Some 1000 |} /\
    user w' = [].
Proof.
  apply (proj2 (proj2 (proj2
           (unknown_target_is_a_failed_result (list string) (engine [first]) connection
              eq_refl)))
           (Num 7) false (world None []) eq_refl eq_refl).
  - discriminate.
  - intros m [<-|[]]. discriminate.
  - right. split; [discriminate|]. exists (-1). reflexivity.
Defined.

(** C7 when the stored version is already 1, and for a second run to 1 on
    a database that was fresh before the first. *)
Lemma already_at_target_is_a_no_op_witness :
  (exists w',
      _migrateTo (engine [first]) (Num 1) false (world (Some (control 1 false)) []) =
        (Ok {| success := true; fromVersion := 1; toVersion := Num 1;
               migrationsRun := 0; error := None |}, w') /\
      events w' = [] /\
      collection w' = Some (control 1 false) /\
      user w' = []) /\
  (let w1 := snd (_migrateTo (engine [first]) (Num 1) false (world None [])) in
   exists w2,
     _migrateTo (engine [first]) (Num 1) false w1 =
       (Ok {| success := true; fromVersion := 1; toVersion := Num 1;
              migrationsRun := 0; error := None |}, w2) /\
     events w2 = events w1 /\
     collection w2 = collection w1 /\
     user w2 = user w1).
Proof.
  split.
  - apply (proj1
             (already_at_target_is_a_no_op (list string) (engine [first]) connection
                eq_refl 1 (world (Some (control 1 false)) []) eq_refl)
             eq_refl).
  - apply (proj2
             (already_at_target_is_a_no_op (list string) (engine [first]) connection
                eq_refl 1 (world None []) eq_refl)
             ltac:(repeat (constructor; try (simpl; lia)))
             ltac:(repeat (constructor; try (simpl; lia)))
             {| success := true; fromVersion := 0; toVersion := Num 1;
                migrationsRun := 1; error := None |}
             (snd (_migrateTo (engine [first]) (Num 1) false (world None [])))
             eq_refl eq_refl).
Defined.

(** C8 against a control record left locked. *)
Lemma held_lock_is_reported_witness :
  exists w',
    _migrateTo (engine [first]) (Num 1) false (world (Some (control 0 true)) []) =
      (Ok {| success := false; fromVersion := 0; toVersion := Num 1;
             migrationsRun := 0; error := Some (JsError ControlIsLocked) |}, w') /\
    events w' = [EvLock] /\
    collection w' = Some (control 0 true) /\
    user w' = [].
Proof.
  apply (held_lock_is_reported (list string) (engine [first]) connection eq_refl
           (Num 1) false (world (Some (control 0 true)) []) (control 0 true)
           eq_refl eq_refl eq_refl eq_refl).
Defined.

(** C9, the claim as stated fails: every migration of the registry has a
    [down], yet the round trip never invokes the [down] of [second_twin],
    whose version is registered twice: ['latest'] is the version 2, found
    at its first entry in both directions. *)
Lemma twin_version_is_never_reversed :
  let self := engine [first; second; second_twin] in
  let there := migrateTo self (CmdString "latest") (world None []) in
  let back := migrateTo self (CmdNumber (Num 0)) (snd there) in
  (forall m, In m (migrations self) -> down m <> None) /\
  fst there = Ok {| success := true; fromVersion := 0; toVersion := Num 2;
                    migrationsRun := 2; error := None |} /\
  fst back = Ok {| success := true; fromVersion := 2; toVersion := Num 0;
                   migrationsRun := 2; error := None |} /\
  invoked Up (events (snd back)) = [1; 2] /\
  invoked Down (events (snd back)) = [2; 1] /\
  user (snd back) = ["up1"; "up2"; "down2"; "down1"]%string /\
  collection (snd back) =
    Some {| ctl_version := 0; locked := false; lockedAt := Some 1000 |}.
Proof.
  split; [intros m [<-|[<-|[<-|[]]]]; discriminate|].
  vm_compute. repeat split; reflexivity.
Qed.

(** C9 over the two reversible migrations of the test suite. *)
Lemma round_trip_reverses_the_ups_witness :
  exists r1 w1 r2 w2 ev1 ev2,
    migrateTo (engine [first; second]) (CmdString "latest") (world None []) = (Ok r1, w1) /\
    success r1 = true /\
    migrateTo (engine [first; second]) (CmdNumber (Num 0)) w1 = (Ok r2, w2) /\
    success r2 = true /\
    events w1 = [] ++ ev1 /\
    events w2 = events w1 ++ ev2 /\
    invoked Up ev1 = [1; 2] /\
    invoked Down ev1 = [] /\
    invoked Up ev2 = [] /\
    invoked Down ev2 = rev (invoked Up ev1) /\
    collection w2 =
      Some {| ctl_version := 0; locked := false; lockedAt := Some 1000 |} /\
    user w2 = ["up1"; "up2"; "down2"; "down1"]%string.
Proof.
  apply (round_trip_reverses_the_ups (list string) (engine [first; second]) connection
           eq_refl (world None []) ["up1"; "up2"]%string
           ["up1"; "up2"; "down2"; "down1"]%string);
    try reflexivity.
  - discriminate.
  - repeat constructor; simpl; intuition discriminate.
  - repeat (constructor; try (simpl; lia)).
Defined.

(** C10 when the stored version 5 belongs to no registered migration. *)
Lemma unregistered_current_target_succeeds_witness :
  findIndexByVersion (engine [first]) (Num 5) = Throw (JsError (CantFindVersion (Num 5))) /\
  exists w',
    migrateTo (engine [first]) (CmdNumber (Num 5)) (world (Some (control 5 false)) []) =
      (Ok {| success := true; fromVersion := 5; toVersion := Num 5;
             migrationsRun := 0; error := None |}, w') /\
    events w' = [] /\
    collection w' = Some (control 5 false) /\
    user w' = [].
Proof.
  destruct (unregistered_current_target_succeeds (list string) (engine [first]) connection
              eq_refl 5 (world (Some (control 5 false)) []) eq_refl
              ltac:(discriminate) eq_refl) as [Hlookup Hrun].
  split; [reflexivity | exact Hrun].
Defined.

(* ------------------------------------------------------------------ *)
(** ** The test suite, replayed on the model *)

(** 'should add migrations and sort them by version' *)
Example test_add_sorts :
  map (@version _) (migrations (add_all [third; first; second] test_instance)) = [1; 2; 3].
Proof. reflexivity. Qed.

(** 'should migrate up to latest version' *)
Example test_migrate_up_to_latest :
  let r := migrateTo (add_all [first; second] test_instance) (CmdString "latest") fresh in
  (exists res, fst r = Ok res /\ success res = true /\ migrationsRun res = 2) /\
  user (snd r) = ["up1"; "up2"]%string /\
  fst (getVersion (add_all [first; second] test_instance) (snd r)) = Ok 2.
Proof.
  split; [eexists; split; [reflexivity | split; reflexivity]|]. split; reflexivity.
Qed.

(** 'should not run migrations if already at target version' *)
Example test_no_run_at_target :
  let self := add_all [first] test_instance in
  let once := migrateTo self (CmdNumber (Num 1)) fresh in
  let twice := next once (migrateTo self (CmdNumber (Num 1))) in
  user (snd once) = ["up1"]%string /\ user (snd twice) = ["up1"]%string.
Proof. split; reflexivity. Qed.

(** 'should migrate down to specific version' *)
Example test_migrate_down :
  let self := add_all [first; second] test_instance in
  let up_run := migrateTo self (CmdString "latest") fresh in
  let down_run := next up_run (migrateTo self (CmdNumber (Num 0))) in
  (exists res, fst down_run = Ok res /\ success res = true) /\
  user (snd down_run) = ["up1"; "up2"; "down2"; "down1"]%string /\
  fst (getVersion self (snd down_run)) = Ok 0.
Proof.
  split; [eexists; split; reflexivity|]. split; reflexivity.
Qed.

(** 'should handle migration errors gracefully' and 'should unlock when
    migration fails' *)
Example test_failure_unlocks :
  let failing := add_all [sample 1 (Some (fails "Migration failed")) None] test_instance in
  let working := add_all [sample 2 (Some (push "up2")) None] test_instance in
  let failed := migrateTo failing (CmdString "latest") fresh in
  let retried := next failed (migrateTo working (CmdString "latest")) in
  fst failed =
    Ok {| success := false; fromVersion := 0; toVersion := Num 1; migrationsRun := 0;
          error := Some (JsError (Text "Migration failed")) |} /\
  fst (getVersion failing (snd failed)) = Ok 0 /\
  (exists res, fst retried = Ok res /\ success res = true).
Proof.
  split; [reflexivity|]. split; [reflexivity|]. eexists; split; reflexivity.
Qed.

(** 'should throw error when database is not set' *)
Example test_database_not_set :
  fst (migrateTo (new_Migrations (list string)
                    {| opt_log := Absent; opt_logIfLatest := Absent;
                       opt_collectionName := Absent |})
         (CmdString "latest") fresh)
  = Throw (JsError DatabaseNotSetCall).
Proof. reflexivity. Qed.

(** 'should prevent concurrent migrations', seen from the second caller:
    the first one holds the lock. *)
Example test_second_caller_is_locked_out :
  fst (migrateTo (add_all [first] test_instance) (CmdString "latest")
         (world (Some (control 0 true)) []))
  = Ok {| success := false; fromVersion := 0; toVersion := Num 1; migrationsRun := 0;
          error := Some (JsError ControlIsLocked) |}.
Proof. reflexivity. Qed.

(** 'should rerun a specific migration' *)
Example test_rerun :
  let self := add_all [first] test_instance in
  let once := migrateTo self (CmdNumber (Num 1)) fresh in
  let again := next once (migrateTo self (CmdString "1,rerun")) in
  user (snd once) = ["up1"]%string /\
  user (snd again) = ["up1"; "up1"]%string /\
  (exists res, fst again = Ok res /\ success res = true /\ migrationsRun res = 1) /\
  fst (getVersion self (snd again)) = Ok 1.
Proof.
  split; [reflexivity|]. split; [reflexivity|].
  split; [eexists; split; [reflexivity | split; reflexivity] | reflexivity].
Qed.

(** 'should parse string commands with subcommands' *)
Example test_parse_subcommand :
  parseCommand (CmdString "1,rerun") =
    Ok {| cmd_version := inl (Num 1); subcommand := Some "rerun"%string |} /\
  parseCommand (CmdString "latest,exit") =
    Ok {| cmd_version := inr tt; subcommand := Some "exit"%string |} /\
  parseCommand (CmdString "abc") = Ok {| cmd_version := inl NaN; subcommand := None |}.
Proof. repeat split. Qed.

(** 'should allow configuration updates' *)
Example test_config :
  collectionName
    (options (config {| opt_log := Given true; opt_logIfLatest := Absent;
                        opt_collectionName := Given "custom_migrations"%string |}
                test_instance))
  = Some "custom_migrations"%string.
Proof. reflexivity. Qed.

(* ------------------------------------------------------------------ *)
(** ** More on the registry: insertion order, lookups after [add] *)

Section RegistryOrder.

Variable U : Type.

Local Abbreviation Migration := (Migration U).

(** The sort of the host, and what the standard says of it: the result is
    a permutation of the array; on a registry of integer versions, where
    the comparator is consistent, it is the stable ascending sort. *)
Variable Array_sort :
  (JsMigration U -> JsMigration U -> number) -> list (JsMigration U) -> list (JsMigration U).
Hypothesis sort_permutes : forall cmp l, Permutation (Array_sort cmp l) l.
Hypothesis sort_of_integers :
  forall l : list Migration,
    Array_sort (@by_version U) (map (@as_stored U) l) =
      map (@as_stored U) (sort_by_version l).

Lemma as_stored_injective (a b : list Migration) :
  map (@as_stored U) a = map (@as_stored U) b -> a = b.
Proof.
  revert b. induction a as [|x a IH]; intros [|y b] H; try discriminate; [reflexivity|].
  simpl in H. injection H as Hv Hn Hu Hd Hrest. f_equal; [|apply IH, Hrest].
  destruct x, y. simpl in *. congruence.
Qed.

(** [add(m1); add(m2); ...] with integer versions on a registry of integer
    versions. *)
Lemma add_inputs_of_integers (l : list Migration) :
  forall self : Migrations U,
    add_inputs Array_sort (map (@as_input U) l) (map (@as_stored U) (migrations self)) =
      map (@as_stored U) (migrations (add_each l self)).
Proof.
  induction l as [|m l IH]; intros self; [reflexivity|].
  unfold add_inputs, add_each in *. simpl fold_left.
  rewrite (add_of_integers U Array_sort sort_of_integers m self). simpl snd.
  apply IH.
Qed.

(** The instance that holds the registry [ms]. *)
Lemma registry_of (ms : list Migration) :
  exists self : Migrations U, migrations self = ms.
Proof.
  exists {| migrations := ms; options := default_options; dbConnection := None |}.
  reflexivity.
Qed.

Lemma findIndexByVersion_same_registry (a b : Migrations U) (v : number) :
  migrations a = migrations b -> findIndexByVersion a v = findIndexByVersion b v.
Proof. unfold findIndexByVersion. intros ->. reflexivity. Qed.

Lemma insert_below_head (m : Migration) (l : list Migration) :
  (forall x, In x l -> version m <= version x) ->
  insert_by_version m l = m :: l.
Proof.
  destruct l as [|x xs]; intros H; simpl; [reflexivity|].
  replace (version m <=? version x) with true; [reflexivity|].
  symmetry. apply Z.leb_le, H. left. reflexivity.
Qed.

(** Pushing onto a sorted registry and sorting: the migration lands behind
    the stored ones whose version is not greater, the rest keeps its
    order. *)
Lemma sort_after_push (m : Migration) (l : list Migration) :
  StronglySorted Z.le (map (@version U) l) ->
  sort_by_version (l ++ [m]) =
    filter (fun x => version x <=? version m) l ++
    m :: filter (fun x => version m <? version x) l.
Proof.
  unfold sort_by_version. rewrite fold_right_app. simpl fold_right.
  induction l as [|x xs IH]; intros Hs; [reflexivity|].
  simpl map in Hs. inversion Hs as [|? ? Hxs Hall]; subst.
  simpl fold_right. rewrite (IH Hxs). rewrite Forall_forall in Hall.
  assert (Hle : forall y, In y xs -> version x <= version y)
    by (intros y Hy; apply Hall, in_map, Hy).
  simpl filter. destruct (version x <=? version m) eqn:E.
  - apply Z.leb_le in E.
    replace (version m <? version x) with false by (symmetry; apply Z.ltb_ge; lia).
    simpl app. apply insert_below_head.
    intros y Hy. apply in_app_or in Hy. destruct Hy as [Hy|[<-|Hy]].
    + apply filter_In in Hy. apply Hle, Hy.
    + exact E.
    + apply filter_In in Hy. apply Hle, Hy.
  - apply Z.leb_gt in E.
    replace (version m <? version x) with true by (symmetry; apply Z.ltb_lt; lia).
    rewrite (filter_none _ (fun y => version y <=? version m) xs).
    2:{ intros y Hy. apply Z.leb_gt. specialize (Hle y Hy). lia. }
    rewrite (filter_all _ (fun y => version m <? version y) xs).
    2:{ intros y Hy. apply Z.ltb_lt. specialize (Hle y Hy). lia. }
    simpl app. simpl insert_by_version.
    replace (version x <=? version m) with false by (symmetry; apply Z.leb_gt; lia).
    f_equal. apply insert_below_head, Hle.
Qed.

(** X2.  On a sorted registry of integer versions, a successful [add] of
    a migration of integer version puts it right behind the stored
    migrations whose version is not greater than its own (so behind those
    of equal version) and keeps all others in place and in order. *)
Theorem add_inserts_behind_equal_versions (m : Migration) (ms : list Migration)
    (registry' : list (JsMigration U)) :
  StronglySorted Z.le (map (@version U) ms) ->
  add Array_sort (as_input m) (map (@as_stored U) ms) = (Ok tt, registry') ->
  registry' =
    map (@as_stored U)
      (filter (fun x => version x <=? version m) ms ++
       m :: filter (fun x => version m <? version x) ms).
Proof.
  intros Hs Hadd.
  destruct (registry_of ms) as [self Hself]. rewrite <- Hself in *.
  rewrite (add_of_integers U Array_sort sort_of_integers m self) in Hadd.
  destruct (add_integer m self) as [o self'] eqn:E. simpl in Hadd.
  inversion Hadd; subst o registry'.
  destruct (add_returns_inv U m self self' E) as (_ & _ & Hms & _).
  rewrite Hms. f_equal. apply sort_after_push, Hs.
Qed.

Lemma add_rejects_unaccepted (m : Migration) (self : Migrations U) :
  accepted m = false -> snd (add_integer m self) = self.
Proof.
  unfold accepted, add_integer. destruct (up m); simpl; [|reflexivity].
  intros H. apply Z.ltb_ge in H.
  replace (version m <=? 0) with true by (symmetry; apply Z.leb_le; exact H).
  reflexivity.
Qed.

Lemma add_stores_accepted (m : Migration) (self : Migrations U) :
  accepted m = true ->
  migrations (snd (add_integer m self)) = sort_by_version (migrations self ++ [m]).
Proof.
  unfold accepted, add_integer. destruct (up m); simpl; [|discriminate].
  intros H. apply Z.ltb_lt in H.
  replace (version m <=? 0) with false by (symmetry; apply Z.leb_gt; exact H).
  reflexivity.
Qed.

(** After a series of [add] calls the registry holds what it held plus the
    accepted migrations, and is sorted if it was. *)
Lemma add_each_perm (l : list Migration) :
  forall self : Migrations U,
    Permutation (migrations (add_each l self)) (migrations self ++ filter (@accepted U) l).
Proof.
  induction l as [|m l IH]; intros self; simpl.
  - rewrite app_nil_r. apply Permutation_refl.
  - unfold add_each in *. simpl fold_left.
    eapply perm_trans; [apply IH|].
    destruct (accepted m) eqn:E.
    + rewrite (add_stores_accepted m self E).
      eapply perm_trans;
        [apply Permutation_app_tail, sort_by_version_perm|].
      rewrite <- app_assoc. reflexivity.
    + rewrite (add_rejects_unaccepted m self E). apply Permutation_refl.
Qed.

Lemma add_each_sorted (l : list Migration) :
  forall self : Migrations U,
    StronglySorted Z.le (map (@version U) (migrations self)) ->
    StronglySorted Z.le (map (@version U) (migrations (add_each l self))).
Proof.
  induction l as [|m l IH]; intros self Hs; [exact Hs|].
  unfold add_each in *. simpl fold_left. apply IH.
  destruct (accepted m) eqn:E.
  - rewrite (add_stores_accepted m self E). apply sort_by_version_sorted.
  - rewrite (add_rejects_unaccepted m self E). exact Hs.
Qed.

Lemma same_version_same_migration (l : list Migration) (x y : Migration) :
  NoDup (map (@version U) l) -> In x l -> In y l -> version x = version y -> x = y.
Proof.
  induction l as [|a l IH]; intros Hnd Hx Hy Hv; [destruct Hx|].
  simpl in Hnd. inversion Hnd as [|? ? Hnot Hnd']; subst.
  destruct Hx as [<-|Hx], Hy as [<-|Hy]; auto.
  - exfalso. apply Hnot. rewrite Hv. apply in_map, Hy.
  - exfalso. apply Hnot. rewrite <- Hv. apply in_map, Hx.
Qed.

(** Two sorted arrangements of the same migrations, all of distinct
    versions, are the same list. *)
Lemma sorted_arrangement_unique (a : list Migration) :
  forall b,
    StronglySorted Z.le (map (@version U) a) ->
    StronglySorted Z.le (map (@version U) b) ->
    Permutation a b -> NoDup (map (@version U) a) -> a = b.
Proof.
  induction a as [|x a IH]; intros b Ha Hb Hperm Hnd.
  - apply Permutation_nil in Hperm. congruence.
  - destruct b as [|y b]; [apply Permutation_sym, Permutation_nil in Hperm; discriminate|].
    simpl in Ha, Hb.
    inversion Ha as [|? ? Ha' Hxa]; subst. inversion Hb as [|? ? Hb' Hyb]; subst.
    rewrite Forall_forall in Hxa, Hyb.
    assert (Hy : In y (x :: a))
      by (apply (Permutation_in _ (Permutation_sym Hperm)); left; reflexivity).
    assert (Hx : In x (y :: b)) by (apply (Permutation_in _ Hperm); left; reflexivity).
    assert (Hxy : version x <= version y).
    { destruct Hy as [<-|Hy]; [lia | apply Hxa, in_map, Hy]. }
    assert (Hyx : version y <= version x).
    { destruct Hx as [<-|Hx]; [lia | apply Hyb, in_map, Hx]. }
    assert (x = y).
    { apply (same_version_same_migration (x :: a)); auto; [left; reflexivity | lia]. }
    subst y. f_equal. apply IH; auto.
    + apply Permutation_cons_inv in Hperm. exact Hperm.
    + simpl in Hnd. inversion Hnd; assumption.
Qed.

Lemma filter_perm (p : Migration -> bool) (l1 l2 : list Migration) :
  Permutation l1 l2 -> Permutation (filter p l1) (filter p l2).
Proof.
  induction 1 as [|x l l' H IH|x y l|l l' l'' H1 IH1 H2 IH2]; simpl.
  - constructor.
  - destruct (p x); [apply perm_skip|]; exact IH.
  - destruct (p x), (p y); try apply Permutation_refl. apply perm_swap.
  - eapply perm_trans; eassumption.
Qed.

(** X1.  Registering the same migrations of integer versions in another
    order gives the same registry, as long as the versions stored in the
    end are distinct: the calls that [add] rejects leave no trace, the
    others end up sorted by version. *)
Theorem registration_order_is_irrelevant (l1 l2 ms : list Migration) :
  StronglySorted Z.le (map (@version U) ms) ->
  NoDup (map (@version U) (ms ++ filter (@accepted U) l1)) ->
  Permutation l1 l2 ->
  add_inputs Array_sort (map (@as_input U) l1) (map (@as_stored U) ms) =
    add_inputs Array_sort (map (@as_input U) l2) (map (@as_stored U) ms).
Proof.
  intros Hs Hnd Hperm.
  destruct (registry_of ms) as [self Hself]. rewrite <- Hself in *.
  rewrite !add_inputs_of_integers. f_equal.
  apply sorted_arrangement_unique.
  - apply add_each_sorted, Hs.
  - apply add_each_sorted, Hs.
  - eapply perm_trans; [apply add_each_perm|].
    eapply perm_trans; [|apply Permutation_sym, add_each_perm].
    apply Permutation_app_head, filter_perm, Hperm.
  - eapply Permutation_NoDup; [|exact Hnd].
    apply Permutation_map, Permutation_sym, add_each_perm.
Qed.

(** X3.  What [add] stored can be looked up: after a successful [add] of a
    migration of integer version on an instance of integer versions, the
    version of the migration is found, at an index holding a migration of
    that version (the migration itself when the version was new); and every
    version that was found before is still found. *)
Theorem added_versions_are_found (m : Migration) (self self' : Migrations U) :
  add Array_sort (as_input m) (map (@as_stored U) (migrations self)) =
    (Ok tt, map (@as_stored U) (migrations self')) ->
  (exists i m',
      findIndexByVersion self' (Num (version m)) = Ok i /\
      at_index (migrations self') i = Some m' /\
      version m' = version m /\
      (~ In (version m) (map (@version U) (migrations self)) -> m' = m)) /\
  (forall v i, findIndexByVersion self v = Ok i ->
               exists j, findIndexByVersion self' v = Ok j).
Proof.
  intros Hwide.
  rewrite (add_of_integers U Array_sort sort_of_integers m self) in Hwide.
  destruct (add_integer m self) as [o self''] eqn:Hadd. simpl in Hwide.
  inversion Hwide as [[Ho Hstored]]. subst o.
  apply as_stored_injective in Hstored.
  destruct (add_returns_inv U m self self'' Hadd) as (_ & Hpos & Hms & _).
  rewrite Hstored in Hms. clear Hadd Hwide Hstored self''.
  assert (Hperm : Permutation (migrations self') (m :: migrations self))
    by (rewrite Hms; apply sort_by_version_push_perm).
  split.
  - destruct (findIndexByVersion_registered U self' (version m)) as [i Hi].
    { lia. }
    { apply in_map. apply (Permutation_in _ (Permutation_sym Hperm)). left. reflexivity. }
    exists i.
    destruct (findIndexByVersion_Ok U self' _ _ Hi)
      as [[H0 _]|(z & m' & Hz & _ & Hi0 & Hn & Hv & _)]; [inversion H0; lia|].
    assert (Hzz : z = version m) by (inversion Hz; reflexivity).
    rewrite Hzz in Hv. exists m'.
    split; [exact Hi|]. split; [apply at_index_Some; auto|]. split; [exact Hv|].
    intros Hnew. apply nth_error_In in Hn.
    apply (Permutation_in _ Hperm) in Hn. destruct Hn as [Heq|Hin]; [auto|].
    exfalso. apply Hnew. rewrite <- Hv. apply in_map, Hin.
  - intros v i Hfound.
    destruct (findIndexByVersion_Ok U self _ _ Hfound)
      as [[-> _]|(z & mz & -> & Hz0 & _ & Hn & Hv & _)].
    + exists (-1). reflexivity.
    + apply (findIndexByVersion_registered U self' z Hz0).
      rewrite <- Hv. apply in_map.
      apply (Permutation_in _ (Permutation_sym Hperm)). right.
      eapply nth_error_In, Hn.
Qed.

(** What one call of [add] leaves: the registry with what it kept of the
    migration, in some order. *)
Lemma add_appends_kept (m : MigrationInput U) (registry : list (JsMigration U)) :
  Permutation (snd (add Array_sort m registry)) (registry ++ kept m).
Proof.
  unfold add, kept. destruct (is_function (given_up m)); simpl.
  - destruct (given_version m) as [n|]; simpl.
    + destruct (less_or_equal n (Num 0)); simpl.
      * rewrite app_nil_r. reflexivity.
      * apply sort_permutes.
    + rewrite app_nil_r. reflexivity.
  - rewrite app_nil_r. reflexivity.
Qed.

Lemma add_inputs_perm (l : list (MigrationInput U)) :
  forall registry,
    Permutation (add_inputs Array_sort l registry) (registry ++ flat_map (@kept U) l).
Proof.
  induction l as [|m l IH]; intros registry; simpl.
  - rewrite app_nil_r. reflexivity.
  - unfold add_inputs in *. simpl fold_left.
    rewrite IH, add_appends_kept, <- app_assoc. reflexivity.
Qed.

Lemma kept_passes (m : MigrationInput U) (x : JsMigration U) :
  In x (kept m) -> js_up x <> None /\ less_or_equal (js_version x) (Num 0) = false.
Proof.
  unfold kept. destruct (given_up m) as [f|] eqn:Hup; simpl; [|intros []].
  destruct (given_version m) as [n|]; [|intros []].
  destruct (less_or_equal n (Num 0)) eqn:Hn; [intros []|].
  intros [<-|[]]. simpl. rewrite Hup. split; [discriminate | exact Hn].
Qed.

(** X20.  The registry of a new instance after any series of [add] calls,
    whatever they are given: it holds exactly the migrations that passed
    the three checks, each with an [up] function and a version that is not
    [<= 0] (a positive number, or [NaN]).  When all the migrations given
    have integer versions, the registry is sorted by version, and holds
    migrations of positive version. *)
Theorem built_registry_is_well_formed (l : list (MigrationInput U)) :
  Permutation (add_inputs Array_sort l []) (flat_map (@kept U) l) /\
  Forall (fun x : JsMigration U =>
            js_up x <> None /\ less_or_equal (js_version x) (Num 0) = false)
    (add_inputs Array_sort l []) /\
  (forall li : list Migration,
      l = map (@as_input U) li ->
      exists ms,
        add_inputs Array_sort l [] = map (@as_stored U) ms /\
        Permutation ms (filter (@accepted U) li) /\
        StronglySorted Z.le (map (@version U) ms) /\
        Forall (fun x : Migration => 0 < version x /\ up x <> None) ms).
Proof.
  pose proof (add_inputs_perm l []) as Hperm. simpl app in Hperm.
  split; [exact Hperm|]. split.
  - apply Forall_forall. intros x Hx.
    apply (Permutation_in _ Hperm) in Hx. apply in_flat_map in Hx.
    destruct Hx as (m & _ & Hx). eapply kept_passes, Hx.
  - intros li ->.
    destruct (registry_of []) as [self Hself].
    exists (migrations (add_each li self)).
    pose proof (add_inputs_of_integers li self) as Hwide. rewrite Hself in Hwide.
    pose proof (add_each_perm li self) as Hp. rewrite Hself in Hp. simpl app in Hp.
    split; [exact Hwide|]. split; [exact Hp|].
    split; [apply add_each_sorted; rewrite Hself; constructor|].
    apply Forall_forall. intros x Hx.
    apply (Permutation_in _ Hp) in Hx. apply filter_In in Hx.
    destruct Hx as [_ Hacc]. unfold accepted in Hacc.
    apply andb_prop in Hacc. destruct Hacc as [Hup Hpos].
    apply Z.ltb_lt in Hpos. split; [exact Hpos|].
    destruct (up x); [discriminate | discriminate Hup].
Qed.

End RegistryOrder.

(* ------------------------------------------------------------------ *)
(** ** Instances as the public methods build them *)

Section Instances.

Variable U : Type.

Local Abbreviation Migration := (Migration U).

Lemma add_keeps_settings (m : Migration) (self : Migrations U) :
  options (snd (add_integer m self)) = options self /\
  dbConnection (snd (add_integer m self)) = dbConnection self.
Proof.
  unfold add_integer. destruct (negb (is_function (up m))); [auto|].
  destruct (version m <=? 0); auto.
Qed.

Lemma add_each_keeps_settings (l : list Migration) :
  forall self : Migrations U,
    options (add_each l self) = options self /\
    dbConnection (add_each l self) = dbConnection self.
Proof.
  induction l as [|m l IH]; intros self; [auto|].
  unfold add_each in *. simpl fold_left.
  destruct (IH (snd (add_integer m self))) as [Ho Hd].
  destruct (add_keeps_settings m self) as [Ho' Hd'].
  split; congruence.
Qed.

(** X21.  Before [setDatabase], the four methods that need the database
    reject with 'Database connection not set. Call setDatabase() first.'
    and touch nothing, whatever was configured or registered. *)
Theorem database_methods_need_setDatabase (o o' : MigrationOptions) (l : list Migration)
    (c : command) (w : World U) :
  migrateTo (config o' (add_each l (new_Migrations U o))) c w =
    (Throw (JsError DatabaseNotSetCall), w) /\
  getVersion (config o' (add_each l (new_Migrations U o))) w =
    (Throw (JsError DatabaseNotSetCall), w) /\
  unlock (config o' (add_each l (new_Migrations U o))) w =
    (Throw (JsError DatabaseNotSetCall), w) /\
  reset (config o' (add_each l (new_Migrations U o))) w =
    (Throw (JsError DatabaseNotSetCall), w).
Proof.
  destruct (add_each_keeps_settings l (new_Migrations U o)) as [_ Hd].
  simpl in Hd.
  unfold migrateTo, getVersion, unlock, reset, config. simpl dbConnection.
  rewrite Hd. auto.
Qed.

(** X23.  On a sorted registry, the version that ['latest'] stands for is
    the highest registered version; it is registered as soon as anything
    is, and it is 0 on an empty registry. *)
Theorem latest_is_the_highest_version (self : Migrations U) :
  StronglySorted Z.le (map (@version U) (migrations self)) ->
  (forall m, In m (migrations self) -> version m <= latest_version self) /\
  (migrations self <> [] -> In (latest_version self) (map (@version U) (migrations self))) /\
  (migrations self = [] -> latest_version self = 0).
Proof.
  intros Hsorted. unfold latest_version.
  destruct (migrations self) as [|a l] eqn:Hms.
  - split; [intros m []|]. split; [congruence | reflexivity].
  - rewrite <- Hms in *.
    assert (Hlen : (0 < List.length (migrations self))%nat) by (rewrite Hms; simpl; lia).
    destruct (nth_error (migrations self) (List.length (migrations self) - 1))
      as [ml|] eqn:Hl; [|apply nth_error_None in Hl; lia].
    assert (Hat : at_index (migrations self)
                    (Z.of_nat (List.length (migrations self)) - 1) = Some ml).
    { apply at_index_Some. split; [lia|].
      replace (Z.to_nat (Z.of_nat (List.length (migrations self)) - 1))
        with (List.length (migrations self) - 1)%nat by lia.
      exact Hl. }
    rewrite Hat.
    split; [|split; [intros _; apply in_map; eapply nth_error_In, Hl | congruence]].
    intros m Hm. apply In_nth_error in Hm. destruct Hm as [j Hj].
    assert (Hjl : (j < List.length (migrations self))%nat)
      by (apply nth_error_Some; congruence).
    destruct (Nat.eq_dec j (List.length (migrations self) - 1)) as [->|Hne].
    + rewrite Hj in Hl. inversion Hl. lia.
    + apply (proj1 (StronglySorted_nth Z Z.le (map (@version U) (migrations self)))
               Hsorted j (List.length (migrations self) - 1)%nat).
      * lia.
      * apply map_nth_error, Hj.
      * apply map_nth_error, Hl.
Qed.

End Instances.

(* ------------------------------------------------------------------ *)
(** ** Commands: [split], [trim], [parseInt] on decimal targets *)

Section Commands.

Local Open Scope string_scope.

(** The character of a decimal digit. *)
Lemma digit_character (d : nat) :
  (d < 10)%nat ->
  is_digit (ascii_of_nat (48 + d)) = true /\
  is_space (ascii_of_nat (48 + d)) = false /\
  Ascii.eqb (ascii_of_nat (48 + d)) "," = false /\
  Ascii.eqb (ascii_of_nat (48 + d)) "l" = false /\
  ascii_of_nat (48 + d) <> "-"%char /\
  ascii_of_nat (48 + d) <> "+"%char /\
  digit_value (ascii_of_nat (48 + d)) = Z.of_nat d.
Proof.
  intros H.
  do 10 (destruct d as [|d]; [repeat split; discriminate|]).
  lia.
Qed.

Lemma plain_digits (ds : list nat) :
  Forall (fun d => d < 10)%nat ds -> plain (digits_string ds) = true.
Proof.
  induction 1 as [|d ds Hd _ IH]; [reflexivity|].
  destruct (digit_character d Hd) as (_ & Hs & Hc & _).
  change (digits_string (d :: ds))
    with (String (ascii_of_nat (48 + d)) (digits_string ds)).
  remember (ascii_of_nat (48 + d)) as c eqn:Ec in *. clear Ec.
  simpl. rewrite Hs, Hc, IH. reflexivity.
Qed.

Lemma trim_start_plain (s : string) : plain s = true -> trim_start s = s.
Proof.
  destruct s as [|c r]; [reflexivity|]. simpl. intros H.
  apply andb_prop in H. destruct H as [H _].
  apply andb_prop in H. destruct H as [_ H].
  destruct (is_space c); [discriminate | reflexivity].
Qed.

Lemma plain_rev_string (s : string) :
  forall acc, plain (rev_string s acc) = plain s && plain acc.
Proof.
  induction s as [|c r IH]; intros acc; [reflexivity|].
  simpl. rewrite IH. simpl.
  destruct (Ascii.eqb c ","), (is_space c), (plain r), (plain acc); reflexivity.
Qed.

Lemma append_empty (s : string) : s ++ "" = s.
Proof. induction s as [|c r IH]; simpl; [|rewrite IH]; reflexivity. Qed.

Lemma rev_string_twice (s : string) :
  forall a b, rev_string (rev_string s a) b = rev_string a (s ++ b).
Proof.
  induction s as [|c r IH]; intros a b; [reflexivity|].
  simpl. rewrite IH. reflexivity.
Qed.

(** [trim] leaves a string without white space as it is. *)
Lemma trim_plain (s : string) : plain s = true -> trim s = s.
Proof.
  intros H. unfold trim. rewrite (trim_start_plain s H).
  rewrite trim_start_plain.
  - rewrite rev_string_twice. simpl. apply append_empty.
  - rewrite plain_rev_string, H. reflexivity.
Qed.

(** [split(',')] around the first comma. *)
Lemma split_plain (a : string) : plain a = true -> split_comma a = [a].
Proof.
  induction a as [|c r IH]; [reflexivity|]. simpl. intros H.
  apply andb_prop in H. destruct H as [H Hr].
  apply andb_prop in H. destruct H as [Hc _].
  destruct (Ascii.eqb c ","); [discriminate|].
  rewrite (IH Hr). reflexivity.
Qed.

Lemma split_at_comma (a b : string) :
  plain a = true ->
  split_comma (a ++ String "," b) = a :: split_comma b.
Proof.
  induction a as [|c r IH]; [reflexivity|]. simpl. intros H.
  apply andb_prop in H. destruct H as [H Hr].
  apply andb_prop in H. destruct H as [Hc _].
  destruct (Ascii.eqb c ","); [discriminate|].
  rewrite (IH Hr). reflexivity.
Qed.

Lemma leading_digits_all (ds : list nat) :
  Forall (fun d => d < 10)%nat ds ->
  forall a,
    leading_digits (digits_string ds) (Some a) =
      Some (fold_left (fun acc d => 10 * acc + Z.of_nat d) ds a).
Proof.
  induction 1 as [|d ds Hd _ IH]; intros a; [reflexivity|].
  destruct (digit_character d Hd) as (Hdig & _ & _ & _ & _ & _ & Hval).
  change (digits_string (d :: ds))
    with (String (ascii_of_nat (48 + d)) (digits_string ds)).
  remember (ascii_of_nat (48 + d)) as c eqn:Ec in *. clear Ec.
  simpl leading_digits. rewrite Hdig, Hval. apply IH.
Qed.

(** [parseInt] on a string that starts with neither white space nor a
    sign. *)
Lemma parseInt_unsigned (c : ascii) (r : string) :
  is_space c = false -> c <> "-"%char -> c <> "+"%char ->
  parseInt (String c r) =
    match leading_digits (String c r) None with
    | Some n => to_double (1 * n)
    | None => NaN
    end.
Proof.
  intros Hs Hm Hp. unfold parseInt.
  change (trim_start (String c r))
    with (if is_space c then trim_start r else String c r).
  rewrite Hs.
  destruct c as [[] [] [] [] [] [] [] []]; try reflexivity; congruence.
Qed.

Lemma parseInt_digits (ds : list nat) :
  ds <> [] -> Forall (fun d => d < 10)%nat ds ->
  parseInt (digits_string ds) = to_double (digits_value ds).
Proof.
  intros Hne Hall. destruct ds as [|d ds]; [congruence|].
  inversion Hall as [|? ? Hd Hds]; subst.
  destruct (digit_character d Hd) as (Hdig & Hs & _ & _ & Hm & Hp & Hval).
  change (digits_string (d :: ds))
    with (String (ascii_of_nat (48 + d)) (digits_string ds)).
  rewrite (parseInt_unsigned _ _ Hs Hm Hp).
  change (leading_digits (String (ascii_of_nat (48 + d)) (digits_string ds)) None)
    with (if is_digit (ascii_of_nat (48 + d))
          then leading_digits (digits_string ds)
                 (Some (10 * 0 + digit_value (ascii_of_nat (48 + d))))
          else None).
  rewrite Hdig, Hval, (leading_digits_all ds Hds).
  unfold digits_value.
  change (fold_left (fun acc d0 => 10 * acc + Z.of_nat d0) (d :: ds) 0)
    with (fold_left (fun acc d0 => 10 * acc + Z.of_nat d0) ds (10 * 0 + Z.of_nat d)).
  f_equal. apply Z.mul_1_l.
Qed.

(** Below [2^53] every integer is a double. *)
Lemma to_double_exact (z : Z) : Z.abs z < 2 ^ 53 -> to_double z = Num z.
Proof.
  intros H. unfold to_double.
  replace (Z.abs z <? 2 ^ 53)%Z with true by (symmetry; apply Z.ltb_lt; exact H).
  reflexivity.
Qed.

Lemma digits_value_nonnegative (ds : list nat) : 0 <= digits_value ds.
Proof.
  unfold digits_value.
  assert (H : forall a, 0 <= a -> 0 <= fold_left (fun acc d => 10 * acc + Z.of_nat d) ds a).
  { induction ds as [|d ds IH]; intros a Ha; cbn [fold_left]; [exact Ha|].
    apply IH. lia. }
  apply H. apply Z.le_refl.
Qed.

Lemma digits_are_not_latest (ds : list nat) :
  ds <> [] -> Forall (fun d => d < 10)%nat ds ->
  String.eqb (digits_string ds) "latest" = false.
Proof.
  intros Hne Hall. destruct ds as [|d ds]; [congruence|].
  inversion Hall as [|? ? Hd Hds]; subst.
  destruct (digit_character d Hd) as (_ & _ & _ & Hl & _).
  change (digits_string (d :: ds))
    with (String (ascii_of_nat (48 + d)) (digits_string ds)).
  remember (ascii_of_nat (48 + d)) as c eqn:Ec in *. clear Ec.
  simpl. rewrite Hl. reflexivity.
Qed.

(** A command whose version part has neither white space nor comma, alone
    or followed by a comma and a subcommand of the same kind: the parts are
    taken as written. *)
Lemma parseCommand_plain (v sub : string) :
  plain v = true -> plain sub = true ->
  parseCommand (CmdString v) =
    Ok {| cmd_version := if String.eqb v "latest" then inr tt else inl (parseInt v);
          subcommand := None |} /\
  parseCommand (CmdString (v ++ String "," sub)) =
    Ok {| cmd_version := if String.eqb v "latest" then inr tt else inl (parseInt v);
          subcommand := Some sub |}.
Proof.
  intros Hv Hsub. unfold parseCommand. split.
  - rewrite (split_plain _ Hv). simpl nth_error. cbv iota.
    rewrite (trim_plain _ Hv). reflexivity.
  - rewrite (split_at_comma _ sub Hv), (split_plain _ Hsub).
    simpl nth_error. cbv iota.
    rewrite (trim_plain _ Hv), (trim_plain _ Hsub). reflexivity.
Qed.

(** X24.  A command made of decimal digits is parsed as the number they
    write, that is the double nearest to it: the integer itself when it
    is below [2^53].  What follows the first comma, when it has neither
    white space nor comma, is the subcommand as written. *)
Theorem parseCommand_reads_decimal_targets (ds : list nat) (sub : string) :
  ds <> [] -> Forall (fun d => d < 10)%nat ds -> plain sub = true ->
  parseCommand (CmdString (digits_string ds)) =
    Ok {| cmd_version := inl (to_double (digits_value ds)); subcommand := None |} /\
  parseCommand (CmdString (digits_string ds ++ String "," sub)) =
    Ok {| cmd_version := inl (to_double (digits_value ds)); subcommand := Some sub |} /\
  (digits_value ds < 2 ^ 53 -> to_double (digits_value ds) = Num (digits_value ds)).
Proof.
  intros Hne Hall Hsub.
  destruct (parseCommand_plain (digits_string ds) sub (plain_digits ds Hall) Hsub)
    as [Hone Htwo].
  rewrite Hone, Htwo.
  rewrite (digits_are_not_latest ds Hne Hall), (parseInt_digits ds Hne Hall).
  split; [reflexivity|]. split; [reflexivity|].
  intros Hsmall. apply to_double_exact.
  pose proof (digits_value_nonnegative ds). lia.
Qed.

End Commands.

(* ------------------------------------------------------------------ *)
(** ** String commands and the runs they start *)

Section CommandRuns.

Variable U : Type.
Variable self : Migrations U.
Variable conn : DatabaseConnection.
Hypothesis connected : dbConnection self = Some conn.

Lemma decimal_command_is_usable (ds : list nat) (tail : string) :
  ds <> [] -> is_empty_command (CmdString (digits_string ds ++ tail)) = false.
Proof. destruct ds as [|d ds]; [congruence | reflexivity]. Qed.

(** X26.  A command written in decimal digits starts the run that the
    number starts, and with [,rerun] behind it the rerun of that version;
    the number is the double nearest to the integer written, the integer
    itself when it is below [2^53]. *)
Theorem decimal_command_is_the_number (ds : list nat) (w : World U) :
  migrations self <> [] -> ds <> [] -> Forall (fun d => d < 10)%nat ds ->
  migrateTo self (CmdString (digits_string ds)) w =
    migrateTo self (CmdNumber (to_double (digits_value ds))) w /\
  migrateTo self (CmdString (digits_string ds ++ String "," "rerun")) w =
    _migrateTo self (to_double (digits_value ds)) true w /\
  (digits_value ds < 2 ^ 53 -> to_double (digits_value ds) = Num (digits_value ds)).
Proof.
  intros Hne Hds Hall.
  destruct (parseCommand_plain (digits_string ds) "rerun" (plain_digits ds Hall) eq_refl)
    as [Hp Hpr].
  rewrite (digits_are_not_latest ds Hds Hall), (parseInt_digits ds Hds Hall) in Hp, Hpr.
  split; [|split].
  - rewrite (migrateTo_number U self conn connected (to_double (digits_value ds)) w Hne).
    pose proof (decimal_command_is_usable ds "" Hds) as Hc.
    rewrite append_empty in Hc.
    rewrite (migrateTo_calls_the_engine U self conn connected _ _ w Hne Hc Hp).
    cbv [subcommand_is subcommand cmd_version].
    destruct (_migrateTo self (to_double (digits_value ds)) false w) as [[r|x|k] w'];
      reflexivity.
  - rewrite (migrateTo_calls_the_engine U self conn connected _ _ w Hne
               (decimal_command_is_usable ds _ Hds) Hpr).
    cbv [subcommand_is subcommand cmd_version].
    change (String.eqb "rerun" "rerun") with true.
    change (String.eqb "rerun" "exit") with false.
    destruct (_migrateTo self (to_double (digits_value ds)) true w) as [[r|x|k] w'];
      reflexivity.
  - intros Hsmall. apply to_double_exact.
    pose proof (digits_value_nonnegative ds). lia.
Qed.

End CommandRuns.

(* ------------------------------------------------------------------ *)
(** ** Concrete instances of the general properties *)

Lemma sample_registry_sorted :
  StronglySorted Z.le (map (@version _) (migrations (engine [first; second; third]))).
Proof. repeat (constructor; try (simpl; lia)). Defined.

Lemma sample_registry_positive :
  Forall (fun m : Migration (list string) => 0 < version m)
    (migrations (engine [first; second; third])).
Proof. repeat (constructor; try (simpl; lia)). Defined.

(** [add] of a second version 2 into the versions 1, 2, 3. *)
Lemma add_inserts_behind_equal_versions_witness :
  map (@as_stored _) [first; second; second_again; third] =
    map (@as_stored _)
      (filter (fun x => version x <=? version second_again) [first; second; third] ++
       second_again ::
       filter (fun x => version second_again <? version x) [first; second; third]).
Proof.
  exact (add_inserts_behind_equal_versions (list string) host_sort
           (insertion_sort_of_integers (list string)) second_again
           [first; second; third]
           (map (@as_stored _) [first; second; second_again; third])
           sample_registry_sorted eq_refl).
Defined.

(** The versions 3, 1, 2 registered in that order and in ascending order. *)
Lemma registration_order_is_irrelevant_witness :
  add_inputs host_sort (map (@as_input _) [third; first; second]) (map (@as_stored _) []) =
  add_inputs host_sort (map (@as_input _) [first; second; third]) (map (@as_stored _) []).
Proof.
  apply (registration_order_is_irrelevant (list string) host_sort
           (insertion_sort_of_integers (list string))).
  - constructor.
  - simpl. repeat constructor; simpl; intuition discriminate.
  - apply (Permutation_cons_app [first; second] []). apply Permutation_refl.
Defined.

(** [add] of version 3 to the versions 1, 2. *)
Lemma added_versions_are_found_witness :
  (exists i m',
      findIndexByVersion (engine [first; second; third]) (Num (version third)) = Ok i /\
      at_index (migrations (engine [first; second; third])) i = Some m' /\
      version m' = version third /\
      (~ In (version third) (map (@version _) (migrations (engine [first; second]))) ->
       m' = third)) /\
  (forall v i, findIndexByVersion (engine [first; second]) v = Ok i ->
               exists j, findIndexByVersion (engine [first; second; third]) v = Ok j).
Proof.
  exact (added_versions_are_found (list string) host_sort
           (insertion_sort_of_integers (list string)) third
           (engine [first; second]) (engine [first; second; third]) eq_refl).
Defined.

(** A new instance given a migration of version [NaN], one whose version
    is a string, and the version 1; and a new instance given the versions
    3, 1, 2. *)
Lemma built_registry_is_well_formed_witness :
  Permutation (add_inputs host_sort [not_a_number; version_as_text; as_input first] [])
    [not_a_number_stored; as_stored first] /\
  Forall (fun x : JsMigration (list string) =>
            js_up x <> None /\ less_or_equal (js_version x) (Num 0) = false)
    (add_inputs host_sort [not_a_number; version_as_text; as_input first] []) /\
  exists ms,
    add_inputs host_sort (map (@as_input _) [third; first; second]) [] =
      map (@as_stored _) ms /\
    Permutation ms (filter (@accepted _) [third; first; second]) /\
    StronglySorted Z.le (map (@version _) ms) /\
    Forall (fun x : Migration (list string) => 0 < version x /\ up x <> None) ms.
Proof.
  destruct (built_registry_is_well_formed (list string) host_sort
              (insertion_sort_permutes _) (insertion_sort_of_integers (list string))
              [not_a_number; version_as_text; as_input first]) as (Hperm & Hall & _).
  destruct (built_registry_is_well_formed (list string) host_sort
              (insertion_sort_permutes _) (insertion_sort_of_integers (list string))
              (map (@as_input _) [third; first; second])) as (_ & _ & Hint).
  split; [exact Hperm|]. split; [exact Hall|].
  exact (Hint [third; first; second] eq_refl).
Defined.

(** The result of the run that stops at its second migration. *)
Lemma returned_result_is_well_formed_witness :
  toVersion stopped_result = Num 3 /\
  fromVersion stopped_result = 0 /\
  (success stopped_result = true <-> error stopped_result = None) /\
  (forall e, error stopped_result = Some e -> exists m, e = JsError m) /\
  0 <= migrationsRun stopped_result <= 3.
Proof.
  assert (Hrun : _migrateTo (engine [first; second_failing; third]) (Num 3) false
                   (world None []) = (Ok stopped_result, snd stopped_run))
    by (vm_compute; reflexivity).
  exact (returned_result_is_well_formed (list string)
           (engine [first; second_failing; third]) connection eq_refl
           (Num 3) false (world None []) (snd stopped_run) stopped_result Hrun).
Defined.

Lemma returning_run_leaves_the_lock_as_found_witness :
  exists c', collection (snd stopped_run) = Some c' /\ locked c' = false.
Proof.
  assert (Hrun : _migrateTo (engine [first; second_failing; third]) (Num 3) false
                   (world None []) = (Ok stopped_result, snd stopped_run))
    by (vm_compute; reflexivity).
  exact (returning_run_leaves_the_lock_as_found (list string)
           (engine [first; second_failing; third]) connection eq_refl
           (Num 3) false (world None []) (snd stopped_run) stopped_result Hrun).
Defined.

Lemma stored_version_stays_in_the_ledger_witness :
  in_ledger (engine [first; second_failing; third]) 0
    (ctl_version (stored_control (snd stopped_run))).
Proof.
  assert (Hrun : _migrateTo (engine [first; second_failing; third]) (Num 3) false
                   (world None []) = (fst stopped_run, snd stopped_run))
    by (vm_compute; reflexivity).
  exact (stored_version_stays_in_the_ledger (list string)
           (engine [first; second_failing; third]) connection eq_refl
           (Num 3) false (world None []) (snd stopped_run) (fst stopped_run) Hrun).
Defined.

(** The run whose second [up] throws an object that cannot be rendered. *)
Lemma reliable_driver_rejects_only_unprintable_witness :
  faults (snd unprintable_run) = [] /\
  (forall e, fst unprintable_run = Throw e ->
     thrown_by_an_action (engine [first; second_unprintable; third]) (JsUnprintable e) /\
     exists c', collection (snd unprintable_run) = Some c' /\ locked c' = false).
Proof.
  assert (Hrun : _migrateTo (engine [first; second_unprintable; third]) (Num 3) false
                   (world None []) = (fst unprintable_run, snd unprintable_run))
    by (vm_compute; reflexivity).
  exact (reliable_driver_rejects_only_unprintable (list string)
           (engine [first; second_unprintable; third]) connection eq_refl
           (Num 3) false (world None []) (snd unprintable_run) (fst unprintable_run)
           eq_refl Hrun).
Defined.

Lemma rerun_keeps_the_stored_version_witness :
  ctl_version (stored_control (snd rerun_of_first)) = 2.
Proof.
  assert (Hrun : _migrateTo (engine [first; second; third]) (Num 1) true
                   (world (Some (control 2 false)) []) =
                 (fst rerun_of_first, snd rerun_of_first))
    by (vm_compute; reflexivity).
  assert (Hkept : ctl_version (stored_control (snd rerun_of_first)) =
                  ctl_version (stored_control (world (Some (control 2 false)) [])))
    by exact (rerun_keeps_the_stored_version (list string)
                (engine [first; second; third]) connection eq_refl
                (Num 1) (world (Some (control 2 false)) []) (snd rerun_of_first)
                (fst rerun_of_first) Hrun).
  exact Hkept.
Defined.

Lemma actions_run_under_the_lock_witness :
  exists evs,
    events (snd stopped_run) = [] ++ evs /\ guarded_trace evs = true /\
    (forall r, fst stopped_run = Ok r ->
               evs = [] \/ evs = [EvLock] \/ last evs EvLock = EvUnlock).
Proof.
  assert (Hrun : _migrateTo (engine [first; second_failing; third]) (Num 3) false
                   (world None []) = (fst stopped_run, snd stopped_run))
    by (vm_compute; reflexivity).
  exact (actions_run_under_the_lock (list string)
           (engine [first; second_failing; third]) connection eq_refl
           (Num 3) false (world None []) (snd stopped_run) (fst stopped_run) Hrun).
Defined.

Lemma silenced_logger_logs_nothing_witness :
  logs (snd (migrateTo (engine [first; second; third]) (CmdString "latest")
               (world None []))) = [].
Proof.
  exact (silenced_logger_logs_nothing (list string)
           (engine [first; second; third]) connection eq_refl
           (CmdString "latest") (world None []) eq_refl).
Defined.

Lemma rerun_invokes_one_up_witness :
  exists w',
    _migrateTo (engine [first; second; third]) (Num 1) true
      (world (Some (control 2 false)) []) =
      (Ok {| success := true; fromVersion := 2; toVersion := Num 1;
             migrationsRun := 1; error := None |}, w') /\
    events w' = [] ++ [EvLock; EvInvoke Up 1; EvUnlock] /\
    collection w' = Some {| ctl_version := 2; locked := false; lockedAt := Some 1000 |} /\
    user w' = ["up1"%string].
Proof.
  exact (rerun_invokes_one_up (list string)
           (engine [first; second; third]) connection eq_refl
           1 0 first (push "up1") ["up1"%string] (world (Some (control 2 false)) [])
           eq_refl eq_refl eq_refl eq_refl eq_refl eq_refl).
Defined.

(** ['2,exit'] on a registry whose second migration throws. *)
Lemma exit_subcommand_exits_with_code_0_witness :
  (forall r w', migrateTo (engine [first; second_failing]) (CmdString "2,exit")
                  (world None []) <> (Ok r, w')) /\
  (forall r w',
      _migrateTo (engine [first; second_failing]) (Num 2) false (world None []) =
        (Ok r, w') ->
      migrateTo (engine [first; second_failing]) (CmdString "2,exit") (world None []) =
        (Exit 0, w')).
Proof.
  assert (Hne : migrations (engine [first; second_failing]) <> []) by discriminate.
  exact (exit_subcommand_exits_with_code_0 (list string)
           (engine [first; second_failing]) connection eq_refl
           (CmdString "2,exit")
           {| cmd_version := inl (Num 2); subcommand := Some "exit"%string |}
           (world None []) Hne eq_refl eq_refl eq_refl).
Defined.

(** No command at all; and the command [3] on the registry whose second
    [up] throws an object that cannot be rendered. *)
Lemma migrateTo_rejects_only_unusable_commands_witness :
  migrateTo (engine [first]) CmdUndefined (world None []) =
    (Throw (JsError (InvalidCommand CmdUndefined)), world None []) /\
  (forall e,
      fst (migrateTo (engine [first; second_unprintable; third]) (CmdNumber (Num 3))
             (world None [])) = Throw e ->
      thrown_by_an_action (engine [first; second_unprintable; third]) (JsUnprintable e)).
Proof.
  assert (Hne : migrations (engine [first; second_unprintable; third]) <> [])
    by discriminate.
  split.
  - exact (proj1
             (migrateTo_rejects_only_unusable_commands (list string)
                (engine [first]) connection eq_refl CmdUndefined (world None []))
             (or_introl eq_refl)).
  - exact (proj2
             (migrateTo_rejects_only_unusable_commands (list string)
                (engine [first; second_unprintable; third]) connection eq_refl
                (CmdNumber (Num 3)) (world None []))
             eq_refl Hne eq_refl).
Defined.

Lemma getVersion_creates_the_record_once_witness :
  (forall c, collection (world None []) = Some c ->
             collection (snd (getVersion (engine [first]) (world None []))) = Some c) /\
  (faults (world None []) = [] ->
   exists w',
     getVersion (engine [first]) (world None []) = (Ok 0, w') /\
     collection w' = Some {| ctl_version := 0; locked := false; lockedAt := None |} /\
     events w' = [] /\ user w' = [] /\
     getVersion (engine [first]) w' = (Ok 0, w')).
Proof.
  exact (getVersion_creates_the_record_once (list string)
           (engine [first]) connection eq_refl (world None [])).
Defined.

Lemma lock_is_exclusive_witness :
  (true = true <->
   exists c, collection (world (Some (control 0 false)) []) = Some c /\
             locked c = false) /\
  (forall c, collection (world (Some (control 0 false)) []) = Some c ->
             true = true ->
             collection (snd (lock (engine [first]) (world (Some (control 0 false)) []))) =
               Some (locked_at 1000 c)) /\
  (true = false ->
   collection (snd (lock (engine [first]) (world (Some (control 0 false)) []))) =
     Some (control 0 false)) /\
  (forall b2 w2,
      lock (engine [first])
        (snd (lock (engine [first]) (world (Some (control 0 false)) []))) = (Ok b2, w2) ->
      true = true -> b2 = false).
Proof.
  exact (lock_is_exclusive (list string) (engine [first]) connection eq_refl
           (world (Some (control 0 false)) [])
           (snd (lock (engine [first]) (world (Some (control 0 false)) [])))
           true eq_refl).
Defined.

Lemma unlock_releases_any_holder_witness :
  collection (snd (unlock (engine [first]) (world (Some (control 1 true)) []))) =
    Some (control 1 false) /\
  (forall b w2,
      lock (engine [first])
        (snd (unlock (engine [first]) (world (Some (control 1 true)) []))) = (Ok b, w2) ->
      b = true).
Proof.
  exact (unlock_releases_any_holder (list string) (engine [first]) connection eq_refl
           (world (Some (control 1 true)) [])
           (snd (unlock (engine [first]) (world (Some (control 1 true)) []))) eq_refl).
Defined.

Lemma reset_drops_the_control_record_witness :
  (forall w', reset (engine [first]) (world (Some (control 3 true)) []) = (Ok tt, w') ->
              collection w' = None /\ user w' = [] /\ events w' = [] /\ logs w' = []) /\
  (faults (world (Some (control 3 true)) []) = [] ->
   exists w' w'',
     reset (engine [first]) (world (Some (control 3 true)) []) = (Ok tt, w') /\
     getVersion (engine [first]) w' = (Ok 0, w'') /\
     collection w'' = Some {| ctl_version := 0; locked := false; lockedAt := None |}).
Proof.
  exact (reset_drops_the_control_record (list string) (engine [first]) connection eq_refl
           (world (Some (control 3 true)) [])).
Defined.

Lemma getVersion_reads_the_reached_target_witness :
  exists w2, getVersion (engine [first; second; third]) (snd full_run) = (Ok 3, w2).
Proof.
  assert (Hrun : _migrateTo (engine [first; second; third]) (Num 3) false (world None []) =
                 (Ok {| success := true; fromVersion := 0; toVersion := Num 3;
                        migrationsRun := 3; error := None |}, snd full_run))
    by (vm_compute; reflexivity).
  exact (getVersion_reads_the_reached_target (list string)
           (engine [first; second; third]) connection eq_refl
           3 (world None []) (snd full_run)
           {| success := true; fromVersion := 0; toVersion := Num 3;
              migrationsRun := 3; error := None |}
           sample_registry_sorted sample_registry_positive eq_refl Hrun eq_refl).
Defined.

Lemma fast_path_logs_if_latest_witness :
  logs (snd (_migrateTo (verbose_engine [first; second]) (Num 2) false
               (world (Some (control 2 false)) []))) =
    [] ++ [(info, AlreadyAtVersion (Num 2))].
Proof.
  exact (fast_path_logs_if_latest (list string)
           (verbose_engine [first; second]) connection eq_refl
           2 (world (Some (control 2 false)) []) eq_refl eq_refl).
Defined.

Lemma latest_is_the_highest_version_witness :
  (forall m, In m (migrations (engine [first; second; third])) -> version m <= 3) /\
  (migrations (engine [first; second; third]) <> [] ->
   In 3 (map (@version _) (migrations (engine [first; second; third])))) /\
  (migrations (engine [first; second; third]) = [] -> 3 = 0).
Proof.
  exact (latest_is_the_highest_version (list string)
           (engine [first; second; third]) sample_registry_sorted).
Defined.

Lemma parseCommand_reads_decimal_targets_witness :
  parseCommand (CmdString (digits_string [4; 2]%nat)) =
    Ok {| cmd_version := inl (to_double 42); subcommand := None |} /\
  parseCommand (CmdString (digits_string [4; 2]%nat ++ String "," "rerun")) =
    Ok {| cmd_version := inl (to_double 42); subcommand := Some "rerun"%string |} /\
  (42 < 2 ^ 53 -> to_double 42 = Num 42).
Proof.
  assert (Hne : [4; 2]%nat <> []) by discriminate.
  assert (Hall : Forall (fun d => d < 10)%nat [4; 2]%nat) by (repeat constructor).
  exact (parseCommand_reads_decimal_targets [4; 2]%nat "rerun" Hne Hall eq_refl).
Defined.

Lemma migrationsRun_counts_the_version_writes_witness :
  exists evs, events (snd stopped_run) = [] ++ evs /\
              migrationsRun stopped_result = Z.of_nat (version_writes evs).
Proof.
  assert (Hrun : _migrateTo (engine [first; second_failing; third]) (Num 3) false
                   (world None []) = (Ok stopped_result, snd stopped_run))
    by (vm_compute; reflexivity).
  exact (migrationsRun_counts_the_version_writes (list string)
           (engine [first; second_failing; third]) connection eq_refl
           (Num 3) (world None []) (snd stopped_run) stopped_result eq_refl Hrun).
Defined.

(** ['2'] and [2], ['2,rerun'] and the rerun of 2. *)
Lemma decimal_command_is_the_number_witness :
  migrateTo (engine [first; second; third]) (CmdString (digits_string [2%nat]))
    (world None []) =
    migrateTo (engine [first; second; third]) (CmdNumber (to_double 2)) (world None []) /\
  migrateTo (engine [first; second; third])
    (CmdString (digits_string [2%nat] ++ String "," "rerun")) (world None []) =
    _migrateTo (engine [first; second; third]) (to_double 2) true (world None []) /\
  (2 < 2 ^ 53 -> to_double 2 = Num 2).
Proof.
  assert (Hne : migrations (engine [first; second; third]) <> []) by discriminate.
  assert (Hds : [2%nat] <> []) by discriminate.
  assert (Hall : Forall (fun d => d < 10)%nat [2%nat]) by (repeat constructor).
  exact (decimal_command_is_the_number (list string)
           (engine [first; second; third]) connection eq_refl
           [2%nat] (world None []) Hne Hds Hall).
Defined.
